(** * Promissory Arbiter: a shallow embedding of [src/promissory-arbiter.js]

    The development follows the layout of the source file: the standard
    data-structure algorithms first ([binaryIndexBy], [insert], [minBy],
    [mergeBy]), then the topic tree, the resolver and the subscription
    dispatcher, and finally the public functions ([subscribe], [publish],
    [removePersisted], [create]).

    Modelling conventions.
    - A JavaScript number that is only ever compared (a priority, an id, a
      persisted order) is a [num]: an integer or one of NaN, -Infinity,
      +Infinity.  The finite doubles form a finite total order, so the
      integers carry every ordering the source can observe on them.
    - A JavaScript number that takes part in arithmetic (the counters of a
      publication promise, [latch], [semaphor]) is a binary64 [float].
    - A reference to a node of the topic tree is the path of child indices
      that leads to it from the root.  Nodes are only reachable through
      their parent, so a write through a reference is a write at that path.
    - Subscriber functions are user code.  Their behaviour is a parameter of
      the model (field [call] of [jsfun]); they are assumed not to re-enter
      the broker while they run.
    - A thenable that a subscriber hands back is user code as well: its
      [then] may call back before it returns ([eager]), in which case
      [resolveUseClosure] runs inside the dispatch loop and dispatches
      again.  Such dispatches nest as deep as the engine's call stack
      allows: the dispatchers take the room that is left as [stack], and
      raise a [RangeError] when it is used up.
    - A publication in flight refers to the subscription objects of the
      tree and, under [preventBubble], to the array of a node.  What the
      other calls of the interface do to them between two outcomes is the
      [flight] model: [follow] re-reads the array after each call. *)

From Stdlib Require Import Bool Arith ZArith Lia List String Ascii.
From Stdlib Require Import Permutation Sorting.Sorted PrimFloat.
Import ListNotations.

Set Implicit Arguments.
Set Warnings "-register-all".
Local Open Scope list_scope.

(** ** JavaScript values *)

Module JS.

(** Numbers that are only compared. *)
Inductive num : Type :=
| NaN
| NegInf
| Fin (z : Z)
| PosInf.

(** The primitive values that travel through the broker as data, contexts
    and results. *)
Inductive value : Type :=
| VUndefined
| VNull
| VBool (b : bool)
| VNum (n : num)
| VStr (s : string).

(** What a property read yields when the property may be absent. *)
Inductive operand : Type :=
| Undef
| Num (n : num).

(** [a < b] on numbers: every comparison with NaN is false. *)
Definition num_ltb (a b : num) : bool :=
  match a, b with
  | NaN, _ => false
  | _, NaN => false
  | NegInf, NegInf => false
  | NegInf, _ => true
  | Fin _, NegInf => false
  | Fin x, Fin y => Z.ltb x y
  | Fin _, PosInf => true
  | PosInf, _ => false
  end.

(** [a === b] on numbers: NaN is not equal to itself. *)
Definition num_eqb (a b : num) : bool :=
  match a, b with
  | NegInf, NegInf => true
  | Fin x, Fin y => Z.eqb x y
  | PosInf, PosInf => true
  | _, _ => false
  end.

(** In a relational comparison [undefined] converts to NaN. *)
Definition toNumber (o : operand) : num :=
  match o with
  | Undef => NaN
  | Num n => n
  end.

(** ToBoolean. *)
Definition truthy (v : value) : bool :=
  match v with
  | VUndefined => false
  | VNull => false
  | VBool b => b
  | VNum NaN => false
  | VNum (Fin z) => negb (Z.eqb z 0%Z)
  | VNum _ => true
  | VStr s => negb (String.eqb s EmptyString)
  end.

(** The relational operator [<] at the types the source uses it. *)
Class Less (K : Type) : Type := less : K -> K -> bool.

#[global] Instance less_string : Less string := String.ltb.
#[global] Instance less_num : Less num := num_ltb.
#[global] Instance less_operand : Less operand :=
  fun a b => num_ltb (toNumber a) (toNumber b).

(** What a call can raise.  [RangeError] is the error of the engine when
    its call stack is full. *)
Inductive exn : Type :=
| Error (message : string)
| TypeError
| RangeError
| Thrown (v : value).

(** The result of a call that may raise. *)
Inductive outcome (T : Type) : Type :=
| Returned (x : T)
| Raised (e : exn).

Arguments Returned {T} x.
Arguments Raised {T} e.

Definition finite (n : num) : Prop := exists z, n = Fin z.

End JS.

Import JS.

(** ** Private standard data-structure algorithms *)

Section Algorithms.

Context {A K : Type} {lessK : Less K}.

(** [binaryIndexBy]: the loop
    [while (low < high) { mid = low + high >>> 1; ... }].  Every iteration
    shrinks [high - low], so [high - low] iterations are enough; when the
    fuel is spent the loop condition is false and [high] is returned, as in
    the source.  [array[mid]] is always in range; outside the range the
    source would read [undefined]. *)
Fixpoint binaryIndexBy_loop (fuel : nat) (getValue : A -> K) (value : K)
    (array : list A) (low high : nat) : nat :=
  match fuel with
  | O => high
  | S fuel' =>
      if Nat.ltb low high then
        let mid := Nat.div2 (low + high) in
        match nth_error array mid with
        | Some elem =>
            if less (getValue elem) value
            then binaryIndexBy_loop fuel' getValue value array (S mid) high
            else binaryIndexBy_loop fuel' getValue value array low mid
        | None => high
        end
      else high
  end.

Definition binaryIndexBy (getValue : A -> K) (item : K) (array : list A) : nat :=
  binaryIndexBy_loop (List.length array) getValue item array 0 (List.length array).

(** [arr.splice(index, 0, item)]. *)
Definition splice_in (index : nat) (item : A) (arr : list A) : list A :=
  firstn index arr ++ item :: skipn index arr.

(** [arr.splice(index, 1)]. *)
Definition splice_out (index : nat) (arr : list A) : list A :=
  firstn index arr ++ skipn (S index) arr.

(** [insert]: the list after the sorted insertion (the source mutates
    [list] and returns [item]). *)
Definition insert (getValue : A -> K) (item : A) (arr : list A) : list A :=
  let index := binaryIndexBy getValue (getValue item) arr in
  splice_in index item arr.

End Algorithms.

Section Merge.

Context {A : Type}.

(** A finger list is a list with an additional pointer to an element. *)
Record fingerArray : Type := mkFinger { pointer : nat; array : list A }.

Definition mkFingerArray (array : list A) : fingerArray :=
  {| pointer := 0; array := array |}.

(** [SYMBOL_NOTHING] is [None]: the sentinel of an exhausted finger list. *)
Definition getPointedFinger (fArray : fingerArray) : option A :=
  if Nat.ltb (pointer fArray) (List.length (array fArray))
  then nth_error (array fArray) (pointer fArray)
  else None.

(** The wrappers [getFingerArrayOrder] and [getFingerArrayPriority] have
    this shape, with [getOrder] and [getPriority] for [getKey]. *)
Definition getFingerArrayBy (getKey : A -> num) (fingerArray : fingerArray) : num :=
  match getPointedFinger fingerArray with
  | Some item => getKey item
  | None => PosInf
  end.

(** [minBy]: the scan [while (++idx < list.length)].  The source returns
    the winning element by reference; the model returns its index. *)
Fixpoint minBy_loop {T : Type} (valueComputer : T -> num) (rest : list T)
    (idx winner : nat) (computedWinner : num) : nat :=
  match rest with
  | [] => winner
  | current :: rest' =>
      let computedCurrent := valueComputer current in
      if less computedCurrent computedWinner
      then minBy_loop valueComputer rest' (S idx) idx computedCurrent
      else minBy_loop valueComputer rest' (S idx) winner computedWinner
  end.

(** On an empty list [winner] is [undefined] and [valueComputer] raises. *)
Definition minBy {T : Type} (valueComputer : T -> num) (arr : list T) : option nat :=
  match arr with
  | [] => None
  | winner :: rest => Some (minBy_loop valueComputer rest 1 0 (valueComputer winner))
  end.

(** [min.pointer += 1] on the finger list at index [m]. *)
Fixpoint advance (m : nat) (fingerArrays : list fingerArray) : list fingerArray :=
  match fingerArrays, m with
  | [], _ => []
  | f :: rest, O => {| pointer := S (pointer f); array := array f |} :: rest
  | f :: rest, S m' => f :: advance m' rest
  end.

(** The loop of [mergeBy]: [n] iterations.  [None] is the TypeError that
    [minBy] raises on an empty list of finger lists. *)
Fixpoint mergeBy_loop (getItemOrder : fingerArray -> num) (n : nat)
    (fingerArrays : list fingerArray) : option (list (option A)) :=
  match n with
  | O => Some []
  | S n' =>
      match minBy getItemOrder fingerArrays with
      | None => None
      | Some m =>
          match nth_error fingerArrays m with
          | None => None
          | Some min =>
              match mergeBy_loop getItemOrder n' (advance m fingerArrays) with
              | None => None
              | Some result => Some (getPointedFinger min :: result)
              end
          end
      end
  end.

Definition mergeBy (getItemOrder : fingerArray -> num) (arrays : list (list A))
    : option (list (option A)) :=
  let n := fold_left Nat.add (map (@List.length A) arrays) 0 in
  let fingerArrays := map mkFingerArray arrays in
  mergeBy_loop getItemOrder n fingerArrays.

End Merge.

Arguments fingerArray A : clear implicits.

(** ** Data model *)

(** The state of a promise. *)
Inductive pstate (V : Type) : Type :=
| Pending
| Fulfilled (v : V)
| Rejected (v : V).

Arguments Pending {V}.
Arguments Fulfilled {V} v.
Arguments Rejected {V} v.

(** What a subscriber hands back: a plain value, or an object with a
    [then] method, described by the state it reports to its callbacks. *)
Inductive returned : Type :=
| Plain (v : value)
| Thenable (state : pstate value).

Inductive completion : Type :=
| Return (r : returned)
| Throw (e : value).

(** One run of a subscriber function: the calls [done(err, succ)] it
    makes on its third argument, in order, and how the run completes.
    The second argument of [done] may be a thenable.  When the run hands
    back a thenable, [eager] tells whether the [then] of that thenable
    calls its callback before it returns; the [then] of a promise never
    does, it calls back on a later turn. *)
Record fn_run : Type := mkRun {
  done_calls : list (value * returned);
  fn_completion : completion;
  eager : bool
}.

(** A function object: its declared arity [fn.length], the own properties
    [suspended] and [context] that [subscribe] reads from it, and its
    behaviour [call this data topic doneGiven]. *)
Record jsfun : Type := mkFun {
  fn_length : nat;
  fn_suspended : value;
  fn_context : value;
  call : value -> value -> value -> bool -> fn_run
}.

(** [function noop () {}]. *)
Definition noop : jsfun :=
  {| fn_length := 0;
     fn_suspended := VUndefined;
     fn_context := VUndefined;
     call := fun _ _ _ _ =>
       {| done_calls := []; fn_completion := Return (Plain VUndefined); eager := false |} |}.

(** The second argument of [subscribe]: a function or anything else. *)
Inductive subscriber : Type :=
| SFun (f : jsfun)
| SValue (v : value).

Record subscription : Type := mkSubscription {
  id : Z;
  fn : jsfun;
  suspended : bool;
  priority : num;
  context : value
}.

Record persistedMessage : Type := mkPersisted {
  p_topic : string;
  data : value;
  order : Z
}.

Record Token : Type := mkToken {
  tok_topic : string;
  tok_id : Z;
  tok_priority : option num
}.

Inductive node : Type := mkNode {
  topic : string;
  subscriptions : list subscription;
  children : list node;
  persisted : list persistedMessage
}.

(** The options holder of a broker.  [priority] and [ignorePersisted] are
    not among the defaults of [create]; they read as [undefined]. *)
Record Options : Type := mkOptions {
  persist : bool;
  sync : bool;
  preventBubble : bool;
  latch : float;
  settlementLatch : bool;
  semaphor : float;
  updateAfterSettlement : bool;
  opt_priority : option num;
  ignorePersisted : bool
}.

(** The [options] argument of a call: each property is present or not. *)
Record Overrides : Type := mkOverrides {
  o_persist : option bool;
  o_sync : option bool;
  o_preventBubble : option bool;
  o_latch : option float;
  o_settlementLatch : option bool;
  o_semaphor : option float;
  o_updateAfterSettlement : option bool;
  o_priority : option num;
  o_ignorePersisted : option bool
}.

Definition no_overrides : Overrides :=
  mkOverrides None None None None None None None None None.

(** A broker: the root of its topic tree, its options, and the counter
    [i] captured by its id generator. *)
Record Arbiter : Type := mkArbiter {
  _topics : node;
  options : Options;
  next_id : Z
}.

(** [state.options]. *)
Definition state_options (state : Arbiter) : Options := options state.

(** [merge(a, b)]: a new object with the properties of [a], then those of
    [b] written over them. *)
Definition merge (a : Options) (b : Overrides) : Options :=
  let pick {T} (x : T) (y : option T) : T :=
    match y with Some v => v | None => x end in
  {| persist := pick (persist a) (o_persist b);
     sync := pick (sync a) (o_sync b);
     preventBubble := pick (preventBubble a) (o_preventBubble b);
     latch := pick (latch a) (o_latch b);
     settlementLatch := pick (settlementLatch a) (o_settlementLatch b);
     semaphor := pick (semaphor a) (o_semaphor b);
     updateAfterSettlement := pick (updateAfterSettlement a) (o_updateAfterSettlement b);
     opt_priority := match o_priority b with Some v => Some v | None => opt_priority a end;
     ignorePersisted := pick (ignorePersisted a) (o_ignorePersisted b) |}.

(** ** Accessors *)

Definition getTopic (n : node) : string := topic n.
Definition getOrder (persistedSubscription : persistedMessage) : num :=
  Fin (order persistedSubscription).
Definition getPersisted (n : node) : list persistedMessage := persisted n.
Definition getPriority (s : subscription) : num := priority s.
Definition getSubscriptions (n : node) : list subscription := subscriptions n.

(** [getId] reads [obj.id].  A subscription has the property. *)
Definition getId (s : subscription) : operand := Num (Fin (id s)).

(** A persisted message is [{topic, data, order}]: it has no property
    [id], and [getId] yields [undefined] on it. *)
Definition getId_persisted (m : persistedMessage) : operand := Undef.

Definition getFingerArrayOrder : fingerArray persistedMessage -> num :=
  getFingerArrayBy getOrder.
Definition getFingerArrayPriority : fingerArray subscription -> num :=
  getFingerArrayBy getPriority.

Definition createNode (t : string) : node :=
  {| topic := t; subscriptions := []; children := []; persisted := [] |}.

(** [mkGenerator]: the first value the generator returns. *)
Definition first_id : Z := (-9007199254740992)%Z.

(** ** Strings *)

(** [haystack.lastIndexOf(needle, 0) === 0]. *)
Definition startsWith (haystack needle : string) : bool :=
  String.prefix needle haystack.

(** [s.split(sep)] for a one-character separator. *)
Fixpoint split (sep : ascii) (s : string) : list string :=
  match s with
  | EmptyString => [EmptyString]
  | String c rest =>
      if Ascii.eqb c sep then EmptyString :: split sep rest
      else match split sep rest with
           | [] => [String c EmptyString]
           | w :: ws => String c w :: ws
           end
  end.

(** [s.substr(n)]. *)
Definition substr (n : nat) (s : string) : string :=
  String.substring n (String.length s - n) s.

(** [s.replace(/^\./, '')]. *)
Definition strip_leading_dot (s : string) : string :=
  match s with
  | String c rest => if Ascii.eqb c "."%char then rest else s
  | EmptyString => s
  end.

(** ** The topic tree *)

(** A reference to a node: the child indices from the root. *)
Definition ref : Type := list nat.

Definition set_children (n : node) (cs : list node) : node :=
  {| topic := topic n; subscriptions := subscriptions n;
     children := cs; persisted := persisted n |}.

Definition set_subscriptions (n : node) (ss : list subscription) : node :=
  {| topic := topic n; subscriptions := ss;
     children := children n; persisted := persisted n |}.

Definition set_persisted (n : node) (ps : list persistedMessage) : node :=
  {| topic := topic n; subscriptions := subscriptions n;
     children := children n; persisted := ps |}.

Fixpoint deref (tree : node) (r : ref) : option node :=
  match r with
  | [] => Some tree
  | i :: r' =>
      match nth_error (children tree) i with
      | Some c => deref c r'
      | None => None
      end
  end.

Fixpoint update_nth {T : Type} (i : nat) (f : T -> T) (l : list T) : list T :=
  match l, i with
  | [], _ => []
  | x :: l', O => f x :: l'
  | x :: l', S i' => x :: update_nth i' f l'
  end.

(** A write through the reference [r]. *)
Fixpoint modify (r : ref) (f : node -> node) (tree : node) : node :=
  match r with
  | [] => f tree
  | i :: r' => set_children tree (update_nth i (modify r' f) (children tree))
  end.

(** [arr[i]] followed by a use of the element, [None] when [arr[i]] is
    [undefined]. *)
Definition with_child {T B : Type} (k : T -> option B) : list T -> nat -> option B :=
  fix at_index (arr : list T) (i : nat) {struct arr} : option B :=
    match arr, i with
    | [], _ => None
    | c :: _, O => k c
    | _ :: arr', S i' => at_index arr' i'
    end.

(** [arr[i - 1]]: [arr[-1]] is [undefined]. *)
Definition with_child_before {T B : Type} (k : nat -> T -> option B) (arr : list T) (i : nat)
    : option B :=
  match i with
  | O => None
  | S i0 => with_child (k i0) arr i0
  end.

(** Finds the Ancestor of the specified topic. *)
Definition isAncestorTopic (t : string) (n : node) : bool :=
  let nodeTopic := getTopic n in
  String.eqb t nodeTopic
  || startsWith t (nodeTopic ++ ".")
  || String.eqb nodeTopic EmptyString.

(** [ancestorSearch]: the reference of the node found, relative to [tree]. *)
Fixpoint ancestorSearch (getValue : node -> string) (value : string)
    (isAncestor : string -> node -> bool) (tree : node) {struct tree} : ref :=
  if String.eqb (getValue tree) value then []
  else
    let index := binaryIndexBy getValue value (children tree) in
    let descend (i : nat) (c : node) : option ref :=
      if isAncestor value c
      then Some (i :: ancestorSearch getValue value isAncestor c)
      else None in
    match with_child (descend index) (children tree) index with
    | Some found => found
    | None =>
        match with_child_before descend (children tree) index with
        | Some found => found
        | None => []
        end
    end.

Definition ancestorTopicSearch (t : string) (n : node) : ref :=
  ancestorSearch getTopic t isAncestorTopic n.

(** [findLineage]: the references of the nodes pushed on [path], from
    [tree] (which sits at [here]) downwards. *)
Fixpoint findLineage (getValue : node -> string) (isAncestor : string -> node -> bool)
    (value : string) (tree : node) (here : ref) {struct tree} : list ref :=
  if isAncestor value tree then
    let childIndex := binaryIndexBy getValue value (children tree) in
    let recurse (i : nat) (c : node) : option (list ref) :=
      Some (findLineage getValue isAncestor value c (here ++ [i])) in
    let exact (c : node) : option (list ref) :=
      if String.eqb (getValue c) value then recurse childIndex c else None in
    here ::
      match with_child exact (children tree) childIndex with
      | Some path => path
      | None =>
          match with_child_before recurse (children tree) childIndex with
          | Some path => path
          | None => []
          end
      end
  else [].

(** [descendents]: [reduce(appendDescendents, [node], node.children)]. *)
Fixpoint descendents (n : node) : list node :=
  fold_left (fun arr next => arr ++ descendents next) (children n) [n].

(** [addChild]: splices [newChild] into the children of the node at
    [tree]; the result is the new root and the reference of [newChild]. *)
Definition addChild (getValue : node -> string) (newChild : node) (root : node)
    (tree : ref) : node * ref :=
  match deref root tree with
  | Some t =>
      let index := binaryIndexBy getValue (getValue newChild) (children t) in
      (modify tree (fun t' => set_children t' (splice_in index newChild (children t'))) root,
       tree ++ [index])
  | None => (root, tree)
  end.

Definition addChildTopic (root : node) (tree : ref) (child : node) : node * ref :=
  addChild getTopic child root tree.

(** [addFamilyLine]: [reduce(addChildToTree, tree, line)]. *)
Definition addFamilyLine (addChildToTree : node -> ref -> node -> node * ref)
    (line : list node) (root : node) (tree : ref) : node * ref :=
  fold_left (fun acc child => addChildToTree (fst acc) (snd acc) child) line (root, tree).

(** [appendPrefixedTopic]: pushes the fully qualified name. *)
Definition appendPrefixedTopic (arr : list string) (t : string) : list string :=
  let lastElem := last arr EmptyString in
  let prefix := if String.eqb lastElem EmptyString then EmptyString
                else (lastElem ++ ".")%string in
  arr ++ [(prefix ++ t)%string].

(** [addTopicLine]: adds the generations from the ancestor to the topic and
    returns the reference of the node of the topic. *)
Definition addTopicLine (t : string) (root : node) (ancestor : ref) : node * ref :=
  match deref root ancestor with
  | Some a =>
      let ancestorTopic := topic a in
      let additionalTopics :=
        if negb (String.eqb ancestorTopic t) then
          fold_left appendPrefixedTopic
            (split "."%char (strip_leading_dot (substr (String.length ancestorTopic) t)))
            [ancestorTopic]
        else [] in
      addFamilyLine addChildTopic (map createNode (tl additionalTopics)) root ancestor
  | None => (root, ancestor)
  end.

(** [empty('persisted', node)] on every descendant of a node. *)
Fixpoint empty_persisted_descendents (n : node) : node :=
  {| topic := topic n; subscriptions := subscriptions n;
     children := map empty_persisted_descendents (children n);
     persisted := [] |}.

(** ** The resolver *)

(** The array a publication promise settles with.  [evaluateLatch] passes
    [resolver.rejectedValues] or [resolver.fulfilledValues] themselves, so a
    later [push] on the resolver shows through the settled promise; only
    the [concat] of the settlement latch is a fresh array. *)
Inductive settlement : Type :=
| TheFulfilledValues
| TheRejectedValues
| Fresh (values : list value).

(** The promise of [createResolver] with its three counters, and the
    [token] that [hierarchicalTopicDispatcher] attaches. *)
Record PublicationPromise : Type := mkPromise {
  fulfilled : float;
  rejected : float;
  pending : float;
  status : pstate settlement;
  token : option Token
}.

(** [resolver.i] is assigned by [subscriptionDispatcher] before it is read;
    [createResolver] leaves it out, and the model starts it at [-1]. *)
Record Resolver : Type := mkResolver {
  settled : bool;
  fulfilledValues : list value;
  rejectedValues : list value;
  promise : PublicationPromise;
  i : Z
}.

Definition createResolver : Resolver :=
  {| settled := false;
     fulfilledValues := [];
     rejectedValues := [];
     promise := {| fulfilled := 0; rejected := 0; pending := 0;
                   status := Pending; token := None |};
     i := (-1)%Z |}.

(** The array behind a settlement, read through the resolver. *)
Definition read_settlement (resolver : Resolver) (s : settlement) : list value :=
  match s with
  | TheFulfilledValues => fulfilledValues resolver
  | TheRejectedValues => rejectedValues resolver
  | Fresh values => values
  end.

(** The [fulfill] and [reject] capabilities of a promise act once. *)
Definition settle_promise (s : pstate settlement) (p : PublicationPromise)
    : PublicationPromise :=
  match status p with
  | Pending => {| fulfilled := fulfilled p; rejected := rejected p;
                  pending := pending p; status := s; token := token p |}
  | _ => p
  end.

Definition set_promise (resolver : Resolver) (p : PublicationPromise) : Resolver :=
  {| settled := settled resolver;
     fulfilledValues := fulfilledValues resolver;
     rejectedValues := rejectedValues resolver;
     promise := p;
     i := i resolver |}.

Definition set_i (resolver : Resolver) (n : Z) : Resolver :=
  {| settled := settled resolver;
     fulfilledValues := fulfilledValues resolver;
     rejectedValues := rejectedValues resolver;
     promise := promise resolver;
     i := n |}.

(** [resolver.settled = true; resolver.reject(...)] or [resolver.fulfill(...)]. *)
Definition settle_with (resolver : Resolver) (s : pstate settlement) : Resolver :=
  {| settled := true;
     fulfilledValues := fulfilledValues resolver;
     rejectedValues := rejectedValues resolver;
     promise := settle_promise s (promise resolver);
     i := i resolver |}.

(** The two conditions of [evaluateLatch], with the operators of the
    source: [x >= y] is [y <= x], and [===] on numbers is [eqb]. *)
Definition latch_rejects (settlementLatch : bool) (latch f p r : float) : bool :=
  let maxFulfilled := (f + p)%float in
  let total := (f + p + r)%float in
  (negb settlementLatch && (1 <=? latch)%float && (maxFulfilled <? latch)%float)
  || (negb settlementLatch && (latch <? 1)%float && (maxFulfilled / total <? latch)%float)
  || (settlementLatch && (1 <=? latch)%float && (total <? latch)%float)
  || (settlementLatch && (latch <? 1)%float && (total =? 0)%float).

Definition latch_fulfills (settlementLatch : bool) (latch f p r : float) : bool :=
  let nsettled := (f + r)%float in
  let total := (f + p + r)%float in
  (negb settlementLatch && (1 <=? latch)%float && (latch <=? f)%float)
  || (negb settlementLatch && (latch <? 1)%float && (latch <=? f / total)%float)
  || (settlementLatch && (1 <=? latch)%float && (latch <=? nsettled)%float)
  || (settlementLatch && (latch <? 1)%float && (latch <=? nsettled / total)%float).

(** [evaluateLatch]: the resolver after the evaluation. *)
Definition evaluateLatch (resolver : Resolver) (options : Options) : Resolver :=
  let p := promise resolver in
  if settled resolver then resolver
  else if latch_rejects (settlementLatch options) (latch options)
            (fulfilled p) (pending p) (rejected p)
  then settle_with resolver (Rejected TheRejectedValues)
  else if latch_fulfills (settlementLatch options) (latch options)
            (fulfilled p) (pending p) (rejected p)
  then
    if settlementLatch options
    then settle_with resolver
           (Fulfilled (Fresh (fulfilledValues resolver ++ rejectedValues resolver)))
    else settle_with resolver (Fulfilled TheFulfilledValues)
  else resolver.

(** ** The subscription invoker *)

(** [fulfill] is the resolve capability of the promise: given a plain
    value it fulfils the promise with it, given a thenable it makes the
    promise follow the thenable. *)
Definition resolve (succ : returned) : pstate value :=
  match succ with
  | Plain v => Fulfilled v
  | Thenable st => st
  end.

(** The callback handed to a subscriber of arity three:
    [function callback (err, succ) { return err ? reject(err) : fulfill(succ); }]
    acting on the promise under construction.  The two capabilities act
    once: [None] is the promise they have not been used on, and [Some st]
    the promise whose fate is [st], be it settled or following a thenable
    that is still pending. *)
Definition callback (err : value) (succ : returned) (p : option (pstate value))
    : option (pstate value) :=
  match p with
  | None => Some (if truthy err then Rejected err else resolve succ)
  | Some _ => p
  end.

(** A call of a subscriber function and the promise it resulted in. *)
Record invocation : Type := mkInvocation {
  inv_subscription : subscription;
  inv_this : value;
  inv_data : value;
  inv_topic : value;
  inv_done : bool;
  inv_future : pstate value
}.

(** [new Promise(function (fulfill, reject) { fn.call(context, data, topic,
    callback) })]: the calls of [callback] act in order, and an error thrown
    by the executor rejects a promise that is still pending. *)
Definition promise_of_executor (run : fn_run) : pstate value :=
  let after := fold_left (fun p c => callback (fst c) (snd c) p) (done_calls run) None in
  match after, fn_completion run with
  | Some st, _ => st
  | None, Throw e => Rejected e
  | None, Return _ => Pending
  end.

Definition subscriptionInvoker (s : subscription) (d : value) (t : value) : invocation :=
  if Nat.eqb (fn_length (fn s)) 3 then
    {| inv_subscription := s; inv_this := context s; inv_data := d; inv_topic := t;
       inv_done := true;
       inv_future := promise_of_executor (call (fn s) (context s) d t true) |}
  else
    {| inv_subscription := s; inv_this := context s; inv_data := d; inv_topic := t;
       inv_done := false;
       inv_future :=
         match fn_completion (call (fn s) (context s) d t false) with
         | Throw e => Rejected e
         | Return (Thenable st) => st
         | Return (Plain v) => Fulfilled v
         end |}.

(** ** The subscription dispatcher *)

Definition add_pending (resolver : Resolver) (d : float) : Resolver :=
  let p := promise resolver in
  set_promise resolver
    {| fulfilled := fulfilled p; rejected := rejected p;
       pending := (pending p + d)%float; status := status p; token := token p |}.

(** What a dispatch step leaves behind: the resolver, the invocations it
    launched in launch order, and the error it raised, if any. *)
Record dispatched : Type := mkDispatched {
  d_resolver : Resolver;
  d_launched : list invocation;
  d_raised : option exn
}.

(** Which of the two closures of [resolveUse] is called. *)
Inductive use : Type :=
| UseFulfilled
| UseRejected.

Definition push_value (u : use) (v : value) (resolver : Resolver) : Resolver :=
  let p := promise resolver in
  match u with
  | UseFulfilled =>
      {| settled := settled resolver;
         fulfilledValues := fulfilledValues resolver ++ [v];
         rejectedValues := rejectedValues resolver;
         promise := {| fulfilled := (fulfilled p + 1)%float; rejected := rejected p;
                       pending := (pending p - 1)%float; status := status p;
                       token := token p |};
         i := i resolver |}
  | UseRejected =>
      {| settled := settled resolver;
         fulfilledValues := fulfilledValues resolver;
         rejectedValues := rejectedValues resolver ++ [v];
         promise := {| fulfilled := fulfilled p; rejected := (rejected p + 1)%float;
                       pending := (pending p - 1)%float; status := status p;
                       token := token p |};
         i := i resolver |}
  end.

(** The body of [resolveUseClosure], on the resolver it closes over.
    [dispatch] is [resumeSubscriptionDispatcher] with the arguments that
    [resolver.resume] holds, as the engine can call it from here: [None]
    when its call stack is full, in which case the call raises. *)
Definition resolveUse (dispatch : option (Resolver -> dispatched)) (options : Options)
    (u : use) (v : value) (resolver : Resolver) : dispatched :=
  if settled resolver && negb (updateAfterSettlement options)
  then mkDispatched resolver [] None
  else
    let resolver1 := push_value u v resolver in
    if (0 <=? i resolver1)%Z then
      match dispatch with
      | Some resume => resume resolver1
      | None => mkDispatched resolver1 [] (Some RangeError)
      end
    else mkDispatched (evaluateLatch resolver1 options) [] None.

(** What [.then(fulfill, reject)] does before it returns, on the object
    that [subscriptionInvoker] hands back for [s]: a promise calls back on
    a later turn, and so does a thenable of the subscriber's own unless it
    is [eager]; an eager thenable that has an outcome calls [fulfill] or
    [reject] with it at once. *)
Definition at_once (s : subscription) (d t : value) : option (use * value) :=
  if Nat.eqb (fn_length (fn s)) 3 then None
  else
    let run := call (fn s) (context s) d t false in
    match fn_completion run with
    | Return (Thenable (Fulfilled v)) => if eager run then Some (UseFulfilled, v) else None
    | Return (Thenable (Rejected e)) => if eager run then Some (UseRejected, e) else None
    | _ => None
    end.

(** The loop of [resumeSubscriptionDispatcher].  [resolver.i] goes down by
    one per iteration, so [resolver.i + 1] iterations are enough.  An entry
    of [subscriptions] is [None] when [mergeBy] emitted [SYMBOL_NOTHING]:
    it has no [suspended] and no [fn], and [subscriptionInvoker] raises on
    [fn.length] after [pending] was incremented.

    [.then(fulfill, reject)] is called in the body of the loop, before
    [resolver.i -= 1].  When it calls back at once, [resolveUseClosure]
    runs inside the loop: it dispatches again from the same index through
    [dispatch], and the loop goes on from the resolver it leaves behind.
    An error of that call leaves the loop. *)
Fixpoint resume_with (dispatch : option (Resolver -> dispatched)) (fuel : nat)
    (t d : value) (options : Options) (subs : list (option subscription))
    (resolver : Resolver) : dispatched :=
  match fuel with
  | O => mkDispatched resolver [] None
  | S fuel' =>
      if (0 <=? i resolver)%Z && (pending (promise resolver) <? semaphor options)%float then
        match nth_error subs (Z.to_nat (i resolver)) with
        | Some (Some s) =>
            if negb (suspended s) then
              let resolver1 := add_pending resolver 1 in
              let inv := subscriptionInvoker s d t in
              match at_once s d t with
              | None =>
                  let rest := resume_with dispatch fuel' t d options subs
                                (set_i resolver1 (i resolver1 - 1)) in
                  mkDispatched (d_resolver rest) (inv :: d_launched rest) (d_raised rest)
              | Some (u, v) =>
                  let called := resolveUse dispatch options u v resolver1 in
                  match d_raised called with
                  | Some e =>
                      mkDispatched (d_resolver called) (inv :: d_launched called) (Some e)
                  | None =>
                      let resolver2 := d_resolver called in
                      let rest := resume_with dispatch fuel' t d options subs
                                    (set_i resolver2 (i resolver2 - 1)) in
                      mkDispatched (d_resolver rest)
                        (inv :: d_launched called ++ d_launched rest) (d_raised rest)
                  end
              end
            else
              resume_with dispatch fuel' t d options subs (set_i resolver (i resolver - 1))
        | Some None => mkDispatched (add_pending resolver 1) [] (Some TypeError)
        | None => mkDispatched resolver [] (Some TypeError)
        end
      else mkDispatched resolver [] None
  end.

(** The loop on an engine whose call stack has room for [stack] dispatches
    nested in this one. *)
Fixpoint resume_loop (stack : nat) (fuel : nat) (t d : value) (options : Options)
    (subs : list (option subscription)) (resolver : Resolver) {struct stack}
    : dispatched :=
  resume_with
    match stack with
    | O => None
    | S stack' =>
        Some (fun r => resume_loop stack' (Z.to_nat (i r + 1)) t d options subs r)
    end
    fuel t d options subs resolver.

Definition resumeSubscriptionDispatcher (stack : nat) (t d : value) (options : Options)
    (subs : list (option subscription)) (resolver : Resolver) : dispatched :=
  resume_loop stack (Z.to_nat (i resolver + 1)) t d options subs resolver.

(** A publication in flight: the resolver with what [resolver.resume] and
    the closures [fulfill] and [reject] captured, and the invocations
    launched so far, oldest first.  [pub_subscriptions] is what the array
    that [resolver.resume.subscriptions] refers to holds at present. *)
Record Publication : Type := mkPublication {
  pub_resolver : Resolver;
  pub_topic : value;
  pub_data : value;
  pub_options : Options;
  pub_subscriptions : list (option subscription);
  pub_launched : list invocation
}.

(** [subscriptionDispatcher]: the first dispatch and latch evaluation. *)
Definition subscriptionDispatcher (stack : nat) (t d : value) (options : Options)
    (subs : list (option subscription)) : outcome Publication :=
  let resolver := set_i createResolver (Z.of_nat (List.length subs) - 1) in
  let r := resumeSubscriptionDispatcher stack t d options subs resolver in
  match d_raised r with
  | Some e => Raised e
  | None =>
      Returned {| pub_resolver := evaluateLatch (d_resolver r) options;
                  pub_topic := t; pub_data := d; pub_options := options;
                  pub_subscriptions := subs;
                  pub_launched := d_launched r |}
  end.

Definition set_resolver (pub : Publication) (resolver : Resolver)
    (launched : list invocation) : Publication :=
  {| pub_resolver := resolver; pub_topic := pub_topic pub; pub_data := pub_data pub;
     pub_options := pub_options pub; pub_subscriptions := pub_subscriptions pub;
     pub_launched := pub_launched pub ++ launched |}.

(** [resolveUseClosure(value)]: one outcome of a subscriber reaches the
    resolver on a later turn, on an engine whose call stack has room for
    [stack] nested dispatches.  The second component is the error the
    closure raises. *)
Definition resolveUseClosure (stack : nat) (u : use) (pub : Publication) (v : value)
    : Publication * option exn :=
  let resolver := pub_resolver pub in
  let options := pub_options pub in
  if settled resolver && negb (updateAfterSettlement options) then (pub, None)
  else
    let resolver1 := push_value u v resolver in
    if (0 <=? i resolver1)%Z then
      let r := resumeSubscriptionDispatcher stack (pub_topic pub) (pub_data pub) options
                 (pub_subscriptions pub) resolver1 in
      (set_resolver pub (d_resolver r) (d_launched r), d_raised r)
    else (set_resolver pub (evaluateLatch resolver1 options) [], None).

(** A sequence of outcomes reaching the resolver, in completion order. *)
Definition deliver (stack : nat) (pub : Publication) (e : use * value) : Publication :=
  fst (resolveUseClosure stack (fst e) pub (snd e)).

Definition deliver_all (stack : nat) (pub : Publication) (events : list (use * value))
    : Publication :=
  fold_left (deliver stack) events pub.

(** ** Input validation *)

Definition typeof (v : value) : string :=
  match v with
  | VUndefined => "undefined"
  | VNull => "object"
  | VBool _ => "boolean"
  | VNum _ => "number"
  | VStr _ => "string"
  end.

(** [assert]: throws an error if [value !== expected]. *)
Definition assert (v expected method type identifier : string) : outcome unit :=
  if negb (String.eqb v expected)
  then Raised (Error (method ++ " only accepts " ++ type ++ " as " ++ identifier))
  else Returned tt.

(** ** Private Arbiter functions *)

(** [+options.priority || 0]. *)
Definition priority_of (p : option num) : num :=
  match p with
  | None => Fin 0
  | Some NaN => Fin 0
  | Some (Fin z) => if Z.eqb z 0 then Fin 0 else Fin z
  | Some n => n
  end.

(** [createSubscription]; the id is the value [state.id()] returned. *)
Definition createSubscription (new_id : Z) (f : subscriber) (options : Options)
    (ctx : value) : subscription :=
  {| id := new_id;
     fn := match f with SFun g => g | SValue _ => noop end;
     suspended := false;
     priority := priority_of (opt_priority options);
     context := if truthy ctx then ctx else VNull |}.

(** The nodes behind the references of a lineage. *)
Definition nodes_of (root : node) (lineage : list ref) : list node :=
  flat_map (fun r => match deref root r with
                     | Some n => [n]
                     | None => []
                     end) lineage.

(** The [subscriptions] of [hierarchicalTopicDispatcher], given the
    lineage: the list of the last node when [preventBubble] is set and its
    topic is the published one, and otherwise the merge across the lineage.
    [lineage[lineage.length - 1]] is [undefined] on an empty lineage. *)
Definition dispatch_list (root : node) (t : string) (options : Options)
    (lineage : list ref) : outcome (list (option subscription)) :=
  if preventBubble options then
    match last (map (deref root) lineage) None with
    | Some topicNode =>
        Returned (if String.eqb (topic topicNode) t
                  then map Some (subscriptions topicNode)
                  else [])
    | None => Raised TypeError
    end
  else
    match mergeBy getFingerArrayPriority
            (map getSubscriptions (nodes_of root lineage)) with
    | Some merged => Returned merged
    | None => Raised TypeError
    end.

(** [hierarchicalTopicDispatcher]: the broker after the call and the
    promise returned. *)
Definition hierarchicalTopicDispatcher (stack : nat) (state : Arbiter) (t : string)
    (d : value) (options : Options) : Arbiter * outcome Publication :=
  let lineage := findLineage getTopic isAncestorTopic t (_topics state) [] in
  match dispatch_list (_topics state) t options lineage with
  | Raised e => (state, Raised e)
  | Returned subs =>
      match subscriptionDispatcher stack (VStr t) d options subs with
      | Raised e => (state, Raised e)
      | Returned pub =>
          if persist options then
            let new_id := next_id state in
            match last (map Some lineage) None with
            | None =>
                ({| _topics := _topics state; options := state_options state;
                    next_id := (new_id + 1)%Z |}, Raised TypeError)
            | Some topicNode =>
                let added := addTopicLine t (_topics state) topicNode in
                let message := {| p_topic := t; data := d; order := new_id |} in
                let root' := modify (snd added)
                               (fun n => set_persisted n (persisted n ++ [message]))
                               (fst added) in
                let resolver := pub_resolver pub in
                let p := promise resolver in
                let p' := {| fulfilled := fulfilled p; rejected := rejected p;
                             pending := pending p; status := status p;
                             token := Some {| tok_topic := t; tok_id := new_id;
                                              tok_priority := None |} |} in
                ({| _topics := root'; options := state_options state;
                    next_id := (new_id + 1)%Z |},
                 Returned {| pub_resolver := set_promise resolver p';
                             pub_topic := pub_topic pub; pub_data := pub_data pub;
                             pub_options := pub_options pub;
                             pub_subscriptions := pub_subscriptions pub;
                             pub_launched := pub_launched pub |})
            end
          else (state, Returned pub)
      end
  end.

(** ** Public functions *)

(** The replay loop of [subscribe]:
    [!subscription.suspended && subscription.call(subscription.context,
    persisted.data, persisted.topic)], where [subscription] is the second
    argument of [subscribe] as the caller passed it. *)
Record delivery : Type := mkDelivery {
  dl_this : value;
  dl_data : value;
  dl_topic : value
}.

Fixpoint replay (subscription : subscriber) (messages : list (option persistedMessage))
    : list delivery * option exn :=
  match messages with
  | [] => ([], None)
  | m :: rest =>
      let d := match m with Some p => data p | None => VUndefined end in
      let t := match m with Some p => VStr (p_topic p) | None => VUndefined end in
      match subscription with
      | SValue VUndefined => ([], Some TypeError)
      | SValue VNull => ([], Some TypeError)
      | SValue _ => ([], Some TypeError)
      | SFun f =>
          if negb (truthy (fn_suspended f)) then
            let dl := {| dl_this := fn_context f; dl_data := d; dl_topic := t |} in
            match fn_completion (call f (fn_context f) d t false) with
            | Throw e => ([dl], Some (Thrown e))
            | Return _ =>
                let r := replay subscription rest in
                (dl :: fst r, snd r)
            end
          else replay subscription rest
      end
  end.

Record SubscribeResult : Type := mkSubscribeResult {
  sr_state : Arbiter;
  sr_outcome : outcome Token;
  sr_delivered : list delivery
}.

Definition subscribe (state : Arbiter) (t : value) (subscription : subscriber)
    (o : Overrides) (ctx : value) : SubscribeResult :=
  match assert (typeof t) "string" "Arbiter.subscribe" "strings" "topics", t with
  | Raised e, _ => mkSubscribeResult state (Raised e) []
  | Returned _, VStr topicString =>
      let options := merge (state_options state) o in
      let added := addTopicLine topicString (_topics state)
                     (ancestorTopicSearch topicString (_topics state)) in
      let ancestor := snd added in
      let new_id := next_id state in
      let item := createSubscription new_id subscription options ctx in
      let root' := modify ancestor
                     (fun n => set_subscriptions n (insert getPriority item (subscriptions n)))
                     (fst added) in
      let state' := {| _topics := root'; options := state_options state;
                       next_id := (new_id + 1)%Z |} in
      let subscriptionToken := {| tok_topic := topicString; tok_id := id item;
                                  tok_priority := Some (priority item) |} in
      if negb (ignorePersisted options) then
        match deref root' ancestor with
        | None => mkSubscribeResult state' (Raised TypeError) []
        | Some ancestorNode =>
            let persistedDescendents := map getPersisted (descendents ancestorNode) in
            match mergeBy getFingerArrayOrder persistedDescendents with
            | None => mkSubscribeResult state' (Raised TypeError) []
            | Some persistedMessages =>
                match replay subscription persistedMessages with
                | (delivered, Some e) => mkSubscribeResult state' (Raised e) delivered
                | (delivered, None) =>
                    mkSubscribeResult state' (Returned subscriptionToken) delivered
                end
            end
        end
      else mkSubscribeResult state' (Returned subscriptionToken) []
  | Returned _, _ => mkSubscribeResult state (Raised TypeError) []
  end.

(** What [publish] hands back to its caller. *)
Inductive published : Type :=
| ThePromise (pub : Publication)
| TheUndefined.

(** A call of [hierarchicalTopicDispatcher] deferred by [async]. *)
Record Task : Type := mkTask {
  task_topic : string;
  task_data : value;
  task_options : Options
}.

Record PublishResult : Type := mkPublishResult {
  pr_state : Arbiter;
  pr_outcome : outcome published;
  pr_scheduled : option Task
}.

(** [async(f, args)]: [new Promise(invoke).then(...)] schedules the call
    of [f]; the function has no [return] statement. *)
Definition async (t : Task) : published * option Task :=
  (TheUndefined, Some t).

Definition publish (stack : nat) (state : Arbiter) (t : value) (d : value)
    (o : Overrides) : PublishResult :=
  match assert (typeof t) "string" "Arbiter.publish" "strings" "topics", t with
  | Raised e, _ => mkPublishResult state (Raised e) None
  | Returned _, VStr topicString =>
      let options := merge (state_options state) o in
      if sync options then
        let r := hierarchicalTopicDispatcher stack state topicString d options in
        match snd r with
        | Returned pub => mkPublishResult (fst r) (Returned (ThePromise pub)) None
        | Raised e => mkPublishResult (fst r) (Raised e) None
        end
      else
        let a := async {| task_topic := topicString; task_data := d;
                          task_options := options |} in
        mkPublishResult state (Returned (fst a)) (snd a)
  | Returned _, _ => mkPublishResult state (Raised TypeError) None
  end.

(** The deferred call, run on a later turn against the broker as it is
    then. *)
Definition run_task (stack : nat) (state : Arbiter) (t : Task)
    : Arbiter * outcome Publication :=
  hierarchicalTopicDispatcher stack state (task_topic t) (task_data t) (task_options t).

(** The argument of [removePersisted]: a topic or a token. *)
Inductive removal : Type :=
| ByTopic (t : string)
| ByToken (tk : Token).

(** [removePersisted(topics, token)]: the tree after the call and the
    boolean returned. *)
Definition removePersisted (topics : node) (tk : removal) : node * bool :=
  match tk with
  | ByTopic t =>
      let r := ancestorTopicSearch t topics in
      match deref topics r with
      | Some n =>
          if String.eqb (topic n) t
          then (modify r empty_persisted_descendents topics, true)
          else (topics, false)
      | None => (topics, false)
      end
  | ByToken tok =>
      let tokenTopic := tok_topic tok in
      let r := ancestorTopicSearch tokenTopic topics in
      match deref topics r with
      | None => (topics, false)
      | Some n =>
          if negb (String.eqb (topic n) tokenTopic) then (topics, false)
          else
            let wanted := tok_id tok in
            let index := binaryIndexBy getId_persisted (Num (Fin wanted)) (persisted n) in
            match nth_error (persisted n) index with
            | Some persistedMessage =>
                if Z.eqb (order persistedMessage) wanted
                then (modify r (fun n' => set_persisted n' (splice_out index (persisted n')))
                        topics, true)
                else (topics, false)
            | None => (topics, false)
            end
      end
  end.

(** [create]: a fresh broker. *)
Definition create : Arbiter :=
  {| _topics := createNode "";
     options := {| persist := false;
                   sync := false;
                   preventBubble := false;
                   latch := 0x1.fffffffffffffp-1%float;
                   settlementLatch := false;
                   semaphor := infinity;
                   updateAfterSettlement := false;
                   opt_priority := None;
                   ignorePersisted := false |};
     next_id := first_id |}.

(** ** Suspending and removing subscriptions *)

Definition set_suspended (s : subscription) (b : bool) : subscription :=
  {| id := id s; fn := fn s; suspended := b; priority := priority s;
     context := context s |}.

(** [suspendNode] and [unsuspendNode] write the [suspended] property of a
    subscription. *)
Definition suspendNode (s : subscription) : subscription := set_suspended s true.
Definition unsuspendNode (s : subscription) : subscription := set_suspended s false.

(** [suspendTopic(prop, node)] and [unsuspendTopic(prop, node)]: the node
    after [map(suspendNode, node[prop])].  The source only passes
    ['subscriptions'] for [prop]. *)
Definition suspendTopic (n : node) : node :=
  set_subscriptions n (map suspendNode (subscriptions n)).
Definition unsuspendTopic (n : node) : node :=
  set_subscriptions n (map unsuspendNode (subscriptions n)).

(** The two properties of a node that [empty] is called with. *)
Inductive property : Type :=
| TheSubscriptions
| ThePersisted.

(** [empty(property, node)]: [node[property].length = 0]. *)
Definition empty (p : property) (n : node) : node :=
  match p with
  | TheSubscriptions => set_subscriptions n []
  | ThePersisted => set_persisted n []
  end.

(** [curryMap(property, f, descendents(node))] for an [f] that writes to
    the subscriptions or the persisted messages of the node it is given:
    the subtree after the call. *)
Fixpoint on_descendents (f : node -> node) (n : node) : node :=
  {| topic := topic (f n);
     subscriptions := subscriptions (f n);
     children := map (on_descendents f) (children n);
     persisted := persisted (f n) |}.

(** [applyTopicDescendents]: the tree after the call when the node of the
    topic was found, [None] when the function returned [undefined]. *)
Definition applyTopicDescendents (f : node -> node) (t : string) (topics : node)
    : option node :=
  let r := ancestorTopicSearch t topics in
  match deref topics r with
  | Some n =>
      if String.eqb (topic n) t then Some (modify r (on_descendents f) topics)
      else None
  | None => None
  end.

(** [a === b] on property reads. *)
Definition strict_eqb (a b : operand) : bool :=
  match a, b with
  | Undef, Undef => true
  | Num x, Num y => num_eqb x y
  | _, _ => false
  end.

(** [arr[i]] for a JavaScript index: [undefined] below 0 and from
    [arr.length] on. *)
Definition item_at {T : Type} (arr : list T) (i : Z) : option T :=
  if (i <? 0)%Z then None else nth_error arr (Z.to_nat i).

Section SearchAround.

Context {A : Type}.
Variables getValue getConditionValue : A -> operand.
Variables value conditionValue : operand.

(** The condition of both loops of [searchAround]:
    [getValue(elm) !== value || getConditionValue(elm) !== conditionValue]. *)
Definition mismatch (elm : A) : bool :=
  negb (strict_eqb (getValue elm) value)
  || negb (strict_eqb (getConditionValue elm) conditionValue).

(** [while (elm && mismatch(elm)) { elm = arr[i += step]; }] with
    [elm = arr[i]] on entry: the index on exit.  The index moves by one per
    iteration and leaves the array after at most [arr.length] steps. *)
Fixpoint scan (fuel : nat) (step : Z) (arr : list A) (i : Z) : Z :=
  match fuel with
  | O => i
  | S fuel' =>
      match item_at arr i with
      | Some elm => if mismatch elm then scan fuel' step arr (i + step)%Z else i
      | None => i
      end
  end.

(** [!elm || getValue(elm) !== value] for [elm = arr[i]]. *)
Definition missed (arr : list A) (i : Z) : bool :=
  match item_at arr i with
  | Some elm => negb (strict_eqb (getValue elm) value)
  | None => true
  end.

(** [searchAround]: an index or [-1]. *)
Definition searchAround (i : Z) (arr : list A) : Z :=
  let start := i in
  let i1 := scan (S (List.length arr)) (-1) arr i in
  let i2 := if missed arr i1
            then Z.min (Z.of_nat (List.length arr)) (start + 1)
            else i1 in
  let i3 := scan (S (List.length arr)) 1 arr i2 in
  if missed arr i3 then (-1)%Z else i3.

End SearchAround.

(** [getPriority] and [token.priority] as property reads: a token that a
    persisted publish attached to its promise has no [priority]. *)
Definition getPriority_read (s : subscription) : operand := Num (getPriority s).
Definition priority_read (tk : Token) : operand :=
  match tok_priority tk with
  | Some p => Num p
  | None => Undef
  end.

(** The index that [removeSubscriber] and [unsuspendSubscriber] compute for
    a token in the subscriptions of a node. *)
Definition token_index (tk : Token) (subs : list subscription) : Z :=
  searchAround getId getPriority_read (Num (Fin (tok_id tk))) (priority_read tk)
    (Z.of_nat (binaryIndexBy getPriority_read (priority_read tk) subs)) subs.

(** [removeSubscriber(args, token)] with [args = {topics, suspend}]: the
    tree after the call and the boolean returned. *)
Definition removeSubscriber (topics : node) (suspendSubs : bool) (tk : removal)
    : node * bool :=
  match tk with
  | ByTopic t =>
      match applyTopicDescendents
              (if suspendSubs then suspendTopic else empty TheSubscriptions) t topics with
      | Some topics' => (topics', true)
      | None => (topics, false)
      end
  | ByToken tok =>
      let r := ancestorTopicSearch (tok_topic tok) topics in
      match deref topics r with
      | None => (topics, false)
      | Some n =>
          if negb (String.eqb (topic n) (tok_topic tok)) then (topics, false)
          else
            let i := token_index tok (subscriptions n) in
            if (i =? -1)%Z then (topics, false)
            else if suspendSubs then
              (modify r (fun n' => set_subscriptions n'
                                     (update_nth (Z.to_nat i) suspendNode (subscriptions n')))
                 topics, true)
            else
              (modify r (fun n' => set_subscriptions n'
                                     (splice_out (Z.to_nat i) (subscriptions n')))
                 topics, true)
      end
  end.

(** [unsuspendSubscriber(topic, token)]. *)
Definition unsuspendSubscriber (topics : node) (tk : removal) : node * bool :=
  match tk with
  | ByTopic t =>
      match applyTopicDescendents unsuspendTopic t topics with
      | Some topics' => (topics', true)
      | None => (topics, false)
      end
  | ByToken tok =>
      let r := ancestorTopicSearch (tok_topic tok) topics in
      match deref topics r with
      | None => (topics, false)
      | Some n =>
          if negb (String.eqb (topic n) (tok_topic tok)) then (topics, false)
          else
            let i := token_index tok (subscriptions n) in
            if (i =? -1)%Z then (topics, false)
            else
              (modify r (fun n' => set_subscriptions n'
                                     (update_nth (Z.to_nat i) unsuspendNode (subscriptions n')))
                 topics, true)
      end
  end.

(** ** The dispatchers of the public functions *)

(** The white space of [\s] among the code units that a [string] holds:
    tab, line feed, vertical tab, form feed, carriage return, space and
    no-break space. *)
Definition is_space (c : ascii) : bool :=
  let n := nat_of_ascii c in
  (Nat.leb 9 n && Nat.leb n 13) || Nat.eqb n 32 || Nat.eqb n 160.

(** [s.split(/,\s*/)]: [skipping] is set while the white space after a
    comma is consumed. *)
Fixpoint split_list (skipping : bool) (s : string) : list string :=
  match s with
  | EmptyString => [EmptyString]
  | String c rest =>
      if skipping && is_space c then split_list true rest
      else if Ascii.eqb c ","%char then EmptyString :: split_list true rest
      else match split_list false rest with
           | [] => [String c EmptyString]
           | w :: ws => String c w :: ws
           end
  end.

Definition split_topics (s : string) : list string := split_list false s.

(** The [tokens] argument of [unsubscribe], [resubscribe] and
    [removePersisted]: a string, a token, or a non-empty array of topics
    and tokens. *)
Inductive tokens : Type :=
| Expression (s : string)
| OneToken (tk : Token)
| Several (first : removal) (rest : list removal).

(** [typeof tokens === 'string' ? tokens.split(/,\s*/) : tokens] followed by
    [!tokens.length ? [tokens] : tokens]. *)
Definition token_list (tks : tokens) : list removal :=
  match tks with
  | Expression s => map ByTopic (split_topics s)
  | OneToken tk => [ByToken tk]
  | Several first rest => first :: rest
  end.

(** [curryMap(args, f, arr)] for an [f] that writes to the tree it reaches
    through [args]: the tree is threaded through the calls. *)
Fixpoint curryMap {St T B : Type} (f : St -> T -> St * B) (st : St) (arr : list T)
    : St * list B :=
  match arr with
  | [] => (st, [])
  | x :: rest =>
      let r := f st x in
      let rs := curryMap f (fst r) rest in
      (fst rs, snd r :: snd rs)
  end.

(** [result.length === 1 ? result[0] : result]. *)
Inductive results (B : Type) : Type :=
| Single (b : B)
| Multiple (l : list B).

Arguments Single {B} b.
Arguments Multiple {B} l.

Definition unwrap {B : Type} (result : list B) : results B :=
  match result with
  | [b] => Single b
  | _ => Multiple result
  end.

Definition unsubscribe (state : Arbiter) (tks : tokens) (suspend : bool)
    : Arbiter * results bool :=
  let r := curryMap (fun topics tk => removeSubscriber topics suspend tk)
             (_topics state) (token_list tks) in
  ({| _topics := fst r; options := state_options state; next_id := next_id state |},
   unwrap (snd r)).

Definition resubscribe (state : Arbiter) (tks : tokens) : Arbiter * results bool :=
  let r := curryMap unsuspendSubscriber (_topics state) (token_list tks) in
  ({| _topics := fst r; options := state_options state; next_id := next_id state |},
   unwrap (snd r)).



(** The [topic] argument of the public [subscribe]: a string, a non-empty
    array, or another primitive value. *)
Inductive topics_argument : Type :=
| TopicExpression (s : string)
| TopicArray (first : value) (rest : list value)
| TopicValue (v : value).

(** [topic = typeof topic === 'string' ? topic.split(/,\s*/) : topic;
    topic = topic && topic.length ? topic : [topic]]. *)
Definition topic_list (t : topics_argument) : list value :=
  match t with
  | TopicExpression s => map VStr (split_topics s)
  | TopicArray first rest => first :: rest
  | TopicValue v => [v]
  end.

(** The loop of [curryMap] over [subscribeTopicApplier]: an exception of
    one [subscribe] ends the loop, and what the earlier calls did stays. *)
Fixpoint subscribe_each (state : Arbiter) (ts : list value) (subscription : subscriber)
    (o : Overrides) (ctx : value) : Arbiter * outcome (list Token) * list delivery :=
  match ts with
  | [] => (state, Returned [], [])
  | t :: rest =>
      let r := subscribe state t subscription o ctx in
      match sr_outcome r with
      | Raised e => (sr_state r, Raised e, sr_delivered r)
      | Returned tk =>
          match subscribe_each (sr_state r) rest subscription o ctx with
          | (state', Returned tks, delivered) =>
              (state', Returned (tk :: tks), sr_delivered r ++ delivered)
          | (state', Raised e, delivered) =>
              (state', Raised e, sr_delivered r ++ delivered)
          end
      end
  end.

Definition subscribeDispatcher (state : Arbiter) (t : topics_argument)
    (subscription : subscriber) (o : Overrides) (ctx : value)
    : Arbiter * outcome (results Token) * list delivery :=
  match subscribe_each state (topic_list t) subscription o ctx with
  | (state', Returned tks, delivered) => (state', Returned (unwrap tks), delivered)
  | (state', Raised e, delivered) => (state', Raised e, delivered)
  end.

(** ** A publication in flight and the calls made meanwhile *)

(** The array that [resolver.resume.subscriptions] refers to.  Under
    [preventBubble] it is the array of the node of the published topic
    itself, which later calls of [subscribe] and [unsubscribe] write to;
    otherwise it is a fresh array, empty or made by [mergeBy], which no
    call writes to.  In both cases its elements are the subscription
    objects of the tree, whose [suspended] flag later calls may set. *)
Inductive held : Type :=
| TheArrayOf (t : string)
| AFreshArray.

Definition dispatch_held (root : node) (t : string) (options : Options)
    (lineage : list ref) : held :=
  if preventBubble options then
    match last (map (deref root) lineage) None with
    | Some topicNode =>
        if String.eqb (topic topicNode) t then TheArrayOf t else AFreshArray
    | None => AFreshArray
    end
  else AFreshArray.

(** A publication in flight, with the broker as it is at present. *)
Record flight : Type := mkFlight {
  fl_state : Arbiter;
  fl_held : held;
  fl_publication : Publication
}.

(** A dispatch that returned its promise. *)
Definition take_off (stack : nat) (state : Arbiter) (t : string) (d : value)
    (options : Options) : outcome flight :=
  let r := hierarchicalTopicDispatcher stack state t d options in
  match snd r with
  | Returned pub =>
      Returned {| fl_state := fst r;
                  fl_held := dispatch_held (_topics state) t options
                               (findLineage getTopic isAncestorTopic t (_topics state) []);
                  fl_publication := pub |}
  | Raised e => Raised e
  end.

(** The calls of the public interface that write to subscriptions. *)
Inductive request : Type :=
| Subscribe (t : topics_argument) (f : subscriber) (o : Overrides) (ctx : value)
| Unsubscribe (tks : tokens) (suspend : bool)
| Resubscribe (tks : tokens).

Definition serve (state : Arbiter) (r : request) : Arbiter :=
  match r with
  | Subscribe t f o ctx => fst (fst (subscribeDispatcher state t f o ctx))
  | Unsubscribe tks suspend => fst (unsubscribe state tks suspend)
  | Resubscribe tks => fst (resubscribe state tks)
  end.

(** The subscription object with the id [k], if the tree still holds it:
    the generator hands out every id once. *)
Definition find_subscription (root : node) (k : Z) : option subscription :=
  find (fun s => Z.eqb (id s) k) (flat_map subscriptions (descendents root)).

(** An element of a fresh array after a call: the object as the tree has
    it now, or as it was when the call took it out of the tree. *)
Definition refresh (root : node) (e : option subscription) : option subscription :=
  match e with
  | Some s =>
      match find_subscription root (id s) with
      | Some s' => Some s'
      | None => Some s
      end
  | None => None
  end.

(** What the held array reads as after a call that left the tree as
    [root]: the node of a topic is the one that [ancestorTopicSearch]
    finds, as no two nodes carry the same topic. *)
Definition reread (h : held) (root : node) (subs : list (option subscription))
    : list (option subscription) :=
  match h with
  | TheArrayOf t =>
      match deref root (ancestorTopicSearch t root) with
      | Some n => if String.eqb (topic n) t then map Some (subscriptions n) else subs
      | None => subs
      end
  | AFreshArray => map (refresh root) subs
  end.

Definition hold (pub : Publication) (subs : list (option subscription)) : Publication :=
  {| pub_resolver := pub_resolver pub; pub_topic := pub_topic pub;
     pub_data := pub_data pub; pub_options := pub_options pub;
     pub_subscriptions := subs; pub_launched := pub_launched pub |}.

(** What happens to a publication in flight: an outcome of a subscriber
    reaches its resolver, or a call writes to the subscriptions. *)
Inductive step : Type :=
| Outcome (u : use) (v : value)
| Call (r : request).

Definition follow (stack : nat) (f : flight) (s : step) : flight :=
  match s with
  | Outcome u v =>
      {| fl_state := fl_state f; fl_held := fl_held f;
         fl_publication := fst (resolveUseClosure stack u (fl_publication f) v) |}
  | Call r =>
      let state' := serve (fl_state f) r in
      {| fl_state := state'; fl_held := fl_held f;
         fl_publication :=
           hold (fl_publication f)
             (reread (fl_held f) (_topics state')
                (pub_subscriptions (fl_publication f))) |}
  end.

Definition follow_all (stack : nat) (f : flight) (steps : list step) : flight :=
  fold_left (follow stack) steps f.



(** ** Example brokers *)

(** The [options] argument [{sync: true}]. *)
Definition sync_call : Overrides :=
  mkOverrides None (Some true) None None None None None None None.

(** The [options] argument [{persist: true, sync: true}]. *)
Definition persist_sync_call : Overrides :=
  mkOverrides (Some true) (Some true) None None None None None None None.

(** The [options] argument [{priority: p}]. *)
Definition priority_call (p : Z) : Overrides :=
  mkOverrides None None None None None None None (Some (Fin p)) None.

(** The examples run on an engine whose call stack has room for this many
    nested dispatches. *)
Definition room : nat := 16.

(** The broker after [subscribe(t, f, o)], whatever the call returned. *)
Definition after_subscribe (state : Arbiter) (t : string) (f : subscriber) (o : Overrides)
    : Arbiter :=
  sr_state (subscribe state (VStr t) f o VUndefined).

(** The broker after [publish(t, d, o)]. *)
Definition after_publish (stack : nat) (state : Arbiter) (t : string) (d : value)
    (o : Overrides) : Arbiter :=
  pr_state (publish stack state (VStr t) d o).

(** [subscribe("a", f)], [subscribe("a.b", g)], [subscribe("a", h,
    {priority: 5})] on a fresh broker. *)
Definition lineage_broker : Arbiter :=
  after_subscribe
    (after_subscribe
       (after_subscribe create "a" (SFun noop) no_overrides)
       "a.b" (SFun noop) no_overrides)
    "a" (SFun noop) (priority_call 5).

(** The promise a synchronous [publish("a.b")] returns on that broker. *)
Definition lineage_publication : Publication :=
  match snd (hierarchicalTopicDispatcher room lineage_broker "a.b" VUndefined
               (merge (state_options lineage_broker) sync_call)) with
  | Returned pub => pub
  | Raised _ =>
      {| pub_resolver := createResolver; pub_topic := VUndefined; pub_data := VUndefined;
         pub_options := state_options lineage_broker; pub_subscriptions := [];
         pub_launched := [] |}
  end.

(** That publication after its three subscribers have fulfilled. *)
Definition lineage_publication_done : Publication :=
  deliver_all room lineage_publication
    [(UseFulfilled, VUndefined); (UseFulfilled, VUndefined); (UseFulfilled, VUndefined)].

(** The promise a publish on ["a.b"] returns on that broker under the
    given options, which are merged over the defaults. *)
Definition lineage_publication_with (o : Overrides) : Publication :=
  match snd (hierarchicalTopicDispatcher room lineage_broker "a.b" VUndefined
               (merge (state_options lineage_broker) o)) with
  | Returned pub => pub
  | Raised _ => lineage_publication
  end.

(** [publish("a.b", undefined, {sync: true, updateAfterSettlement: true})]. *)
Definition updating_publication : Publication :=
  lineage_publication_with
    (mkOverrides None (Some true) None None None None (Some true) None None).

(** [publish("a.b", undefined, {sync: true, latch: 1, semaphor: 1})]. *)
Definition one_at_a_time : Publication :=
  lineage_publication_with
    (mkOverrides None (Some true) None (Some 1%float) None (Some 1%float) None None None).

(** [function () { return {then: function (f) { f(7); }}; }]: the
    thenable calls back from inside [then]. *)
Definition eager_seven : jsfun :=
  {| fn_length := 0;
     fn_suspended := VUndefined;
     fn_context := VUndefined;
     call := fun _ _ _ _ =>
       {| done_calls := [];
          fn_completion := Return (Thenable (Fulfilled (VNum (Fin 7))));
          eager := true |} |}.

(** [subscribe("a", noop)], then [subscribe("a", eager)]: a publish on
    ["a"] launches the older subscription first. *)
Definition eager_broker : Arbiter :=
  after_subscribe (after_subscribe create "a" (SFun noop) no_overrides)
    "a" (SFun eager_seven) no_overrides.

(** The [options] argument
    [{sync: true, semaphor: 1, updateAfterSettlement: true}]. *)
Definition one_by_one_updating : Overrides :=
  mkOverrides None (Some true) None None None (Some 1%float) (Some true) None None.

(** The promise of [publish("a", undefined, {sync: true, semaphor: 1,
    updateAfterSettlement: true})] on that broker: the eager subscription
    waits behind the semaphor. *)
Definition eager_publication : Publication :=
  match snd (hierarchicalTopicDispatcher room eager_broker "a" VUndefined
               (merge (state_options eager_broker) one_by_one_updating)) with
  | Returned pub => pub
  | Raised _ => lineage_publication
  end.



(** The [options] argument [{sync: true, semaphor: 1}]. *)
Definition one_by_one : Overrides :=
  mkOverrides None (Some true) None None None (Some 1%float) None None None.

(** The token of the subscription of ["a.b"] in [lineage_broker]. *)
Definition middle_token : Token :=
  {| tok_topic := "a.b"; tok_id := (first_id + 1)%Z; tok_priority := Some (Fin 0) |}.


(** The [options] argument [{ignorePersisted: true}]. *)
Definition ignoring_call : Overrides :=
  mkOverrides None None None None None None None None (Some true).

(** [publish("x", 1, {persist: true, sync: true})] twice on a fresh
    broker, and the token the second call attaches to its promise. *)
Definition two_persisted_broker : Arbiter :=
  after_publish room
    (after_publish room create "x" (VNum (Fin 1)) persist_sync_call)
    "x" (VNum (Fin 2)) persist_sync_call.

Definition second_token : Token :=
  {| tok_topic := "x"; tok_id := (first_id + 1)%Z; tok_priority := None |}.

(** [publish("a", 1, {persist: true, sync: true})] on a fresh broker. *)
Definition persisted_broker : Arbiter :=
  after_publish room create "a" (VNum (Fin 1)) persist_sync_call.

(** [publish("a.b", 1, {persist: true, sync: true})], then
    [subscribe("a-x", noop)]: the topic ["a-x"] sorts between ["a"] and
    ["a.b"]. *)
Definition hyphen_broker : Arbiter :=
  after_subscribe
    (after_publish room create "a.b" (VNum (Fin 1)) persist_sync_call)
    "a-x" (SFun noop) no_overrides.

(** [function (data, topic, done, extra) { done(null, 'hi'); }]: called
    without its third argument, the call of [done] raises a TypeError,
    modelled by the string thrown. *)
Definition four_parameters : jsfun :=
  {| fn_length := 4;
     fn_suspended := VUndefined;
     fn_context := VUndefined;
     call := fun _ _ _ doneGiven =>
       if doneGiven
       then {| done_calls := [(VNull, Plain (VStr "hi"))];
               fn_completion := Return (Plain VUndefined); eager := false |}
       else {| done_calls := [];
               fn_completion := Throw (VStr "TypeError: done is not a function");
               eager := false |} |}.

Definition four_parameters_subscription : subscription :=
  createSubscription first_id (SFun four_parameters) (state_options create) VUndefined.

(** The [options] argument [{latch: 1}]. *)
Definition latch_one_call : Overrides :=
  mkOverrides None None None (Some 1%float) None None None None None.

(** [function (data, topic, done) { done(null, Promise.reject('no'));
    done(null, 42); }]. *)
Definition node_style_follower : jsfun :=
  {| fn_length := 3;
     fn_suspended := VUndefined;
     fn_context := VUndefined;
     call := fun _ _ _ _ =>
       {| done_calls := [(VNull, Thenable (Rejected (VStr "no")));
                         (VNull, Plain (VNum (Fin 42)))];
          fn_completion := Return (Plain VUndefined); eager := false |} |}.

(** ** Vocabulary of the statements *)

(** [a <= b] on numbers. *)
Definition num_le (a b : num) : Prop :=
  match a, b with
  | NaN, _ => False
  | _, NaN => False
  | NegInf, _ => True
  | Fin _, NegInf => False
  | Fin x, Fin y => (x <= y)%Z
  | Fin _, PosInf => True
  | PosInf, PosInf => True
  | PosInf, _ => False
  end.

(** The part of a finger list that the pointer has not passed. *)
Definition remaining {A : Type} (f : fingerArray A) : list A :=
  skipn (pointer f) (array f).

(** The key [getFingerArrayBy] computes, read off the remaining part. *)
Definition head_key {A : Type} (getKey : A -> num) (l : list A) : num :=
  match l with
  | [] => PosInf
  | x :: _ => getKey x
  end.

(** Lists that [mergeBy] can merge into a list sorted by [R]: each list is
    sorted by [R], and [R] places an element of an earlier list before an
    element of a later list whose key is not smaller. *)
Inductive merge_ready {A : Type} (getKey : A -> num) (R : A -> A -> Prop)
    : list (list A) -> Prop :=
| merge_ready_nil : merge_ready getKey R []
| merge_ready_cons : forall l ls,
    StronglySorted R l ->
    (forall x y, In x l -> In y (List.concat ls) ->
                 num_le (getKey x) (getKey y) -> R x y) ->
    merge_ready getKey R ls ->
    merge_ready getKey R (l :: ls).

(** Ascending by key. *)
Definition key_le {A : Type} (getKey : A -> num) (x y : A) : Prop :=
  num_le (getKey x) (getKey y).

(** The invariant of the scan of [minBy]: the winner is strictly below
    everything before it and not above anything after it. *)
Definition is_first_minimum {T : Type} (valueComputer : T -> num)
    (l1 : list T) (w : T) (l2 : list T) : Prop :=
  (forall x, In x l1 -> num_ltb (valueComputer w) (valueComputer x) = true)
  /\ (forall x, In x l2 -> num_ltb (valueComputer x) (valueComputer w) = false).


(** How [insert] leaves the subscriptions of one node when ids grow with
    every registration: ascending priority, and among equal priorities the
    subscription registered last first. *)
Definition node_order (s1 s2 : subscription) : Prop :=
  num_ltb (priority s1) (priority s2) = true
  \/ (priority s1 = priority s2 /\ (id s2 < id s1)%Z).

Definition subscriptions_ok (l : list subscription) : Prop :=
  StronglySorted node_order l /\ Forall (fun s => finite (priority s)) l.







(** A subscription whose invocation with this data and topic calls back
    on a later turn, as the invocation of every subscriber does that hands
    back a plain value, a promise, or nothing. *)
Definition patient (d t : value) (s : subscription) : bool :=
  match at_once s d t with
  | None => true
  | Some _ => false
  end.

(** The same of every entry of a dispatch list. *)
Definition all_patient (d t : value) (subs : list (option subscription)) : bool :=
  forallb (fun e => match e with
                    | Some s => patient d t s
                    | None => true
                    end) subs.


(** The latch rules in the words of the specification: [F], [R] and [P]
    are the counters, [S = F + R], [T = F + P + R], [M = F + P], and [L] is
    the latch. *)
Definition spec_rejects (settlementLatch : bool) (L F R P : float) : Prop :=
  let T := (F + P + R)%float in
  let M := (F + P)%float in
  (settlementLatch = false /\ (1 <=? L)%float = true /\ (M <? L)%float = true)
  \/ (settlementLatch = false /\ (L <? 1)%float = true /\ (M / T <? L)%float = true)
  \/ (settlementLatch = true /\ (1 <=? L)%float = true /\ (T <? L)%float = true)
  \/ (settlementLatch = true /\ (L <? 1)%float = true /\ (T =? 0)%float = true).

Definition spec_fulfills (settlementLatch : bool) (L F R P : float) : Prop :=
  let S := (F + R)%float in
  let T := (F + P + R)%float in
  (settlementLatch = false /\ (1 <=? L)%float = true /\ (L <=? F)%float = true)
  \/ (settlementLatch = false /\ (L <? 1)%float = true /\ (L <=? F / T)%float = true)
  \/ (settlementLatch = true /\ (1 <=? L)%float = true /\ (L <=? S)%float = true)
  \/ (settlementLatch = true /\ (L <? 1)%float = true /\ (L <=? S / T)%float = true).

(** A resolver that has settled its promise as rejected, or as fulfilled,
    with the array the promise settled with. *)
Definition settled_rejected (resolver : Resolver) (values : list value) : Prop :=
  settled resolver = true
  /\ exists s, status (promise resolver) = Rejected s
              /\ read_settlement resolver s = values.

Definition settled_fulfilled (resolver : Resolver) (values : list value) : Prop :=
  settled resolver = true
  /\ exists s, status (promise resolver) = Fulfilled s
              /\ read_settlement resolver s = values.

(** A node of the tree, at some reference, that has the topic [t] and
    holds the persisted message [m]. *)
Definition stored_at (root : node) (t : string) (m : persistedMessage) : Prop :=
  exists r n, deref root r = Some n /\ topic n = t /\ In m (persisted n).

(** Every node of the tree under [root] satisfies [P]. *)
Definition tree_all (P : node -> Prop) (root : node) : Prop :=
  forall r n, deref root r = Some n -> P n.

(** A node whose subscriptions are well formed, with ids below [bound]. *)
Definition node_ok (bound : Z) (n : node) : Prop :=
  subscriptions_ok (subscriptions n)
  /\ Forall (fun s => (id s < bound)%Z) (subscriptions n).

(** A broker whose nodes are well formed, with ids the generator has
    already handed out. *)
Definition broker_ok (state : Arbiter) : Prop :=
  tree_all (node_ok (next_id state)) (_topics state).

(** A node whose persisted messages are in ascending order, with orders
    below [bound]. *)
Definition persisted_ok (bound : Z) (n : node) : Prop :=
  StronglySorted (key_le getOrder) (persisted n)
  /\ Forall (fun m => (order m < bound)%Z) (persisted n).

(** A broker whose persisted messages are stored in publication order. *)
Definition store_ok (state : Arbiter) : Prop :=
  tree_all (persisted_ok (next_id state)) (_topics state).

(** A [priority] option that [+options.priority || 0] turns into a
    finite number. *)
Definition finite_priority (p : option num) : Prop :=
  match p with
  | Some PosInf => False
  | Some NegInf => False
  | _ => True
  end.

(** The broker with another tree. *)
Definition set_topics (state : Arbiter) (root : node) : Arbiter :=
  {| _topics := root; options := options state; next_id := next_id state |}.

(** The brokers that [create], [subscribe] with a finite priority,
    [publish], a deferred dispatch and [removePersisted] build, with any
    assignment to the options holder in between. *)
Inductive built : Arbiter -> Prop :=
| built_create : built create
| built_subscribe : forall state t f o ctx,
    built state ->
    finite_priority (opt_priority (merge (state_options state) o)) ->
    built (sr_state (subscribe state t f o ctx))
| built_publish : forall stack state t d o,
    built state -> built (pr_state (publish stack state t d o))
| built_task : forall stack state task,
    built state -> built (fst (run_task stack state task))
| built_removePersisted : forall state tk,
    built state -> built (set_topics state (fst (removePersisted (_topics state) tk)))
| built_options : forall state opts,
    built state ->
    built {| _topics := _topics state; options := opts; next_id := next_id state |}.

(** The call the replay loop of [subscribe] makes for a persisted
    message: [f.call(f.context, message.data, message.topic)]. *)
Definition delivery_of (f : jsfun) (m : persistedMessage) : delivery :=
  {| dl_this := fn_context f; dl_data := data m; dl_topic := VStr (p_topic m) |}.


(** Every character of the string satisfies [p]. *)
Fixpoint all_chars (p : ascii -> bool) (s : string) : bool :=
  match s with
  | EmptyString => true
  | String c rest => p c && all_chars p rest
  end.

(** The name of one generation of a topic: it holds no dot and no
    character that sorts below the dot. *)
Definition segment (s : string) : bool :=
  all_chars (fun c => Ascii.ltb "."%char c) s.


(** What [appendPrefixedTopic] puts in front of the name of a generation
    below the topic [parent]. *)
Definition generation_prefix (parent : string) : string :=
  if String.eqb parent EmptyString then EmptyString else (parent ++ ".")%string.

(** A node whose children are in strictly ascending order of their topics,
    each topic being the topic of the node continued by one name. *)
Definition children_ok (n : node) : Prop :=
  StronglySorted (fun a b => String.ltb (topic a) (topic b) = true) (children n)
  /\ Forall (fun c => topic c <> EmptyString
                      /\ exists seg, segment seg = true
                                     /\ topic c = (generation_prefix (topic n) ++ seg)%string)
       (children n).









(** The values that the outcomes of one kind carry, in completion order. *)
Definition values_of (u : use) (events : list (use * value)) : list value :=
  map snd (filter (fun e => match fst e, u with
                            | UseFulfilled, UseFulfilled => true
                            | UseRejected, UseRejected => true
                            | _, _ => false
                            end) events).

(** The tokens of subscriptions registered one after the other on the
    topics [ts], the first with the id [first]. *)
Fixpoint tokens_from (first : Z) (p : num) (ts : list string) : list Token :=
  match ts with
  | [] => []
  | t :: rest =>
      {| tok_topic := t; tok_id := first; tok_priority := Some p |}
      :: tokens_from (first + 1) p rest
  end.

(** The broker after [subscribe] was called on each of the topics [ts]. *)
Definition subscribed_to (state : Arbiter) (ts : list string) (f : subscriber)
    (o : Overrides) (ctx : value) : Arbiter :=
  fold_left (fun st t => sr_state (subscribe st (VStr t) f o ctx)) ts state.

(** The string [s] contains the word [w]. *)
Definition contains (w s : string) : Prop :=
  exists before after, s = (before ++ w ++ after)%string.


(** * Properties *)

(** ** Numbers *)

Lemma num_ltb_trans (a b c : num) :
  num_ltb a b = true -> num_ltb b c = true -> num_ltb a c = true.
Proof.
  destruct a, b, c; simpl; try discriminate; try reflexivity.
  rewrite !Z.ltb_lt. lia.
Qed.

Lemma num_ltb_le (a b : num) : num_ltb a b = true -> num_le a b.
Proof.
  destruct a, b; simpl; try discriminate; try exact (fun _ => I).
  rewrite Z.ltb_lt. lia.
Qed.

Lemma num_le_trans (a b c : num) : num_le a b -> num_le b c -> num_le a c.
Proof.
  destruct a, b, c; simpl; try tauto. lia.
Qed.

Lemma num_not_ltb_le (a b : num) :
  a <> NaN -> b <> NaN -> num_ltb b a = false -> num_le a b.
Proof.
  destruct a, b; simpl; try congruence; try exact (fun _ _ _ => I).
  intros _ _. rewrite Z.ltb_ge. lia.
Qed.

Lemma num_le_ltb_trans (a b c : num) :
  num_ltb a b = true -> num_le b c -> num_ltb a c = true.
Proof.
  destruct a, b, c; simpl; try discriminate; try tauto.
  rewrite !Z.ltb_lt. lia.
Qed.

Lemma num_le_refl_finite (a : num) : finite a -> num_le a a.
Proof. intros [z ->]. simpl. lia. Qed.

Lemma finite_not_NaN (a : num) : finite a -> a <> NaN.
Proof. intros [z ->]. discriminate. Qed.

Lemma finite_ltb_PosInf (a : num) : finite a -> num_ltb a PosInf = true.
Proof. intros [z ->]. reflexivity. Qed.

Lemma num_le_finite_cases (a b : num) :
  finite a -> finite b -> num_le a b -> num_ltb a b = true \/ a = b.
Proof.
  intros [x ->] [y ->]. simpl. intros Hle.
  destruct (Z.eq_dec x y) as [->|Hne]; [right; reflexivity|left].
  apply Z.ltb_lt. lia.
Qed.

Lemma num_le_lt_trans (a b c : num) :
  num_le a b -> num_ltb b c = true -> num_ltb a c = true.
Proof.
  destruct a, b, c; simpl; try discriminate; try tauto.
  rewrite !Z.ltb_lt. lia.
Qed.

(** ** Lists *)

Lemma firstn_S_nth (T : Type) (l : list T) :
  forall n x, nth_error l n = Some x -> firstn (S n) l = firstn n l ++ [x].
Proof.
  induction l as [|a l IH]; intros [|n] x H; simpl in H; try discriminate.
  - injection H as ->. reflexivity.
  - simpl. f_equal. apply IH, H.
Qed.

Lemma Permutation_filter (T : Type) (p : T -> bool) (l l' : list T) :
  Permutation l l' -> Permutation (filter p l) (filter p l').
Proof.
  induction 1 as [|x l l' H IH|x y l|l l' l'' H1 IH1 H2 IH2]; simpl.
  - constructor.
  - destruct (p x); [constructor|]; exact IH.
  - destruct (p x), (p y); try reflexivity. constructor.
  - etransitivity; eassumption.
Qed.


(** ** Sorted lists *)

Lemma StronglySorted_app_iff (T : Type) (R : T -> T -> Prop) (l1 l2 : list T) :
  StronglySorted R (l1 ++ l2)
  <-> StronglySorted R l1 /\ StronglySorted R l2
      /\ (forall x y, In x l1 -> In y l2 -> R x y).
Proof.
  induction l1 as [|a l1 IH]; simpl.
  - split.
    + intros H. repeat split; [constructor|exact H|intros x y []].
    + tauto.
  - split.
    + intros H. apply StronglySorted_inv in H. destruct H as [Hs Hall].
      apply IH in Hs. destruct Hs as (H1 & H2 & H12).
      rewrite Forall_forall in Hall. repeat split.
      * constructor; [exact H1|]. apply Forall_forall. intros x Hx.
        apply Hall, in_or_app. left. exact Hx.
      * exact H2.
      * intros x y [<-|Hx] Hy; [apply Hall, in_or_app; right; exact Hy|auto].
    + intros (H1 & H2 & H12). apply StronglySorted_inv in H1. destruct H1 as [H1 Hall].
      constructor.
      * apply IH. repeat split; auto.
      * rewrite Forall_forall in *. intros x Hx. apply in_app_or in Hx.
        destruct Hx as [Hx|Hx]; auto.
Qed.

Section SortedFacts.

Variable T : Type.
Variable R : T -> T -> Prop.



Lemma StronglySorted_impl (R' : T -> T -> Prop) (l : list T) :
  (forall x y, In x l -> In y l -> R x y -> R' x y) ->
  StronglySorted R l -> StronglySorted R' l.
Proof.
  intros Himpl Hs. induction Hs as [|a l Hs IH Hall]; [constructor|].
  constructor.
  - apply IH. intros x y Hx Hy. apply Himpl; right; assumption.
  - rewrite Forall_forall in *. intros x Hx.
    apply Himpl; [left; reflexivity|right; exact Hx|apply Hall, Hx].
Qed.

End SortedFacts.


(** ** [binaryIndexBy] and [insert] *)

Lemma div2_between (low high : nat) :
  low < high -> low <= Nat.div2 (low + high) /\ Nat.div2 (low + high) < high.
Proof.
  intros H. rewrite Nat.div2_div.
  split.
  - apply Nat.div_le_lower_bound; lia.
  - apply Nat.Div0.div_lt_upper_bound; lia.
Qed.

Section BinarySearch.

Variable A : Type.
Variable getValue : A -> num.
Variable value : num.
Variable arr : list A.

(** The loop has run to its end once [high - low] iterations are
    allowed: more fuel changes nothing. *)
Lemma binaryIndexBy_loop_fuel :
  forall fuel extra low high,
    high - low <= fuel ->
    binaryIndexBy_loop (fuel + extra) getValue value arr low high
    = binaryIndexBy_loop fuel getValue value arr low high.
Proof.
  induction fuel as [|fuel IH]; intros extra low high Hfuel.
  - simpl. destruct extra; [reflexivity|]. simpl.
    destruct (Nat.ltb low high) eqn:Hlt; [|reflexivity].
    apply Nat.ltb_lt in Hlt. lia.
  - simpl. destruct (Nat.ltb low high) eqn:Hlt; [|reflexivity].
    apply Nat.ltb_lt in Hlt. destruct (div2_between Hlt) as [Hlo Hhi].
    destruct (nth_error arr (Nat.div2 (low + high))); [|reflexivity].
    destruct (less (getValue a) value); apply IH; lia.
Qed.

Hypothesis arr_sorted : StronglySorted (key_le getValue) arr.

Lemma sorted_around (mid : nat) (elem : A) :
  nth_error arr mid = Some elem ->
  Forall (fun x => num_le (getValue x) (getValue elem)) (firstn mid arr)
  /\ Forall (fun y => num_le (getValue elem) (getValue y)) (skipn (S mid) arr)
  /\ firstn (S mid) arr = firstn mid arr ++ [elem]
  /\ skipn mid arr = elem :: skipn (S mid) arr.
Proof.
  intros Hnth.
  assert (Hsplit : arr = firstn mid arr ++ elem :: skipn (S mid) arr).
  { rewrite <- (firstn_skipn mid arr) at 1. f_equal.
    clear arr_sorted. revert mid Hnth.
    induction arr as [|a l IH]; intros [|mid] Hnth; simpl in Hnth; try discriminate.
    - injection Hnth as ->. reflexivity.
    - apply (IH mid Hnth). }
  pose proof arr_sorted as Hs. rewrite Hsplit in Hs.
  apply StronglySorted_app_iff in Hs. destruct Hs as (_ & Hs & Hcross).
  apply StronglySorted_inv in Hs. destruct Hs as [_ Hafter].
  split; [|split; [exact Hafter|split]].
  - apply Forall_forall. intros x Hx. apply Hcross; [exact Hx|left; reflexivity].
  - apply firstn_S_nth, Hnth.
  - rewrite Hsplit at 1. rewrite skipn_app, firstn_length_le.
    + rewrite Nat.sub_diag. rewrite skipn_all2; [reflexivity|].
      rewrite firstn_length_le; [lia|]. apply Nat.lt_le_incl, nth_error_Some. congruence.
    + apply Nat.lt_le_incl, nth_error_Some. congruence.
Qed.

(** On a sorted array the search returns the lower bound of [value]:
    everything before the index is below [value], nothing from the index
    on is. *)
Lemma binaryIndexBy_loop_lower_bound :
  forall fuel low high,
    low <= high -> high <= List.length arr -> high - low <= fuel ->
    Forall (fun x => num_ltb (getValue x) value = true) (firstn low arr) ->
    Forall (fun x => num_ltb (getValue x) value = false) (skipn high arr) ->
    let index := binaryIndexBy_loop fuel getValue value arr low high in
    index <= List.length arr
    /\ Forall (fun x => num_ltb (getValue x) value = true) (firstn index arr)
    /\ Forall (fun x => num_ltb (getValue x) value = false) (skipn index arr).
Proof.
  induction fuel as [|fuel IH]; intros low high Hle Hlen Hfuel Hbelow Habove.
  - simpl. replace high with low in * by lia. auto.
  - simpl. destruct (Nat.ltb low high) eqn:Hlt.
    2:{ apply Nat.ltb_ge in Hlt. replace high with low in * by lia. auto. }
    apply Nat.ltb_lt in Hlt. destruct (div2_between Hlt) as [Hlo Hhi].
    destruct (nth_error arr (Nat.div2 (low + high))) as [elem|] eqn:Hnth.
    2:{ apply nth_error_None in Hnth. lia. }
    destruct (sorted_around _ Hnth) as (Hbefore & Hafter & Hfirst & Hskip).
    unfold less, less_num.
    destruct (num_ltb (getValue elem) value) eqn:Hcmp.
    + apply IH; try lia; [|exact Habove].
      rewrite Hfirst. apply Forall_app. split; [|repeat constructor; exact Hcmp].
      eapply Forall_impl; [|exact Hbefore].
      intros x Hx. simpl in Hx. eapply num_le_lt_trans; eassumption.
    + apply IH; try lia; [exact Hbelow|].
      rewrite Hskip. constructor; [exact Hcmp|].
      eapply Forall_impl; [|exact Hafter].
      intros y Hy. simpl in Hy.
      destruct (num_ltb (getValue y) value) eqn:Hy'; [|reflexivity].
      rewrite (num_le_lt_trans _ _ _ Hy Hy') in Hcmp. discriminate.
Qed.

Lemma binaryIndexBy_lower_bound :
  let index := binaryIndexBy getValue value arr in
  index <= List.length arr
  /\ Forall (fun x => num_ltb (getValue x) value = true) (firstn index arr)
  /\ Forall (fun x => num_ltb (getValue x) value = false) (skipn index arr).
Proof.
  unfold binaryIndexBy. apply binaryIndexBy_loop_lower_bound; try lia.
  - constructor.
  - rewrite skipn_all. constructor.
Qed.

End BinarySearch.

(** [insert] keeps the subscriptions of a node well formed when the new
    subscription has a finite priority and an id above the ids in the
    list, which is what the id generator provides. *)
Lemma insert_subscriptions_ok (item : subscription) (l : list subscription) :
  subscriptions_ok l ->
  finite (priority item) ->
  Forall (fun s => (id s < id item)%Z) l ->
  subscriptions_ok (insert getPriority item l).
Proof.
  intros [Hs Hfin] Hitem Hfresh. unfold insert, splice_in.
  assert (Hkey : StronglySorted (key_le getPriority) l).
  { eapply StronglySorted_impl; [|exact Hs].
    intros x y Hx Hy [Hlt|[Heq _]]; unfold key_le, getPriority.
    - apply num_ltb_le, Hlt.
    - rewrite Heq. apply num_le_refl_finite.
      rewrite Forall_forall in Hfin. apply Hfin, Hy. }
  destruct (@binaryIndexBy_lower_bound _ getPriority (getPriority item) l Hkey)
    as (Hidx & Hbelow & Habove).
  set (index := binaryIndexBy getPriority (getPriority item) l) in *.
  pose proof Hs as Hs'. rewrite <- (firstn_skipn index l) in Hs'.
  apply StronglySorted_app_iff in Hs'. destruct Hs' as (H1 & H2 & Hcross).
  rewrite Forall_forall in Hbelow, Habove, Hfin, Hfresh.
  split.
  - apply StronglySorted_app_iff. split; [exact H1|]. split.
    + constructor; [exact H2|]. apply Forall_forall. intros y Hy.
      assert (Hyl : In y l) by (rewrite <- (firstn_skipn index l); apply in_or_app; right; exact Hy).
      destruct (@num_le_finite_cases (priority item) (priority y) Hitem (Hfin _ Hyl))
        as [Hlt|Heq].
      * apply num_not_ltb_le.
        -- apply finite_not_NaN, Hitem.
        -- apply finite_not_NaN, Hfin, Hyl.
        -- apply (Habove _ Hy).
      * left. exact Hlt.
      * right. split; [exact Heq|]. apply Hfresh, Hyl.
    + intros x y Hx [<-|Hy]; [left; apply (Hbelow _ Hx)|apply Hcross; assumption].
  - apply Forall_forall. intros x Hx. apply in_app_or in Hx.
    destruct Hx as [Hx|[<-|Hx]]; [| exact Hitem |].
    + apply Hfin. rewrite <- (firstn_skipn index l). apply in_or_app. left. exact Hx.
    + apply Hfin. rewrite <- (firstn_skipn index l). apply in_or_app. right. exact Hx.
Qed.

(** ** [minBy] *)

Section MinBy.

Variable T : Type.
Variable valueComputer : T -> num.

Lemma minBy_loop_spec (rest : list T) :
  forall l1 w l2,
    (forall x, In x (l1 ++ w :: l2 ++ rest) -> valueComputer x <> NaN) ->
    is_first_minimum valueComputer l1 w l2 ->
    exists l1' w' l2',
      l1 ++ w :: l2 ++ rest = l1' ++ w' :: l2'
      /\ minBy_loop valueComputer rest (List.length (l1 ++ w :: l2)) (List.length l1)
           (valueComputer w) = List.length l1'
      /\ is_first_minimum valueComputer l1' w' l2'.
Proof.
  induction rest as [|current rest IH]; intros l1 w l2 Hnan [Hbefore Hafter].
  - exists l1, w, l2. rewrite app_nil_r. repeat split; assumption.
  - simpl. unfold less, less_num.
    destruct (num_ltb (valueComputer current) (valueComputer w)) eqn:Hlt.
    + destruct (IH (l1 ++ w :: l2) current []) as (l1' & w' & l2' & Heq & Hm & Hmin).
      * intros x Hx. apply Hnan. rewrite <- app_assoc in Hx. exact Hx.
      * split; [|intros x []].
        intros x Hx. apply in_app_or in Hx. destruct Hx as [Hx|[<-|Hx]].
        -- eapply num_ltb_trans; [exact Hlt|]. apply Hbefore, Hx.
        -- exact Hlt.
        -- eapply num_le_ltb_trans; [exact Hlt|].
           apply num_not_ltb_le; [apply Hnan| apply Hnan |apply Hafter, Hx].
           ++ apply in_or_app. right. left. reflexivity.
           ++ apply in_or_app. right. right. apply in_or_app. left. exact Hx.
      * exists l1', w', l2'. split; [|split; [|exact Hmin]].
        -- rewrite <- Heq. rewrite <- !app_assoc. reflexivity.
        -- rewrite <- Hm. f_equal. repeat (rewrite ?length_app; simpl). lia.
    + destruct (IH l1 w (l2 ++ [current])) as (l1' & w' & l2' & Heq & Hm & Hmin).
      * intros x Hx. apply Hnan. rewrite <- app_assoc in Hx. exact Hx.
      * split; [exact Hbefore|].
        intros x Hx. apply in_app_or in Hx. destruct Hx as [Hx|[<-|[]]].
        -- apply Hafter, Hx.
        -- exact Hlt.
      * exists l1', w', l2'. split; [|split; [|exact Hmin]].
        -- rewrite <- Heq. rewrite <- !app_assoc. reflexivity.
        -- rewrite <- Hm. f_equal. repeat (rewrite ?length_app; simpl). lia.
Qed.

Lemma minBy_spec (l : list T) :
  l <> [] ->
  (forall x, In x l -> valueComputer x <> NaN) ->
  exists l1 w l2,
    l = l1 ++ w :: l2
    /\ minBy valueComputer l = Some (List.length l1)
    /\ is_first_minimum valueComputer l1 w l2.
Proof.
  destruct l as [|w rest]; [congruence|]. intros _ Hnan.
  destruct (@minBy_loop_spec rest [] w []) as (l1 & w' & l2 & Heq & Hm & Hmin).
  - exact Hnan.
  - split; intros x [].
  - exists l1, w', l2. simpl in *. rewrite Hm. auto.
Qed.

End MinBy.

(** ** Finger lists *)

Section Fingers.

Variable A : Type.

Lemma nth_error_hd_skipn (l : list A) : forall n, nth_error l n = hd_error (skipn n l).
Proof.
  induction l as [|x l IH]; intros [|n]; simpl; try reflexivity. apply IH.
Qed.

Lemma skipn_S_tl (l : list A) : forall n, skipn (S n) l = tl (skipn n l).
Proof.
  induction l as [|x l IH]; intros [|n]; try reflexivity.
  change (skipn (S (S n)) (x :: l)) with (skipn (S n) l).
  change (skipn (S n) (x :: l)) with (skipn n l). apply IH.
Qed.

Lemma getPointedFinger_remaining (f : fingerArray A) :
  getPointedFinger f = hd_error (remaining f).
Proof.
  unfold getPointedFinger, remaining.
  destruct (Nat.ltb (pointer f) (List.length (array f))) eqn:Hlt.
  - apply nth_error_hd_skipn.
  - apply Nat.ltb_ge in Hlt. rewrite skipn_all2 by exact Hlt. reflexivity.
Qed.

Lemma getFingerArrayBy_remaining (getKey : A -> num) (f : fingerArray A) :
  getFingerArrayBy getKey f = head_key getKey (remaining f).
Proof.
  unfold getFingerArrayBy. rewrite getPointedFinger_remaining.
  destruct (remaining f); reflexivity.
Qed.

Lemma advance_middle (f1 : list (fingerArray A)) (w : fingerArray A) f2 :
  advance (List.length f1) (f1 ++ w :: f2)
  = f1 ++ {| pointer := S (pointer w); array := array w |} :: f2.
Proof.
  induction f1 as [|f f1 IH]; simpl; [reflexivity|]. rewrite IH. reflexivity.
Qed.

Lemma nth_error_middle (T : Type) (l1 : list T) (w : T) l2 :
  nth_error (l1 ++ w :: l2) (List.length l1) = Some w.
Proof.
  induction l1 as [|x l1 IH]; simpl; [reflexivity|exact IH].
Qed.

Lemma remaining_mkFingerArray (arrays : list (list A)) :
  map (@remaining A) (map (@mkFingerArray A) arrays) = arrays.
Proof.
  induction arrays as [|l ls IH]; simpl; [reflexivity|]. rewrite IH. reflexivity.
Qed.

Lemma total_length (arrays : list (list A)) :
  fold_left Nat.add (map (@List.length A) arrays) 0 = List.length (List.concat arrays).
Proof.
  assert (H : forall acc, fold_left Nat.add (map (@List.length A) arrays) acc
                          = acc + List.length (List.concat arrays)).
  { induction arrays as [|l ls IH]; intros acc; simpl; [lia|].
    rewrite IH, length_app. lia. }
  apply H.
Qed.

End Fingers.

(** ** [mergeBy] merges *)

Section MergeCorrect.

Variable A : Type.
Variable getKey : A -> num.
Variable R : A -> A -> Prop.

Hypothesis R_of_lt :
  forall x y, num_ltb (getKey x) (getKey y) = true -> R x y.
Hypothesis R_le :
  forall x y, finite (getKey x) -> finite (getKey y) -> R x y ->
              num_le (getKey x) (getKey y).

Lemma merge_ready_sorted (ls : list (list A)) :
  merge_ready getKey R ls -> forall l, In l ls -> StronglySorted R l.
Proof.
  induction 1 as [|l0 ls Hs Hc Hr IH]; intros l []; subst; auto.
Qed.

Lemma merge_ready_app_right (ls1 ls2 : list (list A)) :
  merge_ready getKey R (ls1 ++ ls2) -> merge_ready getKey R ls2.
Proof.
  induction ls1 as [|l ls1 IH]; simpl; intros H; [exact H|].
  inversion H; subst. auto.
Qed.

Lemma in_concat_middle (ls1 : list (list A)) l l' ls2 y :
  incl l' l ->
  In y (List.concat (ls1 ++ l' :: ls2)) -> In y (List.concat (ls1 ++ l :: ls2)).
Proof.
  intros Hincl. rewrite !concat_app. simpl. rewrite !in_app_iff.
  intros [H|[H|H]]; auto.
Qed.

Lemma merge_ready_shrink (ls1 : list (list A)) l l' ls2 :
  merge_ready getKey R (ls1 ++ l :: ls2) ->
  StronglySorted R l' -> incl l' l ->
  merge_ready getKey R (ls1 ++ l' :: ls2).
Proof.
  intros H Hs Hincl. induction ls1 as [|a ls1 IH]; simpl in *.
  - inversion H; subst. constructor; auto.
  - inversion H; subst. constructor; auto.
    intros x y Hx Hy. apply H3; [exact Hx|]. eapply in_concat_middle; eauto.
Qed.

Lemma sorted_head_le (h : A) (t : list A) (y : A) :
  StronglySorted R (h :: t) ->
  (forall x, In x (h :: t) -> finite (getKey x)) ->
  In y (h :: t) -> num_le (getKey h) (getKey y).
Proof.
  intros Hs Hfin [<-|Hy].
  - apply num_le_refl_finite, Hfin. left. reflexivity.
  - apply StronglySorted_inv in Hs. destruct Hs as [_ Hall].
    rewrite Forall_forall in Hall. apply R_le.
    + apply Hfin. left. reflexivity.
    + apply Hfin. right. exact Hy.
    + apply Hall, Hy.
Qed.

(** The head of the list [minBy] selects goes before everything that
    remains. *)
Lemma winner_first (rs1 : list (list A)) (h : A) (t : list A) (rs2 : list (list A)) :
  (forall x, In x (List.concat (rs1 ++ (h :: t) :: rs2)) -> finite (getKey x)) ->
  merge_ready getKey R (rs1 ++ (h :: t) :: rs2) ->
  (forall l, In l rs1 -> num_ltb (getKey h) (head_key getKey l) = true) ->
  (forall l, In l rs2 -> num_ltb (head_key getKey l) (getKey h) = false) ->
  Forall (R h) (List.concat (rs1 ++ t :: rs2)).
Proof.
  intros Hfin Hready Hbefore Hafter. apply Forall_forall. intros y Hy.
  assert (Hfin_in : forall l, In l (rs1 ++ (h :: t) :: rs2) ->
                              forall x, In x l -> finite (getKey x)).
  { intros l Hl x Hx. apply Hfin. apply in_concat. exists l. split; assumption. }
  assert (Hh : finite (getKey h)).
  { apply (Hfin_in (h :: t)); [apply in_elt|left; reflexivity]. }
  rewrite concat_app in Hy. simpl in Hy. rewrite !in_app_iff in Hy.
  destruct Hy as [Hy|[Hy|Hy]].
  - apply in_concat in Hy. destruct Hy as (l & Hl & Hyl).
    destruct l as [|hl tl0]; [destruct Hyl|].
    apply R_of_lt. eapply num_le_ltb_trans; [apply (Hbefore _ Hl)|].
    apply sorted_head_le with (t := tl0); [| |exact Hyl].
    + apply (merge_ready_sorted Hready). apply in_or_app. left. exact Hl.
    + apply Hfin_in. apply in_or_app. left. exact Hl.
  - assert (Hs : StronglySorted R (h :: t)).
    { apply (merge_ready_sorted Hready). apply in_elt. }
    apply StronglySorted_inv in Hs. destruct Hs as [_ Hall].
    rewrite Forall_forall in Hall. apply Hall, Hy.
  - pose proof (merge_ready_app_right _ _ Hready) as Hright.
    inversion Hright as [|l0 ls0 Hs Hcross Hrest]; subst.
    apply Hcross; [left; reflexivity|exact Hy|].
    apply in_concat in Hy. destruct Hy as (l & Hl & Hyl).
    destruct l as [|hl tl0]; [destruct Hyl|].
    assert (Hin : In (hl :: tl0) (rs1 ++ (h :: t) :: rs2)).
    { apply in_or_app. right. right. exact Hl. }
    apply num_le_trans with (b := getKey hl).
    + apply num_not_ltb_le.
      * apply finite_not_NaN, Hh.
      * apply finite_not_NaN. apply (Hfin_in _ Hin). left. reflexivity.
      * apply (Hafter _ Hl).
    + apply sorted_head_le with (t := tl0); [| |exact Hyl].
      * apply (merge_ready_sorted Hready), Hin.
      * apply Hfin_in, Hin.
Qed.

Lemma head_key_not_NaN (l : list A) :
  (forall x, In x l -> finite (getKey x)) -> head_key getKey l <> NaN.
Proof.
  destruct l as [|x l]; simpl; intros H; [discriminate|].
  apply finite_not_NaN, H. left. reflexivity.
Qed.

(** While something remains, the list [minBy] selects is not exhausted. *)
Lemma winner_not_exhausted (rs1 : list (list A)) (w : list A) (rs2 : list (list A)) :
  (forall x, In x (List.concat (rs1 ++ w :: rs2)) -> finite (getKey x)) ->
  List.concat (rs1 ++ w :: rs2) <> [] ->
  (forall l, In l rs1 -> num_ltb (head_key getKey w) (head_key getKey l) = true) ->
  (forall l, In l rs2 -> num_ltb (head_key getKey l) (head_key getKey w) = false) ->
  w <> [].
Proof.
  intros Hfin Hne Hbefore Hafter ->.
  assert (Hex : exists x, In x (List.concat (rs1 ++ [] :: rs2))).
  { destruct (List.concat (rs1 ++ [] :: rs2)) as [|x rest]; [congruence|].
    exists x. left. reflexivity. }
  destruct Hex as (x & Hx). pose proof Hx as Hx'.
  rewrite concat_app in Hx'. simpl in Hx'. rewrite in_app_iff in Hx'.
  destruct Hx' as [Hx'|Hx']; apply in_concat in Hx'; destruct Hx' as (l & Hl & Hxl).
  - specialize (Hbefore _ Hl). simpl in Hbefore.
    destruct (head_key getKey l); discriminate.
  - specialize (Hafter _ Hl). destruct l as [|hl tl0]; [destruct Hxl|].
    simpl in Hafter. rewrite finite_ltb_PosInf in Hafter; [discriminate|].
    apply Hfin. apply in_concat. exists (hl :: tl0).
    split; [apply in_or_app; right; right; exact Hl|left; reflexivity].
Qed.

Lemma mergeBy_loop_sorted (n : nat) :
  forall fingerArrays,
    (forall x, In x (List.concat (map (@remaining A) fingerArrays)) -> finite (getKey x)) ->
    merge_ready getKey R (map (@remaining A) fingerArrays) ->
    List.length (List.concat (map (@remaining A) fingerArrays)) = n ->
    exists r,
      mergeBy_loop (getFingerArrayBy getKey) n fingerArrays = Some (map Some r)
      /\ Permutation r (List.concat (map (@remaining A) fingerArrays))
      /\ StronglySorted R r.
Proof.
  induction n as [|n IH]; intros fas Hfin Hready Hlen.
  - exists []. simpl. apply length_zero_iff_nil in Hlen. rewrite Hlen.
    repeat split; constructor.
  - assert (Hne : fas <> []) by (intros ->; discriminate).
    destruct (@minBy_spec _ (getFingerArrayBy getKey) fas Hne)
      as (f1 & w & f2 & Hfas & Hmin & Hbefore & Hafter).
    { intros f Hf. rewrite getFingerArrayBy_remaining. apply head_key_not_NaN.
      intros x Hx. apply Hfin, in_concat. exists (remaining f).
      split; [apply in_map, Hf|exact Hx]. }
    subst fas. rewrite map_app in *. simpl map in *.
    assert (Hb : forall l, In l (map (@remaining A) f1) ->
                 num_ltb (head_key getKey (remaining w)) (head_key getKey l) = true).
    { intros l Hl. apply in_map_iff in Hl. destruct Hl as (f & <- & Hf).
      rewrite <- !getFingerArrayBy_remaining. apply Hbefore, Hf. }
    assert (Ha : forall l, In l (map (@remaining A) f2) ->
                 num_ltb (head_key getKey l) (head_key getKey (remaining w)) = false).
    { intros l Hl. apply in_map_iff in Hl. destruct Hl as (f & <- & Hf).
      rewrite <- !getFingerArrayBy_remaining. apply Hafter, Hf. }
    assert (Hw : remaining w <> []).
    { apply winner_not_exhausted with (rs1 := map (@remaining A) f1)
                                      (rs2 := map (@remaining A) f2); auto.
      intros Hnil. rewrite Hnil in Hlen. discriminate. }
    destruct (remaining w) as [|h t] eqn:Hrem; [congruence|]. clear Hw.
    set (w' := {| pointer := S (pointer w); array := array w |}).
    assert (Hrem' : remaining w' = t).
    { unfold remaining, w'. simpl pointer. simpl array.
      rewrite skipn_S_tl. unfold remaining in Hrem. rewrite Hrem. reflexivity. }
    assert (Hperm : Permutation (h :: List.concat (map (@remaining A) f1 ++ t :: map (@remaining A) f2))
                      (List.concat (map (@remaining A) f1 ++ (h :: t) :: map (@remaining A) f2))).
    { rewrite !concat_app. simpl. apply Permutation_middle. }
    destruct (IH (f1 ++ w' :: f2)) as (r & Hr & Hp & Hs).
    + intros x Hx. apply Hfin. rewrite map_app in Hx. simpl map in Hx.
      rewrite Hrem' in Hx. eapply in_concat_middle; [|exact Hx].
      intros z Hz. right. exact Hz.
    + rewrite map_app. simpl map. rewrite Hrem'.
      apply merge_ready_shrink with (l := h :: t); [exact Hready| |].
      * pose proof (merge_ready_sorted Hready (h :: t) (in_elt _ _ _)) as Hs.
        apply StronglySorted_inv in Hs. tauto.
      * intros z Hz. right. exact Hz.
    + rewrite map_app. simpl map. rewrite Hrem'.
      apply Permutation_length in Hperm. simpl in Hperm. lia.
    + exists (h :: r). simpl mergeBy_loop. rewrite Hmin, nth_error_middle, advance_middle.
      fold w'. rewrite Hr. rewrite getPointedFinger_remaining, Hrem. simpl.
      split; [reflexivity|]. rewrite map_app in Hp. simpl map in Hp. rewrite Hrem' in Hp.
      split.
      * rewrite <- Hperm. constructor. exact Hp.
      * constructor; [exact Hs|].
        eapply Permutation_Forall; [apply Permutation_sym, Hp|].
        apply winner_first; auto.
Qed.

Lemma mergeBy_sorted (arrays : list (list A)) :
  (forall x, In x (List.concat arrays) -> finite (getKey x)) ->
  merge_ready getKey R arrays ->
  exists r,
    mergeBy (getFingerArrayBy getKey) arrays = Some (map Some r)
    /\ Permutation r (List.concat arrays)
    /\ StronglySorted R r.
Proof.
  intros Hfin Hready. unfold mergeBy.
  destruct (@mergeBy_loop_sorted (List.length (List.concat arrays))
              (map (@mkFingerArray A) arrays)) as (r & Hr & Hp & Hs).
  - rewrite remaining_mkFingerArray. exact Hfin.
  - rewrite remaining_mkFingerArray. exact Hready.
  - rewrite remaining_mkFingerArray. reflexivity.
  - exists r. rewrite total_length. rewrite remaining_mkFingerArray in Hp. auto.
Qed.

End MergeCorrect.

(** ** Claims about [mergeBy] *)

Lemma key_le_trans (A : Type) (getKey : A -> num) :
  forall x y z, key_le getKey x y -> key_le getKey y z -> key_le getKey x z.
Proof. intros x y z. apply num_le_trans. Qed.

Lemma sorted_merge_ready (A : Type) (getKey : A -> num) (arrays : list (list A)) :
  (forall a, In a arrays -> Sorted (key_le getKey) a) ->
  merge_ready getKey (key_le getKey) arrays.
Proof.
  induction arrays as [|a arrays IH]; intros Hs; constructor.
  - apply Sorted_StronglySorted; [exact (@key_le_trans A getKey)|].
    apply Hs. left. reflexivity.
  - intros x y _ _ Hle. exact Hle.
  - apply IH. intros b Hb. apply Hs. right. exact Hb.
Qed.

(** C10.  For every array of sequences, each sorted ascending by the key
    projection and with only finite keys, [mergeBy] returns normally, its
    result holds no [SYMBOL_NOTHING] (it is [map Some result]), it holds
    every input element exactly once (a permutation of the concatenated
    inputs), and it is sorted ascending by key. *)
Theorem mergeBy_merges_sorted_finite (A : Type) (getKey : A -> num)
    (arrays : list (list A)) :
  (forall a, In a arrays -> Sorted (key_le getKey) a) ->
  (forall a x, In a arrays -> In x a -> finite (getKey x)) ->
  exists result,
    mergeBy (getFingerArrayBy getKey) arrays = Some (map Some result)
    /\ Permutation result (List.concat arrays)
    /\ Sorted (key_le getKey) result.
Proof.
  intros Hsorted Hfinite.
  destruct (@mergeBy_sorted A getKey (key_le getKey)) with (arrays := arrays)
    as (r & Hr & Hp & Hs).
  - intros x y. apply num_ltb_le.
  - intros x y _ _ H. exact H.
  - intros x Hx. apply in_concat in Hx. destruct Hx as (a & Ha & Hxa).
    exact (Hfinite a x Ha Hxa).
  - apply sorted_merge_ready, Hsorted.
  - exists r. repeat split; try assumption. apply StronglySorted_Sorted, Hs.
Qed.

Lemma mergeBy_merges_sorted_finite_witness :
  exists result,
    mergeBy (getFingerArrayBy Fin) [[1; 4]; []; [2; 3; 4]]%Z = Some (map Some result)
    /\ Permutation result (List.concat [[1; 4]; []; [2; 3; 4]]%Z)
    /\ Sorted (key_le Fin) result.
Proof.
  apply mergeBy_merges_sorted_finite.
  - intros a [<-|[<-|[<-|[]]]]; repeat constructor; unfold key_le; simpl; lia.
  - intros a x _ _. exists x. reflexivity.
Defined.

(** ** [mergeBy] commutes with a map over the elements *)

Section MergeMap.

Variables A B : Type.
Variable f : A -> B.
Variable getKey : B -> num.









End MergeMap.

(** ** The merge across a lineage *)






(** ** The dispatcher launches from the end of the list *)

Lemma evaluateLatch_i (resolver : Resolver) (options : Options) :
  i (evaluateLatch resolver options) = i resolver.
Proof.
  unfold evaluateLatch.
  destruct (settled resolver); [reflexivity|].
  destruct (latch_rejects _ _ _ _ _); [reflexivity|].
  destruct (latch_fulfills _ _ _ _ _); [|reflexivity].
  destruct (settlementLatch options); reflexivity.
Qed.

Lemma push_value_i (u : use) (v : value) (resolver : Resolver) :
  i (push_value u v resolver) = i resolver.
Proof. destruct u; reflexivity. Qed.




Lemma all_patient_at_once (d t : value) (subs : list (option subscription))
    (s : subscription) :
  all_patient d t subs = true -> In (Some s) subs -> at_once s d t = None.
Proof.
  intros Hall Hs. unfold all_patient in Hall.
  pose proof (proj1 (forallb_forall _ _) Hall _ Hs) as H. simpl in H.
  unfold patient in H. destruct (at_once s d t); [discriminate|reflexivity].
Qed.

Lemma resume_loop_eq (stack fuel : nat) (t d : value) (options : Options)
    (subs : list (option subscription)) (resolver : Resolver) :
  resume_loop stack fuel t d options subs resolver
  = resume_with
      match stack with
      | O => None
      | S stack' =>
          Some (fun r => resume_loop stack' (Z.to_nat (i r + 1)) t d options subs r)
      end
      fuel t d options subs resolver.
Proof. destruct stack; reflexivity. Qed.



(** [resolver.i] never goes up in a dispatch. *)
Lemma resolveUse_i (dispatch : option (Resolver -> dispatched)) (options : Options)
    (u : use) (v : value) (resolver : Resolver) :
  (forall resume r, dispatch = Some resume -> (i (d_resolver (resume r)) <= i r)%Z) ->
  (i (d_resolver (resolveUse dispatch options u v resolver)) <= i resolver)%Z.
Proof.
  intros Hdispatch. unfold resolveUse.
  destruct (settled resolver && negb (updateAfterSettlement options)); [simpl; lia|].
  destruct (0 <=? i (push_value u v resolver))%Z.
  - destruct dispatch as [resume|].
    + rewrite (Hdispatch resume _ eq_refl), push_value_i. lia.
    + simpl. rewrite push_value_i. lia.
  - simpl. rewrite evaluateLatch_i, push_value_i. lia.
Qed.

Lemma resume_with_i (dispatch : option (Resolver -> dispatched)) (t d : value)
    (options : Options) (subs : list (option subscription)) :
  (forall resume r, dispatch = Some resume -> (i (d_resolver (resume r)) <= i r)%Z) ->
  forall fuel resolver,
    (i (d_resolver (resume_with dispatch fuel t d options subs resolver)) <= i resolver)%Z.
Proof.
  intros Hdispatch. induction fuel as [|fuel IH]; intros resolver; simpl; [lia|].
  destruct ((0 <=? i resolver)%Z && (pending (promise resolver) <? semaphor options)%float);
    [|simpl; lia].
  destruct (nth_error subs (Z.to_nat (i resolver))) as [[s|]|]; try (simpl; lia).
  destruct (negb (suspended s)).
  - destruct (at_once s d t) as [[u v]|].
    + pose proof (@resolveUse_i dispatch options u v (add_pending resolver 1) Hdispatch)
        as Hcalled.
      destruct (d_raised (resolveUse dispatch options u v (add_pending resolver 1))).
      * simpl in *. lia.
      * cbv zeta. cbn [d_resolver].
        pose proof (IH (set_i (d_resolver (resolveUse dispatch options u v
                                             (add_pending resolver 1)))
                          (i (d_resolver (resolveUse dispatch options u v
                                            (add_pending resolver 1))) - 1))) as Hrest.
        simpl in *. lia.
    + cbv zeta. cbn [d_resolver].
      pose proof (IH (set_i (add_pending resolver 1) (i (add_pending resolver 1) - 1)))
        as Hrest.
      simpl in *. lia.
  - pose proof (IH (set_i resolver (i resolver - 1))) as Hrest. simpl in *. lia.
Qed.

Lemma resume_loop_i (t d : value) (options : Options) (subs : list (option subscription)) :
  forall stack fuel resolver,
    (i (d_resolver (resume_loop stack fuel t d options subs resolver)) <= i resolver)%Z.
Proof.
  induction stack as [|stack IH]; intros fuel resolver; rewrite resume_loop_eq;
    apply resume_with_i.
  - discriminate.
  - intros resume r Hresume. injection Hresume as <-. apply IH.
Qed.

(** The loop of [resumeSubscriptionDispatcher] has run to its end once
    [resolver.i + 1] iterations are allowed: more fuel changes nothing. *)
Lemma resume_with_fuel (dispatch : option (Resolver -> dispatched)) (t d : value)
    (opts : Options) (subs : list (option subscription)) :
  (forall resume r, dispatch = Some resume -> (i (d_resolver (resume r)) <= i r)%Z) ->
  forall fuel extra resolver,
    (i resolver + 1 <= Z.of_nat fuel)%Z ->
    resume_with dispatch (fuel + extra) t d opts subs resolver
    = resume_with dispatch fuel t d opts subs resolver.
Proof.
  intros Hdispatch.
  induction fuel as [|fuel IH]; intros extra resolver Hfuel.
  - destruct extra as [|extra]; [reflexivity|]. simpl.
    replace (0 <=? i resolver)%Z with false by (symmetry; apply Z.leb_gt; lia).
    reflexivity.
  - simpl.
    destruct ((0 <=? i resolver)%Z && (pending (promise resolver) <? semaphor opts)%float);
      [|reflexivity].
    destruct (nth_error subs (Z.to_nat (i resolver))) as [[s|]|]; try reflexivity.
    destruct (negb (suspended s)).
    + destruct (at_once s d t) as [[u v]|].
      * pose proof (@resolveUse_i dispatch opts u v (add_pending resolver 1) Hdispatch)
          as Hcalled.
        destruct (d_raised (resolveUse dispatch opts u v (add_pending resolver 1)));
          [reflexivity|].
        rewrite IH; [reflexivity|]. simpl in *. lia.
      * rewrite IH; [reflexivity|]. simpl. lia.
    + apply IH. simpl. lia.
Qed.

Lemma resume_loop_fuel (stack : nat) (t d : value) (opts : Options)
    (subs : list (option subscription)) (fuel extra : nat) (resolver : Resolver) :
  (i resolver + 1 <= Z.of_nat fuel)%Z ->
  resume_loop stack (fuel + extra) t d opts subs resolver
  = resume_loop stack fuel t d opts subs resolver.
Proof.
  rewrite !resume_loop_eq. apply resume_with_fuel.
  destruct stack as [|stack]; [discriminate|].
  intros resume r Hresume. injection Hresume as <-. apply resume_loop_i.
Qed.




(** ** Well-formed brokers *)

Lemma nth_error_update_nth (T : Type) (f : T -> T) (l : list T) :
  forall k j,
    nth_error (update_nth k f l) j
    = if Nat.eqb j k then option_map f (nth_error l j) else nth_error l j.
Proof.
  induction l as [|x l IH]; intros k j.
  - destruct k as [|k'], j as [|j']; simpl; try reflexivity.
    destruct (Nat.eqb j' k'); reflexivity.
  - destruct k as [|k'], j as [|j']; simpl; try reflexivity. apply IH.
Qed.

Lemma tree_all_child (P : node -> Prop) (root : node) (idx : nat) (c : node) :
  tree_all P root -> nth_error (children root) idx = Some c -> tree_all P c.
Proof.
  intros H Hc r n Hn. apply (H (idx :: r)). simpl. rewrite Hc. exact Hn.
Qed.

Lemma tree_all_intro (P : node -> Prop) (root : node) :
  P root ->
  (forall idx c, nth_error (children root) idx = Some c -> tree_all P c) ->
  tree_all P root.
Proof.
  intros Hroot Hchildren [|idx r] n Hn; simpl in Hn.
  - injection Hn as <-. exact Hroot.
  - destruct (nth_error (children root) idx) as [c|] eqn:Hc; [|discriminate].
    exact (Hchildren _ _ Hc _ _ Hn).
Qed.

Lemma tree_all_impl (P Q : node -> Prop) (root : node) :
  (forall n, P n -> Q n) -> tree_all P root -> tree_all Q root.
Proof. intros H Hroot r n Hn. apply H, (Hroot r n Hn). Qed.

(** A write through a reference, when the tree satisfies [P] before and
    the written node satisfies [Q] after, with [Q] weaker than [P]. *)
Lemma tree_all_modify (P Q : node -> Prop) (f : node -> node) :
  (forall n, P n -> Q n) ->
  (forall n cs, Q n -> Q (set_children n cs)) ->
  (forall n, tree_all P n -> tree_all Q (f n)) ->
  forall r root, tree_all P root -> tree_all Q (modify r f root).
Proof.
  intros HPQ HQ Hf. induction r as [|idx r IH]; intros root Hroot; simpl; [apply Hf, Hroot|].
  apply tree_all_intro.
  - apply HQ, HPQ. apply (Hroot [] root). reflexivity.
  - intros j c. simpl. rewrite nth_error_update_nth.
    destruct (Nat.eqb j idx) eqn:E.
    + apply Nat.eqb_eq in E. subst j.
      destruct (nth_error (children root) idx) as [c0|] eqn:Hc0; [|discriminate].
      simpl. intros H. injection H as <-. apply IH.
      exact (@tree_all_child P root idx c0 Hroot Hc0).
    + intros Hc. apply (@tree_all_impl P Q c HPQ).
      exact (@tree_all_child P root j c Hroot Hc).
Qed.

Section TreeAll.

Variable P : node -> Prop.
Hypothesis P_children : forall n cs, P n -> P (set_children n cs).

Lemma tree_all_createNode (t : string) : P (createNode t) -> tree_all P (createNode t).
Proof.
  intros H. apply tree_all_intro; [exact H|].
  intros idx c Hc. simpl in Hc. destruct idx; discriminate.
Qed.

Lemma tree_all_splice_child (n child : node) (index : nat) :
  tree_all P n -> tree_all P child ->
  tree_all P (set_children n (splice_in index child (children n))).
Proof.
  intros Hn Hchild. apply tree_all_intro.
  - apply P_children. apply (Hn [] n). reflexivity.
  - intros j c Hc. simpl in Hc. apply nth_error_In in Hc.
    unfold splice_in in Hc. apply in_app_or in Hc.
    destruct Hc as [Hc|[<-|Hc]]; [|exact Hchild|].
    + assert (Hin : In c (children n)).
      { rewrite <- (firstn_skipn index (children n)). apply in_or_app. left. exact Hc. }
      apply In_nth_error in Hin. destruct Hin as [k Hk].
      exact (@tree_all_child P n k c Hn Hk).
    + assert (Hin : In c (children n)).
      { rewrite <- (firstn_skipn index (children n)). apply in_or_app. right. exact Hc. }
      apply In_nth_error in Hin. destruct Hin as [k Hk].
      exact (@tree_all_child P n k c Hn Hk).
Qed.

Lemma tree_all_addChild (newChild root : node) (tree : ref) :
  tree_all P root -> tree_all P newChild ->
  tree_all P (fst (addChild getTopic newChild root tree)).
Proof.
  intros Hroot Hchild. unfold addChild.
  destruct (deref root tree) as [t|]; [|exact Hroot]. simpl.
  apply (@tree_all_modify P P); [auto|exact P_children| |exact Hroot].
  intros n Hn. apply tree_all_splice_child; assumption.
Qed.

Hypothesis P_createNode : forall t, P (createNode t).

Lemma tree_all_addFamilyLine (topics : list string) :
  forall root tree,
    tree_all P root ->
    tree_all P (fst (addFamilyLine addChildTopic (map createNode topics) root tree)).
Proof.
  unfold addFamilyLine.
  induction topics as [|t topics IH]; intros root tree Hroot; simpl; [exact Hroot|].
  destruct (addChildTopic root tree (createNode t)) as [root' tree'] eqn:E.
  apply IH. change root' with (fst (root', tree')). rewrite <- E.
  apply tree_all_addChild; [exact Hroot|]. apply tree_all_createNode, P_createNode.
Qed.

Lemma tree_all_addTopicLine (t : string) (root : node) (ancestor : ref) :
  tree_all P root -> tree_all P (fst (addTopicLine t root ancestor)).
Proof.
  intros Hroot. unfold addTopicLine.
  destruct (deref root ancestor) as [a|]; [|exact Hroot].
  apply tree_all_addFamilyLine, Hroot.
Qed.

End TreeAll.

Lemma tree_all_same_children (P Q : node -> Prop) (n n' : node) :
  (forall m, P m -> Q m) ->
  children n' = children n ->
  tree_all P n -> Q n' -> tree_all Q n'.
Proof.
  intros HPQ Hchildren Hn Hn'. apply tree_all_intro; [exact Hn'|].
  intros j c Hc. rewrite Hchildren in Hc. apply (@tree_all_impl P Q c HPQ).
  exact (@tree_all_child P n j c Hn Hc).
Qed.

Lemma deref_empty_persisted (r : ref) :
  forall n,
    deref (empty_persisted_descendents n) r
    = option_map empty_persisted_descendents (deref n r).
Proof.
  induction r as [|idx r IH]; intros n; destruct n as [t ss cs ps]; simpl; [reflexivity|].
  rewrite nth_error_map. destruct (nth_error cs idx); simpl; [apply IH|reflexivity].
Qed.

(** The write both [subscribe] and the persisting dispatcher perform:
    [addTopicLine], then a change [f] of the node it returns that leaves
    the children alone.  [P] holds of the nodes before, and [Q], weaker
    than [P], after. *)
Lemma addTopicLine_modify_tree_all (P Q : node -> Prop) (f : node -> node)
    (t : string) (root : node) (ancestor : ref) :
  (forall n, P n -> Q n) ->
  (forall n cs, P n -> P (set_children n cs)) ->
  (forall n cs, Q n -> Q (set_children n cs)) ->
  (forall t', P (createNode t')) ->
  (forall n, children (f n) = children n) ->
  (forall n, P n -> Q (f n)) ->
  tree_all P root ->
  tree_all Q (modify (snd (addTopicLine t root ancestor)) f
                (fst (addTopicLine t root ancestor))).
Proof.
  intros PQ P_children Q_children P_createNode Hchildren Hf Hroot.
  apply (@tree_all_modify P Q); auto.
  - intros n Hn. apply (@tree_all_same_children P Q n); auto.
    apply Hf. apply (Hn [] n). reflexivity.
  - apply tree_all_addTopicLine; assumption.
Qed.

(** The broker [subscribe] leaves behind: the one it was given when the
    topic is not a string, and otherwise the one with the subscription
    inserted and the next id taken. *)
Lemma subscribe_state_cases (state : Arbiter) (t : value) (f : subscriber) (o : Overrides)
    (ctx : value) :
  sr_state (subscribe state t f o ctx) = state
  \/ exists topicString,
       t = VStr topicString
       /\ sr_state (subscribe state t f o ctx)
          = {| _topics :=
                 modify (snd (addTopicLine topicString (_topics state)
                                (ancestorTopicSearch topicString (_topics state))))
                   (fun n => set_subscriptions n
                               (insert getPriority
                                  (createSubscription (next_id state) f
                                     (merge (state_options state) o) ctx)
                                  (subscriptions n)))
                   (fst (addTopicLine topicString (_topics state)
                           (ancestorTopicSearch topicString (_topics state))));
               options := state_options state;
               next_id := (next_id state + 1)%Z |}.
Proof.
  unfold subscribe.
  destruct (assert _ _ _ _ _); [|left; reflexivity].
  destruct t as [| | | |topicString]; try (left; reflexivity).
  right. exists topicString. split; [reflexivity|]. cbv zeta.
  destruct (negb _); [|reflexivity].
  destruct (deref _ _); [|reflexivity].
  destruct (mergeBy _ _); [|reflexivity].
  destruct (replay _ _) as [delivered [e|]]; reflexivity.
Qed.

(** The broker [hierarchicalTopicDispatcher] leaves behind: the one it
    was given, or one with the next id taken and, when the lineage is not
    empty, the message appended to the node of the topic. *)
Lemma dispatcher_state_cases (stack : nat) (state : Arbiter) (t : string) (d : value) (opts : Options) :
  fst (hierarchicalTopicDispatcher stack state t d opts) = state
  \/ fst (hierarchicalTopicDispatcher stack state t d opts)
     = {| _topics := _topics state; options := state_options state;
          next_id := (next_id state + 1)%Z |}
  \/ exists topicNode,
       fst (hierarchicalTopicDispatcher stack state t d opts)
       = {| _topics :=
              modify (snd (addTopicLine t (_topics state) topicNode))
                (fun n => set_persisted n
                            (persisted n
                             ++ [ {| p_topic := t; data := d; order := next_id state |} ]))
                (fst (addTopicLine t (_topics state) topicNode));
            options := state_options state;
            next_id := (next_id state + 1)%Z |}.
Proof.
  unfold hierarchicalTopicDispatcher.
  destruct (dispatch_list _ _ _ _); [|left; reflexivity].
  destruct (subscriptionDispatcher stack _ _ _ _); [|left; reflexivity].
  destruct (persist opts); [|left; reflexivity].
  destruct (last _ _) as [topicNode|]; right; [right|left; reflexivity].
  exists topicNode. reflexivity.
Qed.

Lemma publish_state_cases (stack : nat) (state : Arbiter) (t d : value) (o : Overrides) :
  pr_state (publish stack state t d o) = state
  \/ exists topicString,
       pr_state (publish stack state t d o)
       = fst (hierarchicalTopicDispatcher stack state topicString d
                (merge (state_options state) o)).
Proof.
  unfold publish.
  destruct (assert _ _ _ _ _); [|left; reflexivity].
  destruct t as [| | | |topicString]; try (left; reflexivity).
  destruct (sync _); [|left; reflexivity].
  right. exists topicString. cbv zeta. destruct (snd _); reflexivity.
Qed.

Lemma removePersisted_tree_all (P : node -> Prop) (topics : node) (tk : removal) :
  (forall n cs, P n -> P (set_children n cs)) ->
  (forall n index, P n -> P (set_persisted n (splice_out index (persisted n)))) ->
  (forall n, P n -> P (empty_persisted_descendents n)) ->
  tree_all P topics ->
  tree_all P (fst (removePersisted topics tk)).
Proof.
  intros P_children Hsplice Hempty Hok. unfold removePersisted. destruct tk as [t|tok].
  - destruct (deref _ _) as [found|]; [|exact Hok].
    destruct (String.eqb _ _); [|exact Hok]. simpl.
    apply (@tree_all_modify P P); auto.
    intros m Hm r n' Hn'. rewrite deref_empty_persisted in Hn'.
    destruct (deref m r) as [n0|] eqn:E; [|discriminate].
    injection Hn' as <-. apply Hempty, (Hm r n0 E).
  - destruct (deref _ _) as [found|]; [|exact Hok].
    destruct (negb _); [exact Hok|].
    destruct (nth_error _ _); [|exact Hok].
    destruct (Z.eqb _ _); [|exact Hok]. simpl.
    apply (@tree_all_modify P P); auto.
    intros m Hm. apply (@tree_all_same_children P P m); auto.
    apply Hsplice. apply (Hm [] m). reflexivity.
Qed.

(** *** The subscriptions of a built broker *)

Lemma node_ok_mono (bound bound' : Z) (n : node) :
  (bound <= bound')%Z -> node_ok bound n -> node_ok bound' n.
Proof.
  intros Hle [Hok Hids]. split; [exact Hok|].
  eapply Forall_impl; [|exact Hids]. intros s Hs. simpl in Hs. lia.
Qed.

Lemma priority_of_finite (p : option num) :
  finite_priority p -> finite (priority_of p).
Proof.
  destruct p as [[| |z|]|]; simpl; try tauto; intros _.
  - exists 0%Z. reflexivity.
  - destruct (Z.eqb z 0); eexists; reflexivity.
  - exists 0%Z. reflexivity.
Qed.

Lemma in_insert (item s : subscription) (l : list subscription) :
  In s (insert getPriority item l) -> s = item \/ In s l.
Proof.
  unfold insert, splice_in. intros Hs. apply in_app_or in Hs.
  destruct Hs as [Hs|[<-|Hs]]; [right|left; reflexivity|right].
  - rewrite <- (firstn_skipn (binaryIndexBy getPriority (getPriority item) l) l).
    apply in_or_app. left. exact Hs.
  - rewrite <- (firstn_skipn (binaryIndexBy getPriority (getPriority item) l) l).
    apply in_or_app. right. exact Hs.
Qed.

Lemma subscribe_broker_ok (state : Arbiter) (t : value) (f : subscriber) (o : Overrides)
    (ctx : value) :
  broker_ok state ->
  finite_priority (opt_priority (merge (state_options state) o)) ->
  broker_ok (sr_state (subscribe state t f o ctx)).
Proof.
  intros Hok Hfin.
  destruct (subscribe_state_cases state t f o ctx) as [->|(topicString & _ & ->)];
    [exact Hok|].
  unfold broker_ok. simpl.
  apply (@addTopicLine_modify_tree_all (node_ok (next_id state))
           (node_ok (next_id state + 1))).
  - intros n. apply node_ok_mono. lia.
  - intros n cs H. exact H.
  - intros n cs H. exact H.
  - intros t'. repeat constructor.
  - intros n. reflexivity.
  - intros n [Hsubs Hids]. split; simpl.
    + apply insert_subscriptions_ok; [exact Hsubs|apply priority_of_finite, Hfin|exact Hids].
    + apply Forall_forall. intros s Hs. apply in_insert in Hs.
      rewrite Forall_forall in Hids. destruct Hs as [->|Hs]; [simpl; lia|].
      specialize (Hids _ Hs). lia.
  - exact Hok.
Qed.

Lemma hierarchicalTopicDispatcher_broker_ok (stack : nat) (state : Arbiter) (t : string) (d : value)
    (opts : Options) :
  broker_ok state -> broker_ok (fst (hierarchicalTopicDispatcher stack state t d opts)).
Proof.
  intros Hok.
  assert (Hmono : forall n, node_ok (next_id state) n -> node_ok (next_id state + 1) n).
  { intros n. apply node_ok_mono. lia. }
  destruct (dispatcher_state_cases stack state t d opts) as [->|[->|(topicNode & ->)]].
  - exact Hok.
  - exact (@tree_all_impl _ _ (_topics state) Hmono Hok).
  - unfold broker_ok. simpl.
    apply (@addTopicLine_modify_tree_all (node_ok (next_id state))
             (node_ok (next_id state + 1))).
    + exact Hmono.
    + intros n cs H. exact H.
    + intros n cs H. exact H.
    + intros t'. repeat constructor.
    + intros n. reflexivity.
    + intros n H. apply Hmono in H. exact H.
    + exact Hok.
Qed.

Lemma publish_broker_ok (stack : nat) (state : Arbiter) (t d : value) (o : Overrides) :
  broker_ok state -> broker_ok (pr_state (publish stack state t d o)).
Proof.
  intros Hok.
  destruct (publish_state_cases stack state t d o) as [->|(topicString & ->)]; [exact Hok|].
  apply hierarchicalTopicDispatcher_broker_ok, Hok.
Qed.

(** Every broker the modelled operations build is well formed. *)
Lemma built_broker_ok (state : Arbiter) : built state -> broker_ok state.
Proof.
  induction 1 as [|state t f o ctx _ IH Hfin|stack state t d o _ IH|stack state task _ IH
                  |state tk _ IH|state opts _ IH].
  - intros r n Hn. destruct r as [|idx r]; simpl in Hn.
    + injection Hn as <-. repeat constructor.
    + destruct idx; discriminate.
  - apply subscribe_broker_ok; assumption.
  - apply publish_broker_ok, IH.
  - apply hierarchicalTopicDispatcher_broker_ok, IH.
  - unfold broker_ok, set_topics. simpl. apply removePersisted_tree_all.
    + intros n cs H. exact H.
    + intros n index H. exact H.
    + intros n H. destruct n. exact H.
    + exact IH.
  - exact IH.
Qed.


(** *** The persisted messages of a built broker *)

Lemma persisted_ok_mono (bound bound' : Z) (n : node) :
  (bound <= bound')%Z -> persisted_ok bound n -> persisted_ok bound' n.
Proof.
  intros Hle [Hok Hids]. split; [exact Hok|].
  eapply Forall_impl; [|exact Hids]. intros s Hs. simpl in Hs. lia.
Qed.

Lemma persisted_ok_push (bound : Z) (n : node) (t : string) (d : value) :
  persisted_ok bound n ->
  persisted_ok (bound + 1)
    (set_persisted n (persisted n ++ [ {| p_topic := t; data := d; order := bound |} ])).
Proof.
  intros [Hsorted Hids]. split; simpl.
  - apply StronglySorted_app_iff. split; [exact Hsorted|]. split; [repeat constructor|].
    intros x y Hx [<-|[]]. rewrite Forall_forall in Hids. specialize (Hids _ Hx).
    unfold key_le, getOrder. simpl. lia.
  - apply Forall_app. split.
    + eapply Forall_impl; [|exact Hids]. intros m Hm. simpl in Hm. lia.
    + repeat constructor. simpl. lia.
Qed.

Lemma in_splice_out (T : Type) (index : nat) (l : list T) (x : T) :
  In x (splice_out index l) -> In x l.
Proof.
  unfold splice_out. intros Hx. rewrite <- (firstn_skipn index l).
  apply in_app_or in Hx. apply in_or_app. destruct Hx as [Hx|Hx]; [left; exact Hx|right].
  rewrite skipn_S_tl in Hx. destruct (skipn index l); [destruct Hx|right; exact Hx].
Qed.

Lemma splice_out_sorted (T : Type) (R : T -> T -> Prop) (index : nat) (l : list T) :
  StronglySorted R l -> StronglySorted R (splice_out index l).
Proof.
  intros Hsorted. unfold splice_out.
  rewrite <- (firstn_skipn index l) in Hsorted.
  apply StronglySorted_app_iff in Hsorted. destruct Hsorted as (H1 & H2 & Hcross).
  apply StronglySorted_app_iff. split; [exact H1|]. split.
  - rewrite skipn_S_tl. destruct (skipn index l); [constructor|].
    apply StronglySorted_inv in H2. apply H2.
  - intros x y Hx Hy. apply Hcross; [exact Hx|].
    rewrite skipn_S_tl in Hy. destruct (skipn index l); [destruct Hy|right; exact Hy].
Qed.

Lemma persisted_ok_splice_out (bound : Z) (n : node) (index : nat) :
  persisted_ok bound n ->
  persisted_ok bound (set_persisted n (splice_out index (persisted n))).
Proof.
  intros [Hsorted Hids]. split.
  - exact (splice_out_sorted index Hsorted).
  - apply Forall_forall. intros m Hm. rewrite Forall_forall in Hids.
    apply Hids. exact (in_splice_out _ _ _ Hm).
Qed.

Lemma subscribe_store_ok (state : Arbiter) (t : value) (f : subscriber) (o : Overrides)
    (ctx : value) :
  store_ok state -> store_ok (sr_state (subscribe state t f o ctx)).
Proof.
  intros Hok.
  destruct (subscribe_state_cases state t f o ctx) as [->|(topicString & _ & ->)];
    [exact Hok|].
  unfold store_ok. simpl.
  apply (@addTopicLine_modify_tree_all (persisted_ok (next_id state))
           (persisted_ok (next_id state + 1))).
  - intros n. apply persisted_ok_mono. lia.
  - intros n cs H. exact H.
  - intros n cs H. exact H.
  - intros t'. repeat constructor.
  - intros n. reflexivity.
  - intros n H. apply (@persisted_ok_mono (next_id state)); [lia|exact H].
  - exact Hok.
Qed.

Lemma hierarchicalTopicDispatcher_store_ok (stack : nat) (state : Arbiter) (t : string) (d : value)
    (opts : Options) :
  store_ok state -> store_ok (fst (hierarchicalTopicDispatcher stack state t d opts)).
Proof.
  intros Hok.
  assert (Hmono : forall n, persisted_ok (next_id state) n ->
                            persisted_ok (next_id state + 1) n).
  { intros n. apply persisted_ok_mono. lia. }
  destruct (dispatcher_state_cases stack state t d opts) as [->|[->|(topicNode & ->)]].
  - exact Hok.
  - exact (@tree_all_impl _ _ (_topics state) Hmono Hok).
  - unfold store_ok. simpl.
    apply (@addTopicLine_modify_tree_all (persisted_ok (next_id state))
             (persisted_ok (next_id state + 1))).
    + exact Hmono.
    + intros n cs H. exact H.
    + intros n cs H. exact H.
    + intros t'. repeat constructor.
    + intros n. reflexivity.
    + intros n. apply persisted_ok_push.
    + exact Hok.
Qed.

Lemma built_store_ok (state : Arbiter) : built state -> store_ok state.
Proof.
  induction 1 as [|state t f o ctx _ IH Hfin|stack state t d o _ IH|stack state task _ IH
                  |state tk _ IH|state opts _ IH].
  - intros r n Hn. destruct r as [|idx r]; simpl in Hn.
    + injection Hn as <-. repeat constructor.
    + destruct idx; discriminate.
  - apply subscribe_store_ok, IH.
  - destruct (publish_state_cases stack state t d o) as [->|(topicString & ->)]; [exact IH|].
    apply hierarchicalTopicDispatcher_store_ok, IH.
  - apply hierarchicalTopicDispatcher_store_ok, IH.
  - unfold store_ok, set_topics. simpl. apply removePersisted_tree_all.
    + intros n cs H. exact H.
    + intros n index. apply persisted_ok_splice_out.
    + intros n _. destruct n. repeat constructor.
    + exact IH.
  - exact IH.
Qed.

(** X2.  In every broker built by [create], [subscribe] with a finite
    priority, [publish], a deferred dispatch and [removePersisted], each
    node keeps its subscriptions in ascending priority, the newest first
    among equal priorities, and its persisted messages in ascending order;
    every id and order in the tree was handed out by the generator. *)
Theorem built_brokers_keep_lists_sorted (state : Arbiter) (r : ref) (n : node) :
  built state ->
  deref (_topics state) r = Some n ->
  StronglySorted node_order (subscriptions n)
  /\ Forall (fun s => finite (priority s) /\ (id s < next_id state)%Z) (subscriptions n)
  /\ Sorted (key_le getOrder) (persisted n)
  /\ Forall (fun m => (order m < next_id state)%Z) (persisted n).
Proof.
  intros Hbuilt Hn.
  pose proof (built_broker_ok Hbuilt) as Hbroker.
  pose proof (built_store_ok Hbuilt) as Hstore.
  destruct (Hbroker r n Hn) as [[Hsorted Hfinite] Hids].
  destruct (Hstore r n Hn) as [Hpersisted Horders].
  split; [exact Hsorted|]. split; [|split; [apply StronglySorted_Sorted, Hpersisted|exact Horders]].
  rewrite Forall_forall in *. intros s Hs. split; [apply Hfinite|apply Hids]; exact Hs.
Qed.

Lemma built_brokers_keep_lists_sorted_witness :
  StronglySorted node_order
    [createSubscription first_id (SFun noop) (state_options create) VUndefined;
     createSubscription (first_id + 2) (SFun noop)
       (merge (state_options create) (priority_call 5)) VUndefined]
  /\ Forall (fun s => finite (priority s) /\ (id s < next_id lineage_broker)%Z)
       [createSubscription first_id (SFun noop) (state_options create) VUndefined;
        createSubscription (first_id + 2) (SFun noop)
          (merge (state_options create) (priority_call 5)) VUndefined]
  /\ Sorted (key_le getOrder) []
  /\ Forall (fun m => (order m < next_id lineage_broker)%Z) [].
Proof.
  apply (@built_brokers_keep_lists_sorted lineage_broker [0]
           {| topic := "a";
              subscriptions :=
                [createSubscription first_id (SFun noop) (state_options create) VUndefined;
                 createSubscription (first_id + 2) (SFun noop)
                   (merge (state_options create) (priority_call 5)) VUndefined];
              children :=
                [ {| topic := "a.b";
                     subscriptions :=
                       [createSubscription (first_id + 1) (SFun noop)
                          (state_options create) VUndefined];
                     children := []; persisted := [] |} ];
              persisted := [] |}).
  - unfold lineage_broker, after_subscribe.
    repeat (apply built_subscribe; [|exact I]). apply built_create.
  - vm_compute. reflexivity.
Defined.

(** ** Claims about the latch *)

Lemma latch_rejects_spec (sl : bool) (L F R P : float) :
  latch_rejects sl L F P R = true <-> spec_rejects sl L F R P.
Proof.
  unfold latch_rejects, spec_rejects.
  destruct sl, (1 <=? L)%float, (L <? 1)%float, (F + P <? L)%float,
    ((F + P) / (F + P + R) <? L)%float, (F + P + R <? L)%float,
    (F + P + R =? 0)%float; simpl; intuition congruence.
Qed.

Lemma latch_fulfills_spec (sl : bool) (L F R P : float) :
  latch_fulfills sl L F P R = true <-> spec_fulfills sl L F R P.
Proof.
  unfold latch_fulfills, spec_fulfills.
  destruct sl, (1 <=? L)%float, (L <? 1)%float, (L <=? F)%float,
    (L <=? F / (F + P + R))%float, (L <=? F + R)%float,
    (L <=? (F + R) / (F + P + R))%float; simpl; intuition congruence.
Qed.

(** C2.  On an unsettled publication a latch evaluation settles it as
    rejected, with the rejected-values list, exactly when one of the four
    reject rules holds; otherwise it settles it as fulfilled exactly when
    one of the four fulfil rules holds, with the fulfilled-values list
    under a fulfilment latch and with the fulfilled values followed by the
    rejected values under a settlement latch; otherwise it changes
    nothing. *)
Theorem evaluateLatch_follows_latch_rules (resolver : Resolver) (options : Options) :
  settled resolver = false ->
  status (promise resolver) = Pending ->
  let sl := settlementLatch options in
  let L := latch options in
  let F := fulfilled (promise resolver) in
  let R := rejected (promise resolver) in
  let P := pending (promise resolver) in
  let after := evaluateLatch resolver options in
  (spec_rejects sl L F R P <-> settled_rejected after (rejectedValues resolver))
  /\ (spec_rejects sl L F R P <-> exists values, settled_rejected after values)
  /\ (~ spec_rejects sl L F R P ->
      (spec_fulfills sl L F R P
       <-> settled_fulfilled after
             (if sl then fulfilledValues resolver ++ rejectedValues resolver
              else fulfilledValues resolver))
      /\ (spec_fulfills sl L F R P <-> exists values, settled_fulfilled after values))
  /\ (~ spec_rejects sl L F R P -> ~ spec_fulfills sl L F R P -> after = resolver).
Proof.
  intros Hsettled Hpending sl L F R P after.
  pose proof (latch_rejects_spec sl L F R P) as Hr.
  pose proof (latch_fulfills_spec sl L F R P) as Hf.
  subst after. unfold evaluateLatch. rewrite Hsettled.
  fold sl L F R P.
  destruct (latch_rejects sl L F P R) eqn:Er.
  - assert (Hyes : spec_rejects sl L F R P) by (apply Hr; reflexivity).
    assert (Hnow : settled_rejected (settle_with resolver (Rejected TheRejectedValues))
                     (rejectedValues resolver)).
    { split; [reflexivity|]. exists TheRejectedValues. simpl.
      unfold settle_promise. rewrite Hpending. simpl. split; reflexivity. }
    split; [tauto|].
    split; [split; [intros _; eexists; exact Hnow|intros _; exact Hyes]|].
    split; intros Hc; destruct (Hc Hyes).
  - assert (Hno : ~ spec_rejects sl L F R P).
    { intros H. apply Hr in H. discriminate. }
    assert (Hnot : forall r values,
               status (promise r) <> Rejected TheRejectedValues ->
               (forall s, status (promise r) = Rejected s -> False) ->
               ~ settled_rejected r values).
    { intros r values _ H (_ & s & Hs & _). exact (H s Hs). }
    destruct (latch_fulfills sl L F P R) eqn:Ef.
    + assert (Hyes : spec_fulfills sl L F R P) by (apply Hf; reflexivity).
      assert (Hnow : settled_fulfilled
                (if sl
                 then settle_with resolver
                        (Fulfilled (Fresh (fulfilledValues resolver ++ rejectedValues resolver)))
                 else settle_with resolver (Fulfilled TheFulfilledValues))
                (if sl then fulfilledValues resolver ++ rejectedValues resolver
                 else fulfilledValues resolver)).
      { destruct sl; (split; [reflexivity|]); eexists; simpl;
          unfold settle_promise; rewrite Hpending; simpl; split; reflexivity. }
      assert (Hrej : forall values,
                ~ settled_rejected
                    (if sl
                     then settle_with resolver
                            (Fulfilled (Fresh (fulfilledValues resolver ++ rejectedValues resolver)))
                     else settle_with resolver (Fulfilled TheFulfilledValues)) values).
      { intros values (_ & s & Hs & _). destruct sl; simpl in Hs;
          unfold settle_promise in Hs; rewrite Hpending in Hs; discriminate. }
      split; [split; [tauto|intros H; exfalso; exact (Hrej _ H)]|].
      split; [split; [tauto|intros (values & H); exfalso; exact (Hrej _ H)]|].
      split; [|tauto]. intros _. split; [tauto|].
      split; [intros _; eexists; exact Hnow|tauto].
    + assert (Hno' : ~ spec_fulfills sl L F R P).
      { intros H. apply Hf in H. discriminate. }
      assert (Hunsettled : forall values, ~ settled_rejected resolver values
                                          /\ ~ settled_fulfilled resolver values).
      { intros values. split; intros (H & _); congruence. }
      split; [split; [tauto|intros H; exfalso; exact (proj1 (Hunsettled _) H)]|].
      split; [split; [tauto|intros (values & H); exfalso; exact (proj1 (Hunsettled _) H)]|].
      split; [|reflexivity]. intros _.
      split; [split; [tauto|intros H; exfalso; exact (proj2 (Hunsettled _) H)]|].
      split; [tauto|intros (values & H); exfalso; exact (proj2 (Hunsettled _) H)].
Qed.

Lemma evaluateLatch_follows_latch_rules_witness :
  let options := merge (state_options create) latch_one_call in
  let after := evaluateLatch createResolver options in
  (spec_rejects false 1 0 0 0 <-> settled_rejected after [])
  /\ (spec_rejects false 1 0 0 0 <-> exists values, settled_rejected after values)
  /\ (~ spec_rejects false 1 0 0 0 ->
      (spec_fulfills false 1 0 0 0 <-> settled_fulfilled after [])
      /\ (spec_fulfills false 1 0 0 0 <-> exists values, settled_fulfilled after values))
  /\ (~ spec_rejects false 1 0 0 0 -> ~ spec_fulfills false 1 0 0 0 ->
      after = createResolver).
Proof.
  exact (@evaluateLatch_follows_latch_rules createResolver
           (merge (state_options create) latch_one_call) eq_refl eq_refl).
Defined.

(** C3, on the code.  With the default latch and a fulfilment latch, a
    dispatch over zero subscribers leaves the publication unsettled: the
    promise stays pending, nothing is launched, and no rule of
    [evaluateLatch] fires, since [0 / 0] is NaN and the rule [T == 0]
    belongs to the settlement latch. *)
Theorem default_latch_without_subscribers_stays_pending (stack : nat) (state : Arbiter) (t : string)
    (d : value) (options : Options) (state' : Arbiter) (pub : Publication) :
  latch options = latch (state_options create) ->
  settlementLatch options = false ->
  dispatch_list (_topics state) t options
    (findLineage getTopic isAncestorTopic t (_topics state) []) = Returned [] ->
  hierarchicalTopicDispatcher stack state t d options = (state', Returned pub) ->
  settled (pub_resolver pub) = false
  /\ status (promise (pub_resolver pub)) = Pending
  /\ pub_launched pub = []
  /\ ~ spec_rejects false (latch options) 0 0 0
  /\ ~ spec_fulfills false (latch options) 0 0 0.
Proof.
  intros Hlatch Hsl Hlist. unfold hierarchicalTopicDispatcher. rewrite Hlist.
  unfold subscriptionDispatcher, resumeSubscriptionDispatcher.
  rewrite resume_loop_eq. simpl.
  assert (Heval : evaluateLatch (set_i createResolver (-1)) options
                  = set_i createResolver (-1)).
  { unfold evaluateLatch. simpl. rewrite Hsl, Hlatch. reflexivity. }
  rewrite Heval.
  assert (Hrules : ~ spec_rejects false (latch options) 0 0 0
                   /\ ~ spec_fulfills false (latch options) 0 0 0).
  { rewrite Hlatch. split; intros H.
    - apply latch_rejects_spec in H. discriminate H.
    - apply latch_fulfills_spec in H. discriminate H. }
  destruct (persist options).
  - destruct (last (map Some (findLineage getTopic isAncestorTopic t (_topics state) [])) None);
      [|discriminate].
    intros H. injection H as _ <-. simpl. tauto.
  - intros H. injection H as _ <-. simpl. tauto.
Qed.

Lemma default_latch_without_subscribers_stays_pending_witness :
  let options := merge (state_options create) sync_call in
  let pub := match snd (hierarchicalTopicDispatcher room create "a" VUndefined options) with
             | Returned p => p
             | Raised _ => lineage_publication
             end in
  settled (pub_resolver pub) = false
  /\ status (promise (pub_resolver pub)) = Pending
  /\ pub_launched pub = []
  /\ ~ spec_rejects false (latch options) 0 0 0
  /\ ~ spec_fulfills false (latch options) 0 0 0.
Proof.
  apply (@default_latch_without_subscribers_stays_pending room create "a" VUndefined
           (merge (state_options create) sync_call) create).
  - reflexivity.
  - reflexivity.
  - vm_compute. reflexivity.
  - vm_compute. reflexivity.
Defined.

(** ** Claims about [publish] and [subscribe] *)

Lemma assert_string (t method type identifier : string) :
  assert (typeof (VStr t)) "string" method type identifier = Returned tt.
Proof. reflexivity. Qed.

(** C1, on the code.  With an effective [sync = false], [publish] on a
    string topic hands [undefined] back to its caller: [async] has no
    [return] statement.  The broker is unchanged and the dispatch is
    scheduled with the merged options. *)
Theorem publish_async_returns_undefined (stack : nat) (state : Arbiter) (t : string) (d : value)
    (o : Overrides) :
  sync (merge (state_options state) o) = false ->
  publish stack state (VStr t) d o
  = {| pr_state := state;
       pr_outcome := Returned TheUndefined;
       pr_scheduled := Some {| task_topic := t; task_data := d;
                               task_options := merge (state_options state) o |} |}.
Proof.
  intros Hsync. unfold publish. rewrite assert_string, Hsync. reflexivity.
Qed.

Lemma publish_async_returns_undefined_witness :
  publish room create (VStr "a") VUndefined no_overrides
  = {| pr_state := create;
       pr_outcome := Returned TheUndefined;
       pr_scheduled := Some {| task_topic := "a"; task_data := VUndefined;
                               task_options := merge (state_options create) no_overrides |} |}.
Proof.
  apply publish_async_returns_undefined. reflexivity.
Defined.

(** C4, on the code.  After a persisted publish on ["a"], [subscribe]
    with the string topic ["a"] and a subscriber that is not a function
    raises a TypeError from the replay loop, whatever the value passed
    for the subscriber. *)
Theorem subscribe_non_callable_raises (v : value) (o : Overrides) (ctx : value) :
  o_ignorePersisted o = None ->
  sr_outcome (subscribe persisted_broker (VStr "a") (SValue v) o ctx)
  = Raised TypeError.
Proof.
  intros Hignore. unfold subscribe. rewrite assert_string.
  assert (Hopt : ignorePersisted (merge (state_options persisted_broker) o) = false).
  { unfold merge. simpl. rewrite Hignore. reflexivity. }
  rewrite Hopt. cbv zeta. simpl negb. cbv iota.
  destruct v; vm_compute; reflexivity.
Qed.

Lemma subscribe_non_callable_raises_witness :
  sr_outcome (subscribe persisted_broker (VStr "a") (SValue VUndefined) no_overrides VUndefined)
  = Raised TypeError.
Proof.
  apply subscribe_non_callable_raises. reflexivity.
Defined.

(** X4.  With a topic that is not a string, [subscribe] and [publish]
    raise an [Error] whose message contains the word "string", and the
    broker is as it was: nothing is registered, delivered or scheduled. *)
Theorem non_string_topic_raises (stack : nat) (state : Arbiter) (t : value) (f : subscriber)
    (d : value) (o : Overrides) (ctx : value) :
  String.eqb (typeof t) "string" = false ->
  (exists message,
      subscribe state t f o ctx
      = {| sr_state := state; sr_outcome := Raised (Error message); sr_delivered := [] |}
      /\ contains "string" message)
  /\ (exists message,
         publish stack state t d o
         = {| pr_state := state; pr_outcome := Raised (Error message);
              pr_scheduled := None |}
         /\ contains "string" message).
Proof.
  intros Htopic. split.
  - exists "Arbiter.subscribe only accepts strings as topics"%string. split.
    + unfold subscribe, assert. rewrite Htopic. reflexivity.
    + exists "Arbiter.subscribe only accepts "%string, "s as topics"%string. reflexivity.
  - exists "Arbiter.publish only accepts strings as topics"%string. split.
    + unfold publish, assert. rewrite Htopic. reflexivity.
    + exists "Arbiter.publish only accepts "%string, "s as topics"%string. reflexivity.
Qed.

Lemma non_string_topic_raises_witness :
  (exists message,
      subscribe create (VNum (Fin 5)) (SFun noop) no_overrides VUndefined
      = {| sr_state := create; sr_outcome := Raised (Error message); sr_delivered := [] |}
      /\ contains "string" message)
  /\ (exists message,
         publish room create (VNum (Fin 5)) VUndefined no_overrides
         = {| pr_state := create; pr_outcome := Raised (Error message);
              pr_scheduled := None |}
         /\ contains "string" message).
Proof.
  apply non_string_topic_raises. reflexivity.
Defined.

(** ** Claims about [removePersisted] *)



(** C5, on the code.  On the broker that holds two persisted messages
    for ["x"], the second message is stored at the node of ["x"] with the
    order of [second_token], and [removePersisted(second_token)] answers
    [false] and removes nothing: the search compares [getId], which is
    [undefined] on a persisted message, and only ever finds index 0. *)
Theorem removePersisted_misses_second_message :
  stored_at (_topics two_persisted_broker) "x"
    {| p_topic := "x"; data := VNum (Fin 2); order := tok_id second_token |}
  /\ removePersisted (_topics two_persisted_broker) (ByToken second_token)
     = (_topics two_persisted_broker, false).
Proof.
  split.
  - exists [0], {| topic := "x"; subscriptions := []; children := [];
                   persisted := [ {| p_topic := "x"; data := VNum (Fin 1); order := first_id |};
                                  {| p_topic := "x"; data := VNum (Fin 2);
                                     order := tok_id second_token |} ] |}.
    split; [vm_compute; reflexivity|]. split; [reflexivity|].
    right. left. reflexivity.
  - vm_compute. reflexivity.
Qed.

(** ** Claims about the subscription invoker *)

(** The invoker on a subscriber of arity exactly three: it is called
    with [(data, topic, done)], and the promise is the one the calls of
    [done] build. *)
Lemma subscriptionInvoker_arity_three (s : subscription) (d t : value) :
  fn_length (fn s) = 3 ->
  subscriptionInvoker s d t
  = {| inv_subscription := s; inv_this := context s; inv_data := d; inv_topic := t;
       inv_done := true;
       inv_future := promise_of_executor (call (fn s) (context s) d t true) |}.
Proof.
  intros H. unfold subscriptionInvoker. rewrite H. reflexivity.
Qed.

(** The calls of [done] after the first one change nothing. *)
Lemma callbacks_after_the_first (calls : list (value * returned)) (st : pstate value) :
  fold_left (fun q c => callback (fst c) (snd c) q) calls (Some st) = Some st.
Proof. induction calls as [|c calls IH]; simpl; [reflexivity|exact IH]. Qed.

(** X3.  A subscriber of declared arity exactly three is called with
    [(data, topic, done)], and the first call [done(err, value)] decides
    the invocation promise, whatever the function does next: it is
    rejected with [err] when [err] is truthy; otherwise it is fulfilled
    with [value] when [value] is not a thenable, and it follows [value]
    when [value] is a thenable, settling as the thenable does and staying
    pending as long as the thenable is. *)
Theorem subscriptionInvoker_node_style (s : subscription) (d t err : value)
    (succ : returned) (rest : list (value * returned)) (c : completion) (e : bool) :
  fn_length (fn s) = 3 ->
  call (fn s) (context s) d t true
  = {| done_calls := (err, succ) :: rest; fn_completion := c; eager := e |} ->
  subscriptionInvoker s d t
  = {| inv_subscription := s; inv_this := context s; inv_data := d; inv_topic := t;
       inv_done := true;
       inv_future := if truthy err then Rejected err
                     else match succ with
                          | Plain v => Fulfilled v
                          | Thenable st => st
                          end |}.
Proof.
  intros Harity Hrun. rewrite (subscriptionInvoker_arity_three _ _ _ Harity).
  f_equal. unfold promise_of_executor. rewrite Hrun. simpl.
  rewrite callbacks_after_the_first. destruct succ; reflexivity.
Qed.

Lemma subscriptionInvoker_node_style_witness :
  subscriptionInvoker
    (createSubscription first_id (SFun node_style_follower) (state_options create) VUndefined)
    VUndefined (VStr "a")
  = {| inv_subscription :=
         createSubscription first_id (SFun node_style_follower) (state_options create)
           VUndefined;
       inv_this := VNull; inv_data := VUndefined; inv_topic := VStr "a";
       inv_done := true;
       inv_future := Rejected (VStr "no") |}.
Proof.
  apply (@subscriptionInvoker_node_style
           (createSubscription first_id (SFun node_style_follower) (state_options create)
              VUndefined)
           VUndefined (VStr "a") VNull (Thenable (Rejected (VStr "no")))
           [(VNull, Plain (VNum (Fin 42)))] (Return (Plain VUndefined)) false).
  - reflexivity.
  - reflexivity.
Defined.

(** C7, on the code.  A subscriber of declared arity above three is
    called without [done]: the test is [fn.length === 3].  Its calls of
    [done] play no part in the promise, which follows the completion of
    the two-argument call. *)
Theorem subscriptionInvoker_arity_above_three (s : subscription) (d t : value) :
  3 < fn_length (fn s) ->
  inv_done (subscriptionInvoker s d t) = false
  /\ inv_future (subscriptionInvoker s d t)
     = match fn_completion (call (fn s) (context s) d t false) with
       | Throw e => Rejected e
       | Return (Thenable st) => st
       | Return (Plain v) => Fulfilled v
       end.
Proof.
  intros H. unfold subscriptionInvoker.
  destruct (Nat.eqb (fn_length (fn s)) 3) eqn:E.
  - apply Nat.eqb_eq in E. lia.
  - split; reflexivity.
Qed.

Lemma subscriptionInvoker_arity_above_three_witness :
  inv_done (subscriptionInvoker four_parameters_subscription VUndefined (VStr "a")) = false
  /\ inv_future (subscriptionInvoker four_parameters_subscription VUndefined (VStr "a"))
     = Rejected (VStr "TypeError: done is not a function").
Proof.
  apply (@subscriptionInvoker_arity_above_three four_parameters_subscription
           VUndefined (VStr "a")).
  simpl. lia.
Defined.

(** ** The replay of persisted messages *)

Lemma node_induction (P : node -> Prop) :
  (forall t ss cs ps, Forall P cs -> P (mkNode t ss cs ps)) ->
  forall n, P n.
Proof.
  intros H. fix IH 1. intros [t ss cs ps]. apply H.
  induction cs as [|c cs IHcs]; constructor; [apply IH|exact IHcs].
Qed.

Lemma fold_left_app_flat_map (T U : Type) (g : T -> list U) (l : list T) :
  forall init, fold_left (fun arr next => arr ++ g next) l init = init ++ flat_map g l.
Proof.
  induction l as [|x l IH]; intros init; simpl; [symmetry; apply app_nil_r|].
  rewrite IH, <- app_assoc. reflexivity.
Qed.

(** [descendents]: the node, then the descendants of its children. *)
Lemma descendents_eq (n : node) :
  descendents n = n :: flat_map descendents (children n).
Proof.
  destruct n as [t ss cs ps]. simpl. apply fold_left_app_flat_map.
Qed.

Lemma descendents_deref (n : node) :
  forall n', In n' (descendents n) -> exists r, deref n r = Some n'.
Proof.
  induction n as [t ss cs ps IH] using node_induction. intros n' Hn'.
  rewrite descendents_eq in Hn'. destruct Hn' as [<-|Hn']; [exists []; reflexivity|].
  simpl in Hn'. apply in_flat_map in Hn'. destruct Hn' as (c & Hc & Hn').
  rewrite Forall_forall in IH. destruct (IH c Hc n' Hn') as [r Hr].
  apply In_nth_error in Hc. destruct Hc as [idx Hidx].
  exists (idx :: r). simpl. rewrite Hidx. exact Hr.
Qed.

Lemma deref_app (r1 r2 : ref) :
  forall root n, deref root r1 = Some n -> deref root (r1 ++ r2) = deref n r2.
Proof.
  induction r1 as [|idx r1 IH]; intros root n H; simpl in *.
  - injection H as <-. reflexivity.
  - destruct (nth_error (children root) idx) as [c|]; [|discriminate]. apply (IH c n H).
Qed.

Lemma tree_all_deref (P : node -> Prop) (root : node) (r : ref) (n : node) :
  tree_all P root -> deref root r = Some n -> tree_all P n.
Proof.
  intros Hroot Hn r' n' Hn'. apply (Hroot (r ++ r')).
  rewrite (@deref_app r r' root n Hn). exact Hn'.
Qed.

Lemma replay_returning (f : jsfun) (messages : list persistedMessage) :
  truthy (fn_suspended f) = false ->
  (forall this d tp, exists r, fn_completion (call f this d tp false) = Return r) ->
  replay (SFun f) (map Some messages) = (map (delivery_of f) messages, None).
Proof.
  intros Hsuspended Hreturns. induction messages as [|m messages IH]; simpl; [reflexivity|].
  rewrite Hsuspended. simpl.
  destruct (Hreturns (fn_context f) (data m) (VStr (p_topic m))) as [r Hr].
  rewrite Hr, IH. reflexivity.
Qed.

Lemma subscribe_string_state (state : Arbiter) (t : string) (f : subscriber)
    (o : Overrides) (ctx : value) :
  sr_state (subscribe state (VStr t) f o ctx)
  = {| _topics :=
         modify (snd (addTopicLine t (_topics state)
                        (ancestorTopicSearch t (_topics state))))
           (fun n => set_subscriptions n
                       (insert getPriority
                          (createSubscription (next_id state) f
                             (merge (state_options state) o) ctx)
                          (subscriptions n)))
           (fst (addTopicLine t (_topics state) (ancestorTopicSearch t (_topics state))));
       options := state_options state;
       next_id := (next_id state + 1)%Z |}.
Proof.
  unfold subscribe. rewrite assert_string. cbv zeta.
  destruct (negb _); [|reflexivity].
  destruct (deref _ _); [|reflexivity].
  destruct (mergeBy _ _); [|reflexivity].
  destruct (replay _ _) as [delivered [e|]]; reflexivity.
Qed.

(** The merge of the persisted lists of a subtree whose nodes store
    their messages in ascending order. *)
Lemma merge_persisted (bound : Z) (n : node) :
  tree_all (persisted_ok bound) n ->
  exists messages,
    mergeBy getFingerArrayOrder (map getPersisted (descendents n))
    = Some (map Some messages)
    /\ Permutation messages (List.concat (map getPersisted (descendents n)))
    /\ StronglySorted (key_le getOrder) messages.
Proof.
  intros Hok. unfold getFingerArrayOrder.
  apply (@mergeBy_sorted persistedMessage getOrder (key_le getOrder)).
  - intros x y. apply num_ltb_le.
  - intros x y _ _ H. exact H.
  - intros x _. exists (order x). reflexivity.
  - apply sorted_merge_ready. intros l Hl. apply in_map_iff in Hl.
    destruct Hl as (n' & <- & Hn'). apply descendents_deref in Hn'.
    destruct Hn' as [r Hr]. apply StronglySorted_Sorted. apply (Hok r n' Hr).
Qed.

(** X1.  The replay of [subscribe], for a function that has no truthy
    [suspended] property and returns normally from every call: with
    [ignorePersisted] nothing is delivered; without it, what is stored at
    the node the subscription is attached to and at the descendants of
    that node is delivered, each message once, in ascending order. *)
Theorem subscribe_replays_attached_subtree (state : Arbiter) (t : string) (f : jsfun)
    (o : Overrides) (ctx : value) (attached : node) :
  store_ok state ->
  truthy (fn_suspended f) = false ->
  (forall this d tp, exists r, fn_completion (call f this d tp false) = Return r) ->
  deref (_topics (sr_state (subscribe state (VStr t) (SFun f) o ctx)))
    (snd (addTopicLine t (_topics state) (ancestorTopicSearch t (_topics state))))
  = Some attached ->
  (ignorePersisted (merge (state_options state) o) = true ->
   sr_delivered (subscribe state (VStr t) (SFun f) o ctx) = [])
  /\ (ignorePersisted (merge (state_options state) o) = false ->
      exists messages,
        sr_delivered (subscribe state (VStr t) (SFun f) o ctx)
        = map (delivery_of f) messages
        /\ Permutation messages (List.concat (map getPersisted (descendents attached)))
        /\ Sorted (key_le getOrder) messages).
Proof.
  intros Hstore Hsuspended Hreturns Hattached.
  pose proof (@subscribe_store_ok state (VStr t) (SFun f) o ctx Hstore) as Hstore'.
  unfold store_ok in Hstore'.
  rewrite subscribe_string_state in Hattached, Hstore'. simpl _topics in Hattached, Hstore'.
  simpl next_id in Hstore'.
  unfold subscribe. rewrite assert_string. cbv zeta.
  split; intros Hignore; rewrite Hignore; simpl negb; cbv iota; [reflexivity|].
  rewrite Hattached.
  destruct (@merge_persisted (next_id state + 1) attached) as (messages & Hm & Hp & Hs).
  { exact (@tree_all_deref _ _ _ _ Hstore' Hattached). }
  rewrite Hm, (@replay_returning f messages Hsuspended Hreturns). simpl.
  exists messages. split; [reflexivity|]. split; [exact Hp|].
  apply StronglySorted_Sorted, Hs.
Qed.

Lemma subscribe_replays_attached_subtree_witness :
  (ignorePersisted (merge (state_options two_persisted_broker) no_overrides) = true ->
   sr_delivered (subscribe two_persisted_broker (VStr "x") (SFun noop) no_overrides VUndefined)
   = [])
  /\ (ignorePersisted (merge (state_options two_persisted_broker) no_overrides) = false ->
      exists messages,
        sr_delivered (subscribe two_persisted_broker (VStr "x") (SFun noop) no_overrides
                        VUndefined)
        = map (delivery_of noop) messages
        /\ Permutation messages
             (List.concat
                (map getPersisted
                   (descendents
                      {| topic := "x";
                         subscriptions :=
                           [createSubscription (first_id + 2) (SFun noop)
                              (state_options two_persisted_broker) VUndefined];
                         children := [];
                         persisted :=
                           [ {| p_topic := "x"; data := VNum (Fin 1); order := first_id |};
                             {| p_topic := "x"; data := VNum (Fin 2);
                                order := (first_id + 1)%Z |} ] |})))
        /\ Sorted (key_le getOrder) messages).
Proof.
  apply (@subscribe_replays_attached_subtree two_persisted_broker "x" noop no_overrides
           VUndefined).
  - apply built_store_ok. unfold two_persisted_broker, after_publish.
    apply built_publish, built_publish, built_create.
  - reflexivity.
  - intros this d tp. eexists. reflexivity.
  - vm_compute. reflexivity.
Defined.

(** ** Claims about the replay of persisted messages *)

(** C8, on the code.  On [hyphen_broker] the message persisted for
    ["a.b"] is stored at a node whose topic is ["a.b"], and
    [subscribe("a.b", noop)] returns its token without delivering it:
    [ancestorTopicSearch] looks only at the two children next to the
    insertion point, finds ["a-x"] there, answers the root, and
    [addTopicLine] builds a second, empty node for ["a.b"]. *)
Theorem subscribe_misses_persisted_message :
  stored_at (_topics hyphen_broker) "a.b"
    {| p_topic := "a.b"; data := VNum (Fin 1); order := first_id |}
  /\ ancestorTopicSearch "a.b" (_topics hyphen_broker) = []
  /\ sr_delivered (subscribe hyphen_broker (VStr "a.b") (SFun noop) no_overrides VUndefined)
     = []
  /\ sr_outcome (subscribe hyphen_broker (VStr "a.b") (SFun noop) no_overrides VUndefined)
     = Returned {| tok_topic := "a.b"; tok_id := (first_id + 2)%Z;
                   tok_priority := Some (Fin 0) |}.
Proof.
  split; [|split; [|split]]; try (vm_compute; reflexivity).
  exists [0; 0], {| topic := "a.b"; subscriptions := []; children := [];
                    persisted := [ {| p_topic := "a.b"; data := VNum (Fin 1);
                                      order := first_id |} ] |}.
  split; [vm_compute; reflexivity|]. split; [reflexivity|]. left. reflexivity.
Qed.

(** ** Claims about the options *)

Lemma hierarchicalTopicDispatcher_options (stack : nat) (state : Arbiter) (t : string) (d : value)
    (opts : Options) :
  options (fst (hierarchicalTopicDispatcher stack state t d opts)) = options state
  /\ forall pub, snd (hierarchicalTopicDispatcher stack state t d opts) = Returned pub ->
                 pub_options pub = opts.
Proof.
  unfold hierarchicalTopicDispatcher.
  destruct (dispatch_list _ _ _ _) as [subs|e]; [|split; [reflexivity|discriminate]].
  unfold subscriptionDispatcher.
  destruct (d_raised _); [split; [reflexivity|discriminate]|].
  destruct (persist opts).
  - destruct (last _ _); simpl.
    + split; [reflexivity|]. intros pub H. injection H as <-. reflexivity.
    + split; [reflexivity|discriminate].
  - simpl. split; [reflexivity|]. intros pub H. injection H as <-. reflexivity.
Qed.

(** C9.  [subscribe] and [publish] leave every field of the options
    holder of the broker as it was, whatever the per-call options; the
    overrides live in the merged copy, which is what a publication and a
    deferred dispatch carry, and running the deferred dispatch later does
    not touch the holder either. *)
Theorem calls_do_not_mutate_default_options (stack : nat) (state : Arbiter) (t d : value)
    (f : subscriber) (o : Overrides) (ctx : value) :
  options (sr_state (subscribe state t f o ctx)) = options state
  /\ options (pr_state (publish stack state t d o)) = options state
  /\ (forall pub, pr_outcome (publish stack state t d o) = Returned (ThePromise pub) ->
                  pub_options pub = merge (options state) o)
  /\ (forall task, pr_scheduled (publish stack state t d o) = Some task ->
                   task_options task = merge (options state) o
                   /\ forall later, options (fst (run_task stack later task)) = options later).
Proof.
  split; [|split; [|split]].
  - unfold subscribe.
    destruct (assert _ _ _ _ _); [|reflexivity].
    destruct t; try reflexivity.
    cbv zeta. destruct (negb _); [|reflexivity].
    destruct (deref _ _); [|reflexivity].
    destruct (mergeBy _ _); [|reflexivity].
    destruct (replay _ _) as [delivered [e|]]; reflexivity.
  - unfold publish.
    destruct (assert _ _ _ _ _); [|reflexivity].
    destruct t; try reflexivity.
    destruct (sync _).
    + pose proof (hierarchicalTopicDispatcher_options stack state s d
                    (merge (state_options state) o)) as [H _].
      cbv zeta. destruct (snd _); exact H.
    + reflexivity.
  - unfold publish.
    destruct (assert _ _ _ _ _); [|discriminate].
    destruct t; try discriminate.
    destruct (sync _).
    + pose proof (hierarchicalTopicDispatcher_options stack state s d
                    (merge (state_options state) o)) as [_ H].
      cbv zeta. destruct (snd _) as [pub0|e] eqn:E; [|discriminate].
      intros pub Hp. injection Hp as <-. apply H. reflexivity.
    + discriminate.
  - unfold publish.
    destruct (assert _ _ _ _ _); [|discriminate].
    destruct t; try discriminate.
    destruct (sync _).
    + cbv zeta. destruct (snd _); discriminate.
    + intros task H. injection H as <-. split; [reflexivity|].
      intros later. unfold run_task. apply hierarchicalTopicDispatcher_options.
Qed.

(** ** [binaryIndexBy] finds the partition point *)

Lemma nth_error_in_firstn (T : Type) (l : list T) :
  forall n k x, nth_error l n = Some x -> n < k -> In x (firstn k l).
Proof.
  induction l as [|a l IH]; intros [|n] [|k] x Hnth Hlt; simpl in *;
    try discriminate; try lia.
  - left. congruence.
  - right. apply (IH n); [exact Hnth|lia].
Qed.

Lemma nth_error_in_skipn (T : Type) (l : list T) :
  forall n k x, nth_error l n = Some x -> k <= n -> In x (skipn k l).
Proof.
  induction l as [|a l IH]; intros n [|k] x Hnth Hle.
  - destruct n; discriminate.
  - destruct n; discriminate.
  - exact (nth_error_In _ _ Hnth).
  - destruct n as [|n]; [lia|]. simpl in *. apply (IH n); [exact Hnth|lia].
Qed.

Section Partition.

Context {A K : Type} {lessK : Less K}.
Variable getValue : A -> K.
Variable value : K.
Variable arr : list A.
Variable k : nat.

Hypothesis k_in_range : k <= List.length arr.
Hypothesis below : Forall (fun x => less (getValue x) value = true) (firstn k arr).
Hypothesis not_below : Forall (fun x => less (getValue x) value = false) (skipn k arr).

Lemma binaryIndexBy_loop_partition :
  forall fuel low high,
    low <= k -> k <= high -> high <= List.length arr -> high - low <= fuel ->
    binaryIndexBy_loop fuel getValue value arr low high = k.
Proof.
  induction fuel as [|fuel IH]; intros low high Hlow Hhigh Hlen Hfuel.
  - simpl. lia.
  - simpl. destruct (Nat.ltb low high) eqn:Hlt.
    2:{ apply Nat.ltb_ge in Hlt. lia. }
    apply Nat.ltb_lt in Hlt. destruct (div2_between Hlt) as [Hlo Hhi].
    destruct (nth_error arr (Nat.div2 (low + high))) as [elem|] eqn:Hnth.
    2:{ apply nth_error_None in Hnth. lia. }
    pose proof (proj1 (Forall_forall _ _) below) as Hbelow.
    pose proof (proj1 (Forall_forall _ _) not_below) as Habove.
    destruct (less (getValue elem) value) eqn:Hcmp.
    + apply IH; try lia.
      destruct (Nat.le_gt_cases k (Nat.div2 (low + high))) as [Hk|Hk]; [|lia].
      rewrite (Habove _ (nth_error_in_skipn _ Hnth Hk)) in Hcmp. discriminate.
    + apply IH; try lia.
      destruct (Nat.le_gt_cases k (Nat.div2 (low + high))) as [Hk|Hk]; [lia|].
      rewrite (Hbelow _ (nth_error_in_firstn _ Hnth Hk)) in Hcmp. discriminate.
Qed.

Lemma binaryIndexBy_partition : binaryIndexBy getValue value arr = k.
Proof.
  unfold binaryIndexBy. apply binaryIndexBy_loop_partition; lia.
Qed.

End Partition.

(** X5.  When the elements of [array] below [value] come first, [k] of
    them, [binaryIndexBy] answers [k]: the index of the first element that
    is not below [value], and [array.length] when every element is below. *)
Theorem binaryIndexBy_finds_first_not_below (A K : Type) (lessK : Less K)
    (getValue : A -> K) (value : K) (array : list A) (k : nat) :
  k <= List.length array ->
  Forall (fun x => less (getValue x) value = true) (firstn k array) ->
  Forall (fun x => less (getValue x) value = false) (skipn k array) ->
  binaryIndexBy getValue value array = k.
Proof.
  intros Hk Hbelow Habove. apply binaryIndexBy_partition; assumption.
Qed.

Lemma binaryIndexBy_finds_first_not_below_witness :
  binaryIndexBy Fin (Fin 4) [1; 3; 4; 4; 7]%Z = 2.
Proof.
  apply binaryIndexBy_finds_first_not_below.
  - simpl. lia.
  - simpl. repeat constructor.
  - simpl. repeat constructor.
Defined.

(** ** [insert] on a sorted list *)

(** X6.  On a list sorted ascending by finite keys, [insert] puts the item
    behind the elements with a smaller key and in front of those with an
    equal or larger key; the other elements keep their places relative to
    each other, and the list is sorted again. *)
Theorem insert_before_equal_keys (A : Type) (getValue : A -> num) (item : A)
    (l : list A) :
  StronglySorted (key_le getValue) l ->
  (forall x, In x (item :: l) -> finite (getValue x)) ->
  exists before after,
    l = before ++ after
    /\ insert getValue item l = before ++ item :: after
    /\ Forall (fun x => num_ltb (getValue x) (getValue item) = true) before
    /\ Forall (fun y => num_le (getValue item) (getValue y)) after
    /\ StronglySorted (key_le getValue) (insert getValue item l).
Proof.
  intros Hsorted Hfinite.
  destruct (@binaryIndexBy_lower_bound _ getValue (getValue item) l Hsorted)
    as (Hidx & Hbelow & Habove).
  set (index := binaryIndexBy getValue (getValue item) l) in *.
  assert (Hafter : Forall (fun y => num_le (getValue item) (getValue y)) (skipn index l)).
  { rewrite Forall_forall in *. intros y Hy.
    assert (Hyl : In y l).
    { rewrite <- (firstn_skipn index l). apply in_or_app. right. exact Hy. }
    apply num_not_ltb_le.
    - apply finite_not_NaN, Hfinite. left. reflexivity.
    - apply finite_not_NaN, Hfinite. right. exact Hyl.
    - apply Habove, Hy. }
  exists (firstn index l), (skipn index l).
  split; [symmetry; apply firstn_skipn|].
  split; [reflexivity|]. split; [exact Hbelow|]. split; [exact Hafter|].
  unfold insert, splice_in. fold index.
  pose proof Hsorted as Hs. rewrite <- (firstn_skipn index l) in Hs.
  apply StronglySorted_app_iff in Hs. destruct Hs as (H1 & H2 & Hcross).
  apply StronglySorted_app_iff. split; [exact H1|]. split.
  - constructor; [exact H2|]. exact Hafter.
  - rewrite Forall_forall in Hbelow.
    intros x y Hx [<-|Hy]; [apply num_ltb_le, Hbelow, Hx|apply Hcross; assumption].
Qed.

Lemma insert_before_equal_keys_witness :
  exists before after,
    [1; 3; 3; 7]%Z = before ++ after
    /\ insert Fin 3%Z [1; 3; 3; 7]%Z = before ++ 3%Z :: after
    /\ Forall (fun x => num_ltb (Fin x) (Fin 3) = true) before
    /\ Forall (fun y => num_le (Fin 3) (Fin y)) after
    /\ StronglySorted (key_le Fin) (insert Fin 3%Z [1; 3; 3; 7]%Z).
Proof.
  apply insert_before_equal_keys.
  - repeat constructor; unfold key_le; simpl; lia.
  - intros x _. exists x. reflexivity.
Defined.

(** ** [searchAround] is a search of the whole array *)

Lemma item_at_of_nat (T : Type) (arr : list T) (n : nat) :
  item_at arr (Z.of_nat n) = nth_error arr n.
Proof.
  unfold item_at. destruct (Z.ltb_spec (Z.of_nat n) 0) as [H|H]; [lia|].
  rewrite Nat2Z.id. reflexivity.
Qed.

Section SearchAroundFacts.

Variable A : Type.
Variables getValue getConditionValue : A -> operand.
Variables value conditionValue : operand.
Variable arr : list A.

Abbreviation differs := (mismatch getValue getConditionValue value conditionValue).
Abbreviation walk := (scan getValue getConditionValue value conditionValue).

Lemma missed_match (j : nat) (e : A) :
  nth_error arr j = Some e -> differs e = false ->
  missed getValue value arr (Z.of_nat j) = false.
Proof.
  intros Hnth Hm. unfold missed. rewrite item_at_of_nat, Hnth.
  unfold mismatch in Hm. apply orb_false_elim in Hm.
  destruct Hm as [Hm _]. exact Hm.
Qed.

Lemma scan_stays (fuel : nat) (step : Z) (j : nat) (e : A) :
  nth_error arr j = Some e -> differs e = false ->
  walk fuel step arr (Z.of_nat j) = Z.of_nat j.
Proof.
  intros Hnth Hm. destruct fuel as [|fuel]; [reflexivity|].
  cbn [scan]. rewrite item_at_of_nat, Hnth.
  rewrite Hm. reflexivity.
Qed.

(** The loop that walks down stops at the nearest match at or below its
    start, or at [-1]. *)
Lemma scan_down (n : nat) :
  forall fuel,
    n < List.length arr -> n + 1 <= fuel ->
    (exists j e,
        j <= n /\ walk fuel (-1)%Z arr (Z.of_nat n) = Z.of_nat j
        /\ nth_error arr j = Some e /\ differs e = false
        /\ forall k e', j < k -> k <= n -> nth_error arr k = Some e' -> differs e' = true)
    \/ (walk fuel (-1)%Z arr (Z.of_nat n) = (-1)%Z
        /\ forall k e', k <= n -> nth_error arr k = Some e' -> differs e' = true).
Proof.
  induction n as [|n IH]; intros fuel Hlen Hfuel.
  - destruct fuel as [|fuel]; [lia|].
    destruct (nth_error arr 0) as [e|] eqn:Hnth.
    2:{ apply nth_error_None in Hnth. lia. }
    cbn [scan]. rewrite (item_at_of_nat arr 0), Hnth.
    destruct (differs e) eqn:Hm.
    + right. split.
      * destruct fuel; reflexivity.
      * intros k e' Hk Hk'. replace k with 0 in Hk' by lia. congruence.
    + left. exists 0, e. repeat split; try assumption; try lia.
  - destruct fuel as [|fuel]; [lia|].
    destruct (nth_error arr (S n)) as [e|] eqn:Hnth.
    2:{ apply nth_error_None in Hnth. lia. }
    cbn [scan]. rewrite item_at_of_nat, Hnth.
    destruct (differs e) eqn:Hm.
    + replace (Z.of_nat (S n) + -1)%Z with (Z.of_nat n) by lia.
      destruct (IH fuel) as [(j & e0 & Hj & Hscan & Hnj & Hmj & Hbetween)|[Hscan Hall]];
        try lia.
      * left. exists j, e0. repeat split; try assumption; try lia.
        intros k e' Hjk Hkn Hk.
        destruct (Nat.eq_dec k (S n)) as [->|Hne]; [congruence|].
        apply (Hbetween k e'); [lia|lia|exact Hk].
      * right. split; [exact Hscan|].
        intros k e' Hkn Hk.
        destruct (Nat.eq_dec k (S n)) as [->|Hne]; [congruence|].
        apply (Hall k e'); [lia|exact Hk].
    + left. exists (S n), e. repeat split; try assumption; try lia.
Qed.

(** The loop that walks up stops at the first match from its start on, or
    at [arr.length]. *)
Lemma scan_up :
  forall fuel n,
    n <= List.length arr -> List.length arr - n <= fuel ->
    (exists j e,
        n <= j /\ walk fuel 1%Z arr (Z.of_nat n) = Z.of_nat j
        /\ nth_error arr j = Some e /\ differs e = false
        /\ forall k e', n <= k -> k < j -> nth_error arr k = Some e' -> differs e' = true)
    \/ (walk fuel 1%Z arr (Z.of_nat n) = Z.of_nat (List.length arr)
        /\ forall k e', n <= k -> nth_error arr k = Some e' -> differs e' = true).
Proof.
  induction fuel as [|fuel IH]; intros n Hlen Hfuel.
  - right. assert (n = List.length arr) as -> by lia. split; [reflexivity|].
    intros k e' Hk Hnth. assert (k < List.length arr) by (apply nth_error_Some; congruence).
    lia.
  - destruct (nth_error arr n) as [e|] eqn:Hnth.
    + assert (Hn : n < List.length arr) by (apply nth_error_Some; congruence).
      cbn [scan]. rewrite item_at_of_nat, Hnth.
      destruct (differs e) eqn:Hm.
      * replace (Z.of_nat n + 1)%Z with (Z.of_nat (S n)) by lia.
        destruct (IH (S n)) as [(j & e0 & Hj & Hscan & Hnj & Hmj & Hbetween)|[Hscan Hall]];
          try lia.
        -- left. exists j, e0. repeat split; try assumption; try lia.
           intros k e' Hnk Hkj Hk.
           destruct (Nat.eq_dec k n) as [->|Hne]; [congruence|].
           apply (Hbetween k e'); [lia|lia|exact Hk].
        -- right. split; [exact Hscan|].
           intros k e' Hnk Hk.
           destruct (Nat.eq_dec k n) as [->|Hne]; [congruence|].
           apply (Hall k e'); [lia|exact Hk].
      * left. exists n, e. repeat split; try assumption; try lia.
    + assert (Hn : List.length arr <= n) by (apply nth_error_None; exact Hnth).
      assert (n = List.length arr) as Heq by lia.
      right. split.
      * cbn [scan]. rewrite item_at_of_nat, Hnth. f_equal. exact Heq.
      * intros k e' Hk Hk'.
        assert (k < List.length arr) by (apply nth_error_Some; congruence). lia.
Qed.

Lemma missed_outside : missed getValue value arr (Z.of_nat (List.length arr)) = true.
Proof.
  unfold missed. rewrite item_at_of_nat.
  destruct (nth_error arr (List.length arr)) eqn:H; [|reflexivity].
  assert (List.length arr < List.length arr) by (apply nth_error_Some; congruence). lia.
Qed.

(** [searchAround] from a start in the array: the nearest exact match at
    or below the start, else the first one above it, else [-1]. *)
Lemma searchAround_inside (start : nat) :
  start < List.length arr ->
  (exists j e,
      searchAround getValue getConditionValue value conditionValue (Z.of_nat start) arr
      = Z.of_nat j
      /\ nth_error arr j = Some e /\ differs e = false
      /\ (forall k e', k <= start -> j < k -> nth_error arr k = Some e' -> differs e' = true)
      /\ (start < j ->
          forall k e', k < j -> nth_error arr k = Some e' -> differs e' = true))
  \/ (searchAround getValue getConditionValue value conditionValue (Z.of_nat start) arr
      = (-1)%Z
      /\ forall e, In e arr -> differs e = true).
Proof.
  intros Hstart. unfold searchAround.
  destruct (@scan_down start (S (List.length arr)))
    as [(j & e & Hj & Hscan & Hnj & Hmj & Hbetween)|[Hscan Hbelow]]; try lia.
  - left. exists j, e. rewrite Hscan. rewrite (missed_match _ Hnj Hmj).
    rewrite (scan_stays _ _ _ Hnj Hmj). rewrite (missed_match _ Hnj Hmj).
    repeat split; try assumption.
    + intros k e' Hk Hjk. apply Hbetween; assumption.
    + intros Hlt. lia.
  - rewrite Hscan.
    assert (Hmiss : missed getValue value arr (-1)%Z = true) by reflexivity.
    rewrite Hmiss.
    replace (Z.min (Z.of_nat (List.length arr)) (Z.of_nat start + 1))
      with (Z.of_nat (S start)) by lia.
    destruct (@scan_up (S (List.length arr)) (S start))
      as [(j & e & Hj & Hup & Hnj & Hmj & Hbetween)|[Hup Habove]]; try lia.
    + left. exists j, e. rewrite Hup, (missed_match _ Hnj Hmj).
      repeat split; try assumption.
      * intros k e' Hk Hjk. lia.
      * intros _ k e' Hkj Hk.
        destruct (Nat.le_gt_cases k start) as [Hle|Hgt].
        -- apply (Hbelow k e'); assumption.
        -- apply (Hbetween k e'); [lia|exact Hkj|exact Hk].
    + right. rewrite Hup, missed_outside. split; [reflexivity|].
      intros e He. apply In_nth_error in He. destruct He as [k Hk].
      destruct (Nat.le_gt_cases k start) as [Hle|Hgt].
      * apply (Hbelow k e); assumption.
      * apply (Habove k e); [lia|exact Hk].
Qed.

(** From [arr.length] on, [arr[i]] is [undefined], neither loop runs, and
    the search gives up although the array may hold a match. *)
Lemma searchAround_outside (start : nat) :
  List.length arr <= start ->
  searchAround getValue getConditionValue value conditionValue (Z.of_nat start) arr
  = (-1)%Z.
Proof.
  intros Hstart. unfold searchAround.
  assert (Hnone : forall n, List.length arr <= n -> item_at arr (Z.of_nat n) = None).
  { intros n Hn. rewrite item_at_of_nat. apply nth_error_None. exact Hn. }
  simpl scan at 2. rewrite (Hnone start Hstart).
  unfold missed at 2. rewrite (Hnone start Hstart).
  replace (Z.min (Z.of_nat (List.length arr)) (Z.of_nat start + 1))
    with (Z.of_nat (List.length arr)) by lia.
  simpl scan. rewrite (Hnone (List.length arr) (Nat.le_refl _)).
  unfold missed. rewrite (Hnone (List.length arr) (Nat.le_refl _)). reflexivity.
Qed.

End SearchAroundFacts.

(** ** The index of a token in the subscriptions of a node *)










(** ** The order of strings *)

Lemma ascii_compare_refl (c : ascii) : Ascii.compare c c = Eq.
Proof. unfold Ascii.compare. apply N.compare_refl. Qed.

Lemma ascii_compare_lt_trans (a b c : ascii) :
  Ascii.compare a b = Lt -> Ascii.compare b c = Lt -> Ascii.compare a c = Lt.
Proof. unfold Ascii.compare. rewrite !N.compare_lt_iff. apply N.lt_trans. Qed.

Lemma ascii_compare_gt_lt (a b : ascii) :
  Ascii.compare a b = Gt -> Ascii.compare b a = Lt.
Proof. unfold Ascii.compare. rewrite N.compare_gt_iff, N.compare_lt_iff. auto. Qed.

Lemma string_compare_refl (s : string) : String.compare s s = Eq.
Proof. induction s as [|c s IH]; simpl; [reflexivity|]. rewrite ascii_compare_refl. exact IH. Qed.

Lemma string_ltb_lt (a b : string) : String.ltb a b = true <-> String.compare a b = Lt.
Proof. unfold String.ltb. destruct (String.compare a b); split; congruence. Qed.

Lemma string_compare_lt_trans (a : string) :
  forall b c, String.compare a b = Lt -> String.compare b c = Lt -> String.compare a c = Lt.
Proof.
  induction a as [|x a IH]; intros [|y b] [|z c]; simpl; try congruence.
  destruct (Ascii.compare x y) eqn:Hxy; try discriminate.
  - apply Ascii.compare_eq_iff in Hxy. subst y.
    destruct (Ascii.compare x z); try congruence. apply IH.
  - destruct (Ascii.compare y z) eqn:Hyz; try discriminate.
    + apply Ascii.compare_eq_iff in Hyz. subst z. rewrite Hxy. reflexivity.
    + rewrite (ascii_compare_lt_trans _ _ _ Hxy Hyz). reflexivity.
Qed.

Lemma string_ltb_trans (a b c : string) :
  String.ltb a b = true -> String.ltb b c = true -> String.ltb a c = true.
Proof. rewrite !string_ltb_lt. apply string_compare_lt_trans. Qed.

Lemma string_ltb_irrefl (a : string) : String.ltb a a = false.
Proof. unfold String.ltb. rewrite string_compare_refl. reflexivity. Qed.


Lemma string_compare_app (p a b : string) :
  String.compare (p ++ a) (p ++ b) = String.compare a b.
Proof.
  induction p as [|c p IH]; simpl; [reflexivity|]. rewrite ascii_compare_refl. exact IH.
Qed.

Lemma string_ltb_app (p a b : string) :
  String.ltb (p ++ a) (p ++ b) = String.ltb a b.
Proof. unfold String.ltb. rewrite string_compare_app. reflexivity. Qed.

Lemma string_app_nil_r (s : string) : (s ++ "")%string = s.
Proof. induction s as [|x s IH]; simpl; congruence. Qed.

Lemma string_ltb_extend (s : string) (c : ascii) (r : string) :
  String.ltb s (s ++ String c r) = true.
Proof.
  rewrite <- (string_app_nil_r s) at 1. rewrite string_ltb_app. reflexivity.
Qed.

Lemma string_app_assoc (a b c : string) : ((a ++ b) ++ c)%string = (a ++ (b ++ c))%string.
Proof. induction a as [|x a IH]; simpl; congruence. Qed.

Lemma string_app_inv_head (p a b : string) : (p ++ a)%string = (p ++ b)%string -> a = b.
Proof. induction p as [|x p IH]; simpl; intros H; [exact H|]. injection H as H. auto. Qed.

(** A string strictly between [a] and [a ++ "." ++ r] continues [a] with a
    character that is not above the dot. *)
Lemma string_between (d : ascii) (a : string) :
  forall b r,
    String.ltb a b = true -> String.ltb b (a ++ String d r) = true ->
    exists ch b', b = (a ++ String ch b')%string /\ Ascii.compare d ch <> Lt.
Proof.
  induction a as [|x a IH]; intros [|y b] r Hab Hbv; simpl in *;
    rewrite string_ltb_lt in *; simpl in *; try discriminate.
  - exists y, b. split; [reflexivity|].
    intros Hlt. rewrite (Ascii.compare_antisym) in Hbv. rewrite Hlt in Hbv. simpl in Hbv.
    discriminate.
  - destruct (Ascii.compare x y) eqn:Hxy; try discriminate.
    + apply Ascii.compare_eq_iff in Hxy. subst y. rewrite ascii_compare_refl in Hbv.
      destruct (IH b r) as (ch & b' & -> & Hch).
      * apply string_ltb_lt, Hab.
      * apply string_ltb_lt, Hbv.
      * exists ch, b'. split; [reflexivity|exact Hch].
    + rewrite (Ascii.compare_antisym) in Hbv. rewrite Hxy in Hbv. simpl in Hbv. discriminate.
Qed.

Lemma prefix_app (p s : string) : String.prefix p (p ++ s) = true.
Proof.
  induction p as [|c p IH]; simpl; [destruct s; reflexivity|].
  destruct (ascii_dec c c); [exact IH|congruence].
Qed.

Lemma prefix_inv (p : string) : forall s, String.prefix p s = true -> exists r, s = (p ++ r)%string.
Proof.
  induction p as [|c p IH]; intros s H.
  - exists s. reflexivity.
  - destruct s as [|c' s]; simpl in H; [discriminate|].
    destruct (ascii_dec c c') as [<-|]; [|discriminate].
    destruct (IH s H) as [r ->]. exists r. reflexivity.
Qed.

(** ** The children that the searches look at *)


Lemma isAncestorTopic_spec (v : string) (n : node) :
  isAncestorTopic v n = true
  <-> v = topic n \/ (exists r, v = (topic n ++ String "." r)%string) \/ topic n = EmptyString.
Proof.
  unfold isAncestorTopic, getTopic, startsWith. rewrite !orb_true_iff, !String.eqb_eq.
  split.
  - intros [[H|H]|H]; auto.
    right. left. apply prefix_inv in H. destruct H as [r ->]. exists r.
    rewrite string_app_assoc. reflexivity.
  - intros [H|[[r H]|H]]; auto.
    left. right. subst v.
    change (String "." r) with ("." ++ r)%string. rewrite <- string_app_assoc.
    apply prefix_app.
Qed.



Lemma nth_error_split_at (T : Type) (l : list T) :
  forall k x, nth_error l k = Some x -> l = firstn k l ++ x :: skipn (S k) l.
Proof.
  induction l as [|a l IH]; intros [|k] x H; simpl in H; try discriminate.
  - injection H as ->. reflexivity.
  - simpl. f_equal. apply IH, H.
Qed.

Lemma all_chars_app (p : ascii -> bool) (a : string) (ch : ascii) (b : string) :
  all_chars p (a ++ String ch b) = true -> p ch = true.
Proof.
  induction a as [|x a IH]; simpl; intros H; apply andb_prop in H; destruct H as [H1 H2].
  - exact H1.
  - apply IH, H2.
Qed.

Lemma segment_without_dot (a b : string) : segment (a ++ String "." b) = false.
Proof.
  destruct (segment (a ++ String "." b)) eqn:H; [|reflexivity].
  apply all_chars_app in H. discriminate.
Qed.

(** No name of a generation sorts between another name and a topic below
    that other name. *)
Lemma no_sibling_between (gp seg seg' r : string) :
  segment seg' = true ->
  String.ltb (gp ++ seg) (gp ++ seg') = true ->
  String.ltb (gp ++ seg') (gp ++ (seg ++ String "." r)) = true ->
  False.
Proof.
  intros Hseg H1 H2. rewrite string_ltb_app in H1, H2.
  destruct (@string_between "."%char seg seg' r H1 H2) as (ch & b' & -> & Hch).
  apply all_chars_app in Hseg. apply Hch.
  unfold Ascii.ltb in Hseg. destruct (Ascii.compare "." ch); congruence.
Qed.

Section Children.

Variable gp : string.
Variable cs : list node.
Variable v : string.

Hypothesis cs_sorted :
  StronglySorted (fun a b => String.ltb (topic a) (topic b) = true) cs.
Hypothesis cs_shape :
  Forall (fun c => topic c <> EmptyString
                   /\ exists seg, segment seg = true /\ topic c = (gp ++ seg)%string) cs.

Lemma children_around (k : nat) (c : node) :
  nth_error cs k = Some c ->
  (forall x, In x (firstn k cs) -> String.ltb (topic x) (topic c) = true)
  /\ (forall y, In y (skipn (S k) cs) -> String.ltb (topic c) (topic y) = true).
Proof.
  intros Hnth. pose proof cs_sorted as Hs.
  rewrite (@nth_error_split_at _ cs k c Hnth) in Hs.
  apply StronglySorted_app_iff in Hs. destruct Hs as (_ & Hs & Hcross).
  apply StronglySorted_inv in Hs. destruct Hs as [_ Hafter].
  split.
  - intros x Hx. apply Hcross; [exact Hx|left; reflexivity].
  - rewrite Forall_forall in Hafter. exact Hafter.
Qed.

(** The child that carries the topic itself is where the binary search
    stops. *)
Lemma child_exact_index (k : nat) (c : node) :
  nth_error cs k = Some c -> topic c = v ->
  binaryIndexBy getTopic v cs = k.
Proof.
  intros Hnth Hv. destruct (@children_around k c Hnth) as [Hbefore Hafter].
  apply binaryIndexBy_partition.
  - apply Nat.lt_le_incl, nth_error_Some. congruence.
  - apply Forall_forall. intros x Hx. unfold less, less_string, getTopic.
    rewrite <- Hv. apply Hbefore, Hx.
  - apply Forall_forall. intros y Hy. unfold less, less_string, getTopic.
    assert (Hsplit : skipn k cs = c :: skipn (S k) cs).
    { rewrite (@nth_error_split_at _ cs k c Hnth) at 1. rewrite skipn_app.
      rewrite firstn_length_le by (apply Nat.lt_le_incl, nth_error_Some; congruence).
      rewrite Nat.sub_diag, skipn_all2; [reflexivity|].
      rewrite firstn_length_le; [lia|].
      apply Nat.lt_le_incl, nth_error_Some; congruence. }
    rewrite Hsplit in Hy. destruct Hy as [<-|Hy].
    + rewrite Hv. apply string_ltb_irrefl.
    + rewrite <- Hv. destruct (String.ltb (topic y) (topic c)) eqn:Hlt; [|reflexivity].
      pose proof (@string_ltb_trans _ _ _ (Hafter y Hy) Hlt) as Hcc.
      rewrite string_ltb_irrefl in Hcc. discriminate.
Qed.

Lemma after_proper_ancestor (k : nat) (c : node) (r : string) (y : node) :
  nth_error cs k = Some c -> v = (topic c ++ String "." r)%string ->
  In y (skipn (S k) cs) ->
  String.ltb (topic y) v = false.
Proof.
  intros Hnth Hv Hy. destruct (@children_around k c Hnth) as [_ Hafter].
  destruct (String.ltb (topic y) v) eqn:Hlt; [exfalso|reflexivity].
  pose proof (Hafter y Hy) as Hcy.
  rewrite Forall_forall in cs_shape.
  destruct (cs_shape c (nth_error_In _ _ Hnth)) as (_ & seg & _ & Hc).
  assert (Hyin : In y cs).
  { rewrite <- (firstn_skipn (S k) cs). apply in_or_app. right. exact Hy. }
  destruct (cs_shape y Hyin) as (_ & seg' & Hseg' & Hyt).
  rewrite Hv, Hc, Hyt in Hlt. rewrite Hc, Hyt in Hcy.
  rewrite string_app_assoc in Hlt.
  exact (@no_sibling_between gp seg seg' r Hseg' Hcy Hlt).
Qed.

(** The child that is a proper ancestor of the topic sits right below the
    index where the binary search stops. *)
Lemma child_proper_index (k : nat) (c : node) (r : string) :
  nth_error cs k = Some c -> v = (topic c ++ String "." r)%string ->
  binaryIndexBy getTopic v cs = S k.
Proof.
  intros Hnth Hv. destruct (@children_around k c Hnth) as [Hbefore _].
  assert (Hk : k < List.length cs) by (apply nth_error_Some; congruence).
  assert (Hcv : String.ltb (topic c) v = true).
  { rewrite Hv. apply string_ltb_extend. }
  apply binaryIndexBy_partition.
  - exact Hk.
  - rewrite (@firstn_S_nth _ cs k c Hnth). apply Forall_app. split.
    + apply Forall_forall. intros x Hx. unfold less, less_string, getTopic.
      eapply string_ltb_trans; [apply Hbefore, Hx|exact Hcv].
    + repeat constructor. exact Hcv.
  - apply Forall_forall. intros y Hy.
    apply (@after_proper_ancestor k c r y Hnth Hv Hy).
Qed.

(** Next to a proper ancestor, the child at the index itself is no
    ancestor. *)
Lemma child_after_proper (k : nat) (c : node) (r : string) (x : node) :
  nth_error cs k = Some c -> v = (topic c ++ String "." r)%string ->
  nth_error cs (S k) = Some x ->
  isAncestorTopic v x = false /\ String.eqb (topic x) v = false.
Proof.
  intros Hnth Hv Hx.
  assert (Hxin : In x (skipn (S k) cs)).
  { apply (@nth_error_in_skipn _ cs (S k) (S k) x Hx). lia. }
  pose proof (@after_proper_ancestor k c r x Hnth Hv Hxin) as Hnot.
  rewrite Forall_forall in cs_shape.
  destruct (cs_shape c (nth_error_In _ _ Hnth)) as (_ & seg & _ & Hc).
  destruct (cs_shape x (nth_error_In _ _ Hx)) as (Hne & seg' & Hseg' & Hxt).
  assert (Hneq : topic x <> v).
  { intros Heq. rewrite Hv, Hc, Hxt, string_app_assoc in Heq.
    apply string_app_inv_head in Heq. rewrite Heq, segment_without_dot in Hseg'.
    discriminate. }
  split; [|apply String.eqb_neq, Hneq].
  destruct (isAncestorTopic v x) eqn:Hanc; [exfalso|reflexivity].
  apply isAncestorTopic_spec in Hanc. destruct Hanc as [H|[[r' H]|H]].
  - apply Hneq. congruence.
  - rewrite H, string_ltb_extend in Hnot. discriminate.
  - exact (Hne H).
Qed.

End Children.

(** ** One step of the searches in a well-formed tree *)


Lemma ancestor_child_cases (n : node) (v : string) (k : nat) (c : node) :
  children_ok n -> nth_error (children n) k = Some c -> isAncestorTopic v c = true ->
  (topic c = v /\ binaryIndexBy getTopic v (children n) = k)
  \/ (exists r, v = (topic c ++ String "." r)%string
                /\ binaryIndexBy getTopic v (children n) = S k).
Proof.
  intros [Hsorted Hshape] Hnth Hanc.
  apply isAncestorTopic_spec in Hanc. destruct Hanc as [H|[[r H]|H]].
  - left. split; [congruence|].
    apply (@child_exact_index (children n) v Hsorted k c Hnth). congruence.
  - right. exists r. split; [exact H|].
    apply (@child_proper_index (generation_prefix (topic n)) (children n) v Hsorted Hshape
             k c r Hnth H).
  - exfalso. rewrite Forall_forall in Hshape.
    destruct (Hshape c (nth_error_In _ _ Hnth)) as [Hne _]. exact (Hne H).
Qed.



(** At most one child of a node is an ancestor of a topic. *)
Lemma ancestor_child_unique (n : node) (v : string) (k1 k2 : nat) (c1 c2 : node) :
  children_ok n ->
  nth_error (children n) k1 = Some c1 -> isAncestorTopic v c1 = true ->
  nth_error (children n) k2 = Some c2 -> isAncestorTopic v c2 = true ->
  k1 = k2.
Proof.
  intros Hok H1 A1 H2 A2.
  destruct (@ancestor_child_cases n v k1 c1 Hok H1 A1) as [[V1 I1]|(r1 & V1 & I1)];
    destruct (@ancestor_child_cases n v k2 c2 Hok H2 A2) as [[V2 I2]|(r2 & V2 & I2)];
    try lia.
  - exfalso. destruct Hok as [Hsorted Hshape].
    assert (Hx : nth_error (children n) (S k2) = Some c1) by (rewrite <- I2, I1; exact H1).
    destruct (@child_after_proper (generation_prefix (topic n)) (children n) v
                Hsorted Hshape k2 c2 r2 c1 H2 V2 Hx) as [Hnot _].
    congruence.
  - exfalso. destruct Hok as [Hsorted Hshape].
    assert (Hx : nth_error (children n) (S k1) = Some c2) by (rewrite <- I1, I2; exact H2).
    destruct (@child_after_proper (generation_prefix (topic n)) (children n) v
                Hsorted Hshape k1 c1 r1 c2 H1 V1 Hx) as [Hnot _].
    congruence.
Qed.

(** ** Topics along a path of the tree *)











(** ** What the searches find in a well-formed tree *)




(** ** Writes through a reference *)

Lemma update_nth_length (T : Type) (f : T -> T) (l : list T) :
  forall k, List.length (update_nth k f l) = List.length l.
Proof. induction l as [|x l IH]; intros [|k]; simpl; try reflexivity. rewrite IH. reflexivity. Qed.












(** ** New children keep a node well formed *)








(** ** The generations that [addTopicLine] adds *)















Lemma isAncestorTopic_same_topic (v : string) (c c' : node) :
  topic c = topic c' -> isAncestorTopic v c = isAncestorTopic v c'.
Proof. unfold isAncestorTopic, getTopic. intros ->. reflexivity. Qed.



(** ** A write at the node of a plain topic *)





(** ** Writes that leave the topics alone *)










(** ** Removing and suspending by token *)









(** ** The public functions keep a broker well formed *)





















(** ** The lineage of a topic *)




(** ** Properties of [searchAround] *)

(** X7.  Started inside the array, [searchAround] answers the index of an
    element whose value and condition value both equal the ones sought: the
    nearest such element at or below the start if there is one, else the
    first one above the start; it answers [-1] when the array holds no
    such element.  Started at [arr.length] or beyond, it answers [-1]
    whatever the array holds. *)
Theorem searchAround_scans_whole_array (A : Type) (getValue getConditionValue : A -> operand)
    (value conditionValue : operand) (arr : list A) (start : nat) :
  (start < List.length arr ->
   (exists j e,
       searchAround getValue getConditionValue value conditionValue (Z.of_nat start) arr
       = Z.of_nat j
       /\ nth_error arr j = Some e
       /\ mismatch getValue getConditionValue value conditionValue e = false
       /\ (forall k e', k <= start -> j < k -> nth_error arr k = Some e' ->
                        mismatch getValue getConditionValue value conditionValue e' = true)
       /\ (start < j ->
           forall k e', k < j -> nth_error arr k = Some e' ->
                        mismatch getValue getConditionValue value conditionValue e' = true))
   \/ (searchAround getValue getConditionValue value conditionValue (Z.of_nat start) arr
       = (-1)%Z
       /\ forall e, In e arr ->
                    mismatch getValue getConditionValue value conditionValue e = true))
  /\ (List.length arr <= start ->
      searchAround getValue getConditionValue value conditionValue (Z.of_nat start) arr
      = (-1)%Z).
Proof.
  split.
  - apply searchAround_inside.
  - apply searchAround_outside.
Qed.

(** ** Properties of the topic tree *)










(** ** Properties of [unsubscribe] and [resubscribe] *)













(** ** Properties of persisted publications *)




(** ** The subtree of a topic *)






(** ** The replay in a well-formed broker *)

Lemma mergeBy_no_messages :
  mergeBy getFingerArrayOrder [@nil persistedMessage] = Some [].
Proof. reflexivity. Qed.



(** ** Writes to a subtree *)











(** ** Properties of [removePersisted] *)






(** ** Properties of a publication in flight *)

(** The loop of [resumeSubscriptionDispatcher] launches subscriptions and
    counts them; neither the loop nor [resolveUseClosure] called from
    inside it settles the promise: the index is not negative there. *)
Lemma resolveUse_keeps (dispatch : option (Resolver -> dispatched)) (options : Options)
    (u : use) (v : value) (resolver : Resolver) :
  (forall resume r, dispatch = Some resume ->
                    settled (d_resolver (resume r)) = settled r
                    /\ status (promise (d_resolver (resume r))) = status (promise r)) ->
  (0 <=? i resolver)%Z = true ->
  settled (d_resolver (resolveUse dispatch options u v resolver)) = settled resolver
  /\ status (promise (d_resolver (resolveUse dispatch options u v resolver)))
     = status (promise resolver).
Proof.
  intros Hdispatch Hi. unfold resolveUse.
  destruct (settled resolver && negb (updateAfterSettlement options));
    [split; reflexivity|].
  rewrite push_value_i, Hi.
  assert (Hpush : settled (push_value u v resolver) = settled resolver
                  /\ status (promise (push_value u v resolver)) = status (promise resolver)).
  { destruct u; split; reflexivity. }
  destruct Hpush as [Hps Hpst].
  destruct dispatch as [resume|].
  - destruct (Hdispatch resume (push_value u v resolver) eq_refl) as [H1 H2].
    rewrite H1, H2. split; assumption.
  - split; assumption.
Qed.

Lemma resume_with_keeps (dispatch : option (Resolver -> dispatched)) (t d : value)
    (options : Options) (subs : list (option subscription)) :
  (forall resume r, dispatch = Some resume ->
                    settled (d_resolver (resume r)) = settled r
                    /\ status (promise (d_resolver (resume r))) = status (promise r)) ->
  forall fuel resolver,
    settled (d_resolver (resume_with dispatch fuel t d options subs resolver))
    = settled resolver
    /\ status (promise (d_resolver (resume_with dispatch fuel t d options subs resolver)))
       = status (promise resolver).
Proof.
  intros Hdispatch.
  induction fuel as [|fuel IH]; intros resolver; [split; reflexivity|].
  simpl resume_with.
  destruct (0 <=? i resolver)%Z eqn:Hi; simpl andb; cbv iota; [|split; reflexivity].
  destruct (pending (promise resolver) <? semaphor options)%float; [|split; reflexivity].
  destruct (nth_error subs (Z.to_nat (i resolver))) as [[s|]|];
    [|split; reflexivity|split; reflexivity].
  destruct (negb (suspended s)).
  - destruct (at_once s d t) as [[u v]|].
    + destruct (@resolveUse_keeps dispatch options u v (add_pending resolver 1)
                  Hdispatch Hi) as [H1 H2].
      destruct (d_raised (resolveUse dispatch options u v (add_pending resolver 1))).
      * cbn [d_resolver]. split; [exact H1|exact H2].
      * cbv zeta. cbn [d_resolver].
        destruct (IH (set_i (d_resolver (resolveUse dispatch options u v
                                           (add_pending resolver 1)))
                        (i (d_resolver (resolveUse dispatch options u v
                                          (add_pending resolver 1))) - 1)))
          as [I1 I2].
        rewrite I1, I2. split; [exact H1|exact H2].
    + cbv zeta. cbn [d_resolver].
      exact (IH (set_i (add_pending resolver 1) (i (add_pending resolver 1) - 1))).
  - exact (IH (set_i resolver (i resolver - 1))).
Qed.

Lemma resume_loop_keeps (t d : value) (options : Options)
    (subs : list (option subscription)) :
  forall stack fuel resolver,
    settled (d_resolver (resume_loop stack fuel t d options subs resolver)) = settled resolver
    /\ status (promise (d_resolver (resume_loop stack fuel t d options subs resolver)))
       = status (promise resolver).
Proof.
  induction stack as [|stack IH]; intros fuel resolver; rewrite resume_loop_eq;
    apply resume_with_keeps.
  - discriminate.
  - intros resume r Hresume. injection Hresume as <-. apply IH.
Qed.

(** Over patient subscriptions the loop does not touch the values
    collected. *)
Lemma resume_with_values (dispatch : option (Resolver -> dispatched)) (t d : value)
    (options : Options) (subs : list (option subscription)) :
  all_patient d t subs = true ->
  forall fuel resolver,
    fulfilledValues (d_resolver (resume_with dispatch fuel t d options subs resolver))
    = fulfilledValues resolver
    /\ rejectedValues (d_resolver (resume_with dispatch fuel t d options subs resolver))
       = rejectedValues resolver.
Proof.
  intros Hpatient.
  induction fuel as [|fuel IH]; intros resolver; [split; reflexivity|].
  simpl resume_with.
  destruct ((0 <=? i resolver)%Z && (pending (promise resolver) <? semaphor options)%float);
    [|split; reflexivity].
  destruct (nth_error subs (Z.to_nat (i resolver))) as [[s|]|] eqn:Hnth;
    [|split; reflexivity|split; reflexivity].
  destruct (negb (suspended s)).
  - rewrite (@all_patient_at_once d t subs s Hpatient (nth_error_In _ _ Hnth)).
    cbv zeta. cbn [d_resolver].
    exact (IH (set_i (add_pending resolver 1) (i (add_pending resolver 1) - 1))).
  - exact (IH (set_i resolver (i resolver - 1))).
Qed.

Lemma evaluateLatch_settled (resolver : Resolver) (options : Options) :
  settled resolver = true -> evaluateLatch resolver options = resolver.
Proof. intros H. unfold evaluateLatch. rewrite H. reflexivity. Qed.

Lemma evaluateLatch_values (resolver : Resolver) (options : Options) :
  fulfilledValues (evaluateLatch resolver options) = fulfilledValues resolver
  /\ rejectedValues (evaluateLatch resolver options) = rejectedValues resolver.
Proof.
  unfold evaluateLatch. destruct (settled resolver); [split; reflexivity|].
  destruct (latch_rejects _ _ _ _ _); [split; reflexivity|].
  destruct (latch_fulfills _ _ _ _ _); [|split; reflexivity].
  destruct (settlementLatch options); split; reflexivity.
Qed.

(** [resolveUseClosure] leaves what the closures captured as it is. *)
Lemma resolveUseClosure_frame (stack : nat) (u : use) (pub : Publication) (v : value) :
  pub_options (fst (resolveUseClosure stack u pub v)) = pub_options pub
  /\ pub_topic (fst (resolveUseClosure stack u pub v)) = pub_topic pub
  /\ pub_data (fst (resolveUseClosure stack u pub v)) = pub_data pub
  /\ pub_subscriptions (fst (resolveUseClosure stack u pub v)) = pub_subscriptions pub.
Proof.
  unfold resolveUseClosure.
  destruct (settled (pub_resolver pub) && negb (updateAfterSettlement (pub_options pub)));
    [repeat split|].
  destruct (0 <=? i (push_value u v (pub_resolver pub)))%Z; repeat split.
Qed.

Lemma resolveUseClosure_settled (stack : nat) (u : use) (pub : Publication) (v : value) :
  settled (pub_resolver pub) = true ->
  settled (pub_resolver (fst (resolveUseClosure stack u pub v))) = true
  /\ status (promise (pub_resolver (fst (resolveUseClosure stack u pub v))))
     = status (promise (pub_resolver pub))
  /\ (updateAfterSettlement (pub_options pub) = false ->
      fst (resolveUseClosure stack u pub v) = pub).
Proof.
  intros Hsettled. unfold resolveUseClosure. rewrite Hsettled.
  destruct (updateAfterSettlement (pub_options pub)); simpl andb; cbv iota.
  2:{ repeat split; assumption. }
  assert (Hpush : settled (push_value u v (pub_resolver pub)) = true
                  /\ status (promise (push_value u v (pub_resolver pub)))
                     = status (promise (pub_resolver pub))).
  { destruct u; split; assumption || reflexivity. }
  destruct Hpush as [Hps Hpst].
  destruct (0 <=? i (push_value u v (pub_resolver pub)))%Z.
  - unfold resumeSubscriptionDispatcher. simpl fst. simpl pub_resolver.
    destruct (@resume_loop_keeps (pub_topic pub) (pub_data pub) (pub_options pub)
                (pub_subscriptions pub) stack
                (Z.to_nat (i (push_value u v (pub_resolver pub)) + 1))
                (push_value u v (pub_resolver pub))) as (H1 & H2).
    rewrite H1, H2. repeat split; try assumption. discriminate.
  - simpl fst. simpl pub_resolver.
    rewrite (@evaluateLatch_settled _ (pub_options pub) Hps).
    repeat split; try assumption. discriminate.
Qed.

(** X20.  Once a publication is settled, no later outcome of a subscriber
    changes how its promise settled; without [updateAfterSettlement] it
    does not change the publication at all: the counters, the values and
    the subscriptions still to be launched stay as they were. *)
Theorem settled_publication_is_final (stack : nat) (pub : Publication)
    (events : list (use * value)) :
  settled (pub_resolver pub) = true ->
  settled (pub_resolver (deliver_all stack pub events)) = true
  /\ status (promise (pub_resolver (deliver_all stack pub events)))
     = status (promise (pub_resolver pub))
  /\ (updateAfterSettlement (pub_options pub) = false -> deliver_all stack pub events = pub).
Proof.
  revert pub. unfold deliver_all.
  induction events as [|[u v] events IH]; intros pub Hsettled.
  { simpl fold_left. split; [exact Hsettled|]. split; reflexivity. }
  simpl fold_left.
  change (deliver stack pub (u, v)) with (fst (resolveUseClosure stack u pub v)).
  destruct (@resolveUseClosure_settled stack u pub v Hsettled) as (H1 & H2 & H3).
  destruct (IH _ H1) as (I1 & I2 & I3). split; [exact I1|]. split; [congruence|].
  intros Hupdate. rewrite (H3 Hupdate) in *. apply I3, Hupdate.
Qed.

Lemma settled_publication_is_final_witness :
  settled (pub_resolver (deliver_all room lineage_publication_done [(UseRejected, VUndefined)]))
  = true
  /\ status (promise (pub_resolver
                        (deliver_all room lineage_publication_done [(UseRejected, VUndefined)])))
     = status (promise (pub_resolver lineage_publication_done))
  /\ (updateAfterSettlement (pub_options lineage_publication_done) = false ->
      deliver_all room lineage_publication_done [(UseRejected, VUndefined)]
      = lineage_publication_done).
Proof.
  apply (@settled_publication_is_final room lineage_publication_done
           [(UseRejected, VUndefined)]).
  vm_compute. reflexivity.
Defined.

Lemma push_value_records (u : use) (v : value) (resolver : Resolver) :
  fulfilledValues (push_value u v resolver)
  = fulfilledValues resolver ++ values_of UseFulfilled [(u, v)]
  /\ rejectedValues (push_value u v resolver)
     = rejectedValues resolver ++ values_of UseRejected [(u, v)].
Proof. destruct u; simpl; rewrite app_nil_r; split; reflexivity. Qed.

Lemma values_of_cons (w u : use) (v : value) (events : list (use * value)) :
  values_of w ((u, v) :: events) = values_of w [(u, v)] ++ values_of w events.
Proof. unfold values_of. simpl. destruct u, w; reflexivity. Qed.

(** An outcome that is not dropped is pushed on the list of its kind, and
    over patient subscriptions nothing else writes to the two lists. *)
Lemma resolveUseClosure_records (stack : nat) (u : use) (pub : Publication) (v : value) :
  settled (pub_resolver pub) && negb (updateAfterSettlement (pub_options pub)) = false ->
  all_patient (pub_data pub) (pub_topic pub) (pub_subscriptions pub) = true ->
  fulfilledValues (pub_resolver (fst (resolveUseClosure stack u pub v)))
  = fulfilledValues (pub_resolver pub) ++ values_of UseFulfilled [(u, v)]
  /\ rejectedValues (pub_resolver (fst (resolveUseClosure stack u pub v)))
     = rejectedValues (pub_resolver pub) ++ values_of UseRejected [(u, v)].
Proof.
  intros Hkeep Hpatient. unfold resolveUseClosure. rewrite Hkeep.
  destruct (push_value_records u v (pub_resolver pub)) as [Hf Hr].
  destruct (0 <=? i (push_value u v (pub_resolver pub)))%Z.
  - unfold resumeSubscriptionDispatcher. simpl fst. simpl pub_resolver.
    rewrite resume_loop_eq.
    destruct (@resume_with_values
                match stack with
                | O => None
                | S stack' =>
                    Some (fun r => resume_loop stack' (Z.to_nat (i r + 1)) (pub_topic pub)
                                     (pub_data pub) (pub_options pub)
                                     (pub_subscriptions pub) r)
                end
                (pub_topic pub) (pub_data pub) (pub_options pub)
                (pub_subscriptions pub) Hpatient
                (Z.to_nat (i (push_value u v (pub_resolver pub)) + 1))
                (push_value u v (pub_resolver pub))) as (H3 & H4).
    rewrite H3, H4. split; assumption.
  - simpl fst. simpl pub_resolver.
    destruct (evaluateLatch_values (push_value u v (pub_resolver pub)) (pub_options pub))
      as [H3 H4].
    rewrite H3, H4. split; assumption.
Qed.

(** X21.  With [updateAfterSettlement], every outcome of a subscriber is
    recorded, whether the publication has settled or not: the fulfilled
    values grow by the values of the fulfilled outcomes and the rejected
    values by the reasons of the rejected ones, in completion order.  These
    are the arrays that [evaluateLatch] settles the promise with.  The
    subscriptions are patient: an eager thenable has its own outcome
    recorded from inside the loop, between the outcomes that arrive, as
    [eager_outcomes_are_recorded_too] shows. *)
Theorem updateAfterSettlement_records_every_outcome (stack : nat) (pub : Publication)
    (events : list (use * value)) :
  updateAfterSettlement (pub_options pub) = true ->
  all_patient (pub_data pub) (pub_topic pub) (pub_subscriptions pub) = true ->
  fulfilledValues (pub_resolver (deliver_all stack pub events))
  = fulfilledValues (pub_resolver pub) ++ values_of UseFulfilled events
  /\ rejectedValues (pub_resolver (deliver_all stack pub events))
     = rejectedValues (pub_resolver pub) ++ values_of UseRejected events.
Proof.
  revert pub. unfold deliver_all.
  induction events as [|[u v] events IH]; intros pub Hupdate Hpatient.
  { simpl. rewrite !app_nil_r. split; reflexivity. }
  simpl fold_left.
  change (deliver stack pub (u, v)) with (fst (resolveUseClosure stack u pub v)).
  destruct (@resolveUseClosure_records stack u pub v) as [Hf Hr].
  { rewrite Hupdate. apply andb_false_r. }
  { exact Hpatient. }
  destruct (resolveUseClosure_frame stack u pub v) as (Fo & Ft & Fd & Fs).
  destruct (IH (fst (resolveUseClosure stack u pub v))) as [If Ir].
  { rewrite Fo. exact Hupdate. }
  { rewrite Ft, Fd, Fs. exact Hpatient. }
  rewrite If, Ir, Hf, Hr, <- !app_assoc, !(values_of_cons _ u v events).
  split; reflexivity.
Qed.

Lemma updateAfterSettlement_records_every_outcome_witness :
  fulfilledValues
    (pub_resolver (deliver_all room updating_publication
                     [(UseFulfilled, VNum (Fin 1)); (UseRejected, VNum (Fin 2));
                      (UseFulfilled, VNum (Fin 3))]))
  = fulfilledValues (pub_resolver updating_publication)
    ++ values_of UseFulfilled
         [(UseFulfilled, VNum (Fin 1)); (UseRejected, VNum (Fin 2));
          (UseFulfilled, VNum (Fin 3))]
  /\ rejectedValues
       (pub_resolver (deliver_all room updating_publication
                        [(UseFulfilled, VNum (Fin 1)); (UseRejected, VNum (Fin 2));
                         (UseFulfilled, VNum (Fin 3))]))
     = rejectedValues (pub_resolver updating_publication)
       ++ values_of UseRejected
            [(UseFulfilled, VNum (Fin 1)); (UseRejected, VNum (Fin 2));
             (UseFulfilled, VNum (Fin 3))].
Proof.
  apply (@updateAfterSettlement_records_every_outcome room updating_publication
           [(UseFulfilled, VNum (Fin 1)); (UseRejected, VNum (Fin 2));
            (UseFulfilled, VNum (Fin 3))]).
  - reflexivity.
  - reflexivity.
Defined.

(** X22.  An outcome that reaches an unsettled publication while
    subscriptions are still waiting to be launched does not settle it: the
    closure resumes the launches and returns before the latch is looked at,
    whatever the counters are. *)
Theorem queued_outcome_does_not_settle (stack : nat) (u : use) (pub : Publication)
    (v : value) :
  settled (pub_resolver pub) = false ->
  (0 <= i (pub_resolver pub))%Z ->
  settled (pub_resolver (fst (resolveUseClosure stack u pub v))) = false
  /\ status (promise (pub_resolver (fst (resolveUseClosure stack u pub v))))
     = status (promise (pub_resolver pub)).
Proof.
  intros Hsettled Hi. unfold resolveUseClosure. rewrite Hsettled. simpl andb. cbv iota.
  rewrite push_value_i.
  replace (0 <=? i (pub_resolver pub))%Z with true by (symmetry; apply Z.leb_le, Hi).
  unfold resumeSubscriptionDispatcher. simpl fst. simpl pub_resolver.
  destruct (@resume_loop_keeps (pub_topic pub) (pub_data pub) (pub_options pub)
              (pub_subscriptions pub) stack
              (Z.to_nat (i (push_value u v (pub_resolver pub)) + 1))
              (push_value u v (pub_resolver pub))) as (H1 & H2).
  rewrite H1, H2. destruct u; split; assumption || reflexivity.
Qed.

Lemma queued_outcome_does_not_settle_witness :
  settled (pub_resolver (fst (resolveUseClosure room UseFulfilled one_at_a_time VUndefined)))
  = false
  /\ status (promise (pub_resolver
                        (fst (resolveUseClosure room UseFulfilled one_at_a_time VUndefined))))
     = status (promise (pub_resolver one_at_a_time)).
Proof.
  apply (@queued_outcome_does_not_settle room UseFulfilled one_at_a_time VUndefined).
  - reflexivity.
  - vm_compute. discriminate.
Defined.

(** ** Properties of a publish on a broker of plain topics *)















(** ** Claims about the launch order *)










(** ** Properties of a dispatch over an eager thenable *)




(** An eager thenable has its outcome recorded from inside the loop.
    On [eager_publication] the eager subscription waits behind the
    semaphor; the outcome of the first subscriber launches it, its [then]
    calls [fulfill(7)], which launches it again, until the call stack is
    used up.  The values hold more than the outcome that arrived, so
    without patient subscriptions [updateAfterSettlement] does not make
    the values the outcomes that arrived. *)
Lemma eager_outcomes_are_recorded_too :
  updateAfterSettlement (pub_options eager_publication) = true
  /\ fulfilledValues (pub_resolver eager_publication) = []
  /\ fulfilledValues
       (pub_resolver (deliver_all 2 eager_publication [(UseFulfilled, VUndefined)]))
     = [VUndefined; VNum (Fin 7); VNum (Fin 7); VNum (Fin 7)]
  /\ fulfilledValues
       (pub_resolver (deliver_all 2 eager_publication [(UseFulfilled, VUndefined)]))
     <> fulfilledValues (pub_resolver eager_publication)
        ++ values_of UseFulfilled [(UseFulfilled, VUndefined)]
  /\ snd (resolveUseClosure 2 UseFulfilled eager_publication VUndefined)
     = Some RangeError.
Proof.
  split; [reflexivity|]. split; [reflexivity|]. split; [vm_compute; reflexivity|].
  split; [vm_compute; discriminate|vm_compute; reflexivity].
Qed.

(** A subscription that is suspended while it waits behind the semaphor is
    not launched: on [lineage_broker] a publish on ["a.b"] with
    [semaphor: 1] launches the three subscriptions one after the other,
    and it skips the one of ["a.b"] when [unsubscribe(token, true)] is
    called before the first outcome arrives. *)
Lemma suspended_in_flight_is_skipped :
  exists flight,
    take_off room lineage_broker "a.b" VUndefined
      (merge (state_options lineage_broker) one_by_one) = Returned flight
    /\ map (fun v => id (inv_subscription v))
         (pub_launched
            (fl_publication
               (follow_all room flight
                  [Outcome UseFulfilled VUndefined; Outcome UseFulfilled VUndefined])))
       = [first_id + 2; first_id + 1; first_id]%Z
    /\ map (fun v => id (inv_subscription v))
         (pub_launched
            (fl_publication
               (follow_all room flight
                  [Call (Unsubscribe (OneToken middle_token) true);
                   Outcome UseFulfilled VUndefined; Outcome UseFulfilled VUndefined])))
       = [first_id + 2; first_id]%Z.
Proof. eexists. split; [reflexivity|]. vm_compute. split; reflexivity. Qed.

(** ** Properties of a subscribe on several topics *)

Lemma subscribe_ignoring (state : Arbiter) (t : string) (f : subscriber) (o : Overrides)
    (ctx : value) :
  ignorePersisted (merge (state_options state) o) = true ->
  sr_outcome (subscribe state (VStr t) f o ctx)
  = Returned {| tok_topic := t; tok_id := next_id state;
                tok_priority :=
                  Some (priority_of (opt_priority (merge (state_options state) o))) |}
  /\ sr_delivered (subscribe state (VStr t) f o ctx) = []
  /\ next_id (sr_state (subscribe state (VStr t) f o ctx)) = (next_id state + 1)%Z
  /\ state_options (sr_state (subscribe state (VStr t) f o ctx)) = state_options state.
Proof.
  intros Hignore. unfold subscribe. simpl assert. cbv iota. cbv zeta.
  rewrite Hignore. simpl negb. cbv iota. repeat split.
Qed.

Lemma subscribe_each_ignoring (f : subscriber) (o : Overrides) (ctx : value)
    (more : list value) :
  forall (ts : list string) (state : Arbiter),
    ignorePersisted (merge (state_options state) o) = true ->
    subscribe_each state (map VStr ts ++ more) f o ctx
    = match subscribe_each (subscribed_to state ts f o ctx) more f o ctx with
      | (state', Returned tks, delivered) =>
          (state',
           Returned (tokens_from (next_id state)
                       (priority_of (opt_priority (merge (state_options state) o))) ts
                     ++ tks),
           delivered)
      | (state', Raised e, delivered) => (state', Raised e, delivered)
      end.
Proof.
  induction ts as [|t ts IH]; intros state Hignore.
  - simpl. unfold subscribed_to. simpl.
    destruct (subscribe_each state more f o ctx) as [[state' [tks|e]] delivered];
      reflexivity.
  - destruct (@subscribe_ignoring state t f o ctx Hignore) as (Hout & Hdel & Hid & Hopts).
    change (map VStr (t :: ts) ++ more) with (VStr t :: (map VStr ts ++ more)).
    cbn [subscribe_each]. rewrite Hout, Hdel.
    rewrite (IH (sr_state (subscribe state (VStr t) f o ctx)))
      by (rewrite Hopts; exact Hignore).
    rewrite Hid, Hopts.
    change (subscribed_to state (t :: ts) f o ctx)
      with (subscribed_to (sr_state (subscribe state (VStr t) f o ctx)) ts f o ctx).
    destruct (subscribe_each
                (subscribed_to (sr_state (subscribe state (VStr t) f o ctx)) ts f o ctx)
                more f o ctx) as [[state' [tks|e]] delivered]; reflexivity.
Qed.

(** X25.  The public [subscribe] with an array of topics and
    [ignorePersisted] registers the subscriber under each topic in turn
    and returns one token per topic, in the order of the topics, with
    consecutive ids; a single topic gives the token itself.  When an element
    of the array is not a string the call raises, the topics in front of
    that element stay subscribed, and the ones behind it are not
    subscribed. *)
Theorem subscribe_array_registers_in_turn (state : Arbiter) (t : string)
    (ts : list string) (f : subscriber) (o : Overrides) (ctx : value) :
  ignorePersisted (merge (state_options state) o) = true ->
  subscribeDispatcher state (TopicArray (VStr t) (map VStr ts)) f o ctx
  = (subscribed_to state (t :: ts) f o ctx,
     Returned (unwrap (tokens_from (next_id state)
                         (priority_of (opt_priority (merge (state_options state) o)))
                         (t :: ts))),
     [])
  /\ (forall bad more,
         String.eqb (typeof bad) "string" = false ->
         exists message,
           subscribeDispatcher state (TopicArray (VStr t) (map VStr ts ++ bad :: more))
             f o ctx
           = (subscribed_to state (t :: ts) f o ctx, Raised (Error message), [])).
Proof.
  intros Hignore. unfold subscribeDispatcher, topic_list. split.
  - pose proof (@subscribe_each_ignoring f o ctx [] (t :: ts) state Hignore) as Heach.
    rewrite app_nil_r in Heach.
    change (VStr t :: map VStr ts) with (map VStr (t :: ts)). rewrite Heach.
    cbn [subscribe_each]. rewrite app_nil_r. reflexivity.
  - intros bad more Hbad.
    pose proof (@subscribe_each_ignoring f o ctx (bad :: more) (t :: ts) state Hignore)
      as Heach.
    change (VStr t :: (map VStr ts ++ bad :: more))
      with (map VStr (t :: ts) ++ bad :: more).
    rewrite Heach. cbn [subscribe_each].
    assert (Hsub : subscribe (subscribed_to state (t :: ts) f o ctx) bad f o ctx
                   = {| sr_state := subscribed_to state (t :: ts) f o ctx;
                        sr_outcome :=
                          Raised (Error "Arbiter.subscribe only accepts strings as topics");
                        sr_delivered := [] |}).
    { unfold subscribe, assert. rewrite Hbad. reflexivity. }
    rewrite Hsub. eexists. reflexivity.
Qed.

Lemma subscribe_array_registers_in_turn_witness :
  subscribeDispatcher create (TopicArray (VStr "a") (map VStr ["a.b"; "c"]%string))
    (SFun noop) ignoring_call VUndefined
  = (subscribed_to create ["a"; "a.b"; "c"]%string (SFun noop) ignoring_call VUndefined,
     Returned (unwrap (tokens_from (next_id create)
                         (priority_of
                            (opt_priority (merge (state_options create) ignoring_call)))
                         ["a"; "a.b"; "c"]%string)),
     [])
  /\ (forall bad more,
         String.eqb (typeof bad) "string" = false ->
         exists message,
           subscribeDispatcher create
             (TopicArray (VStr "a") (map VStr ["a.b"; "c"]%string ++ bad :: more))
             (SFun noop) ignoring_call VUndefined
           = (subscribed_to create ["a"; "a.b"; "c"]%string (SFun noop) ignoring_call
                VUndefined,
              Raised (Error message), [])).
Proof.
  apply (@subscribe_array_registers_in_turn create "a" ["a.b"; "c"]%string (SFun noop)
           ignoring_call VUndefined).
  reflexivity.
Defined.
